(** * test-app: correlated traces, logs and metrics

    A shallow embedding of [test-app/app.py]: the JSON log formatter with
    its trace context, the four instrumented request handlers and the
    background emitter loop, run over a model of the tracing and metrics
    components the application drives. *)

From Stdlib Require Import ZArith QArith String Ascii List Lia Lqa.
From stdpp Require Import base option gmap strings list pretty.

Local Open Scope string_scope.
Local Open Scope list_scope.
Local Open Scope Z_scope.

(** ** Python's [format(n, '0Wx')] *)

Module Hex.

(** One lower-case hexadecimal digit, as [format(d, 'x')] prints it. *)
Definition hex_digit (d : Z) : ascii :=
  match d with
  | 0 => "0" | 1 => "1" | 2 => "2" | 3 => "3" | 4 => "4" | 5 => "5"
  | 6 => "6" | 7 => "7" | 8 => "8" | 9 => "9" | 10 => "a" | 11 => "b"
  | 12 => "c" | 13 => "d" | 14 => "e" | _ => "f"
  end%char.

(** The value of a hexadecimal digit, from its character code. *)
Definition digit_value (c : ascii) : option Z :=
  let n := Z.of_nat (nat_of_ascii c) in
  if (48 <=? n) && (n <=? 57) then Some (n - 48)
  else if (97 <=? n) && (n <=? 102) then Some (n - 87)
  else None.

Definition is_hex_digit (c : ascii) : bool :=
  match digit_value c with Some _ => true | None => false end.

(** The digits of a non-negative [n], most significant first, pushed in
    front of [acc]; [fuel] bounds the number of digits. *)
Fixpoint hex_digits (fuel : nat) (n : Z) (acc : string) : string :=
  match fuel with
  | O => acc
  | S fuel' =>
      let acc' := String (hex_digit (n mod 16)) acc in
      if n / 16 =? 0 then acc' else hex_digits fuel' (n / 16) acc'
  end.

(** [format(n, 'x')] for [0 <= n]. *)
Definition to_hex (n : Z) : string :=
  hex_digits (S (Z.to_nat (Z.log2 n))) n "".

Fixpoint zeros (k : nat) : string :=
  match k with O => "" | S k' => String "0"%char (zeros k') end.

(** [format(n, '0Wx')]: sign first, then zeros up to the minimum width
    [W], then the digits; a longer number is not cut. *)
Definition format_x (width : nat) (n : Z) : string :=
  if n <? 0 then
    let s := to_hex (- n) in
    String "-"%char (zeros (width - 1 - String.length s) +:+ s)
  else
    let s := to_hex n in
    zeros (width - String.length s) +:+ s.

Fixpoint all_hex (s : string) : bool :=
  match s with
  | EmptyString => true
  | String c s' => is_hex_digit c && all_hex s'
  end.

(** Reading a hexadecimal string back, [int(s, 16)] on digit strings. *)
Fixpoint parse_hex_from (acc : Z) (s : string) : option Z :=
  match s with
  | EmptyString => Some acc
  | String c s' =>
      match digit_value c with
      | Some d => parse_hex_from (acc * 16 + d) s'
      | None => None
      end
  end.

Definition parse_hex (s : string) : option Z := parse_hex_from 0 s.

End Hex.

(** ** Data model *)

(** Scalars of log entries, span attributes and response bodies; a Python
    float is held as the rational it denotes, and [VTime] stands for the
    text [Formatter.formatTime] prints for an instant. *)
Inductive Value :=
| VStr (s : string)
| VInt (n : Z)
| VFloat (q : Q)
| VBool (b : bool)
| VTime (t : Q).

(** A Python [dict] with string keys: insertion order is kept, setting an
    existing key replaces its value in place. *)
Definition Dict := list (string * Value).

Fixpoint dict_set (k : string) (v : Value) (d : Dict) : Dict :=
  match d with
  | [] => [(k, v)]
  | (k', v') :: d' =>
      if (k' =? k)%string then (k, v) :: d' else (k', v') :: dict_set k v d'
  end.

Fixpoint dict_get (k : string) (d : Dict) : option Value :=
  match d with
  | [] => None
  | (k', v') :: d' => if (k' =? k)%string then Some v' else dict_get k d'
  end.

(** [d.update(extra)]. *)
Definition dict_update (d extra : Dict) : Dict :=
  fold_left (fun acc kv => dict_set kv.1 kv.2 acc) extra d.

Definition dict_has (k : string) (d : Dict) : bool :=
  match dict_get k d with Some _ => true | None => false end.

Inductive StatusCode := Unset | Ok | Error (description : string).

Record SpanEvent := {
  event_name : string;
  event_time : Q;
  event_attributes : Dict
}.

Record SpanContext := { trace_id : Z; span_id : Z }.

Record Span := {
  handle : nat;
  name : string;
  context : SpanContext;
  parent_span_id : option Z;
  start_time : Q;
  end_time : option Q;
  attributes : Dict;
  events : list SpanEvent;
  status : StatusCode
}.

Record Exc := { exc_type : string; exc_msg : string }.

(** A Flask response: the JSON body and the HTTP status. *)
Record Response := { body : Dict; http_status : Z }.

(** A metric series: instrument name and label set. *)
Abbreviation Labels := (gmap string string).
Abbreviation Series := (string * gmap string string)%type.

(** What leaves the process, in the order it happens: sealed spans handed
    to the exporter, console log lines, metric updates, reported usage
    errors; sleeps are kept to place the others in time. *)
Inductive Emission :=
| SpanExported (s : Span)
| LogEmitted (entry : Dict)
| CounterAdd (instrument : string) (labels : Labels) (delta : Z)
| HistogramRecord (instrument : string) (labels : Labels) (value : Q)
| UsageError (what : string)
| Slept (seconds : Q).

(** One execution context (a request thread or the emitter thread) with
    the process-wide registry it writes to.  [bits] is the module-level
    random generator ([random.random], [random.uniform], [random.randint],
    [random.choice] and the identifiers all draw from it), [rng_pos] the
    number of draws made so far; [clock] is [time.time()]. *)
Record State := {
  stack : list Span;
  next_handle : nat;
  counters : gmap Series Z;
  histograms : gmap Series (list Q);
  history : list Emission;
  clock : Q;
  bits : nat -> Z;
  rng_pos : nat
}.

Definition set_stack (f : list Span -> list Span) (st : State) : State :=
  {| stack := f (stack st); next_handle := next_handle st;
     counters := counters st; histograms := histograms st;
     history := history st; clock := clock st;
     bits := bits st; rng_pos := rng_pos st |}.

Definition set_next_handle (n : nat) (st : State) : State :=
  {| stack := stack st; next_handle := n;
     counters := counters st; histograms := histograms st;
     history := history st; clock := clock st;
     bits := bits st; rng_pos := rng_pos st |}.

Definition set_counters (m : gmap Series Z) (st : State) : State :=
  {| stack := stack st; next_handle := next_handle st;
     counters := m; histograms := histograms st;
     history := history st; clock := clock st;
     bits := bits st; rng_pos := rng_pos st |}.

Definition set_histograms (m : gmap Series (list Q)) (st : State) : State :=
  {| stack := stack st; next_handle := next_handle st;
     counters := counters st; histograms := m;
     history := history st; clock := clock st;
     bits := bits st; rng_pos := rng_pos st |}.

Definition emit (e : Emission) (st : State) : State :=
  {| stack := stack st; next_handle := next_handle st;
     counters := counters st; histograms := histograms st;
     history := history st ++ [e]; clock := clock st;
     bits := bits st; rng_pos := rng_pos st |}.

Definition set_clock (t : Q) (st : State) : State :=
  {| stack := stack st; next_handle := next_handle st;
     counters := counters st; histograms := histograms st;
     history := history st; clock := t;
     bits := bits st; rng_pos := rng_pos st |}.

Definition set_rng_pos (n : nat) (st : State) : State :=
  {| stack := stack st; next_handle := next_handle st;
     counters := counters st; histograms := histograms st;
     history := history st; clock := clock st;
     bits := bits st; rng_pos := n |}.

(** ** Control flow: normal completion, [return], [raise] *)

Inductive Outcome (A : Type) :=
| Normal (a : A)
| Return (r : Response)
| Raise (e : Exc).
Arguments Normal {A} a.
Arguments Return {A} r.
Arguments Raise {A} e.

Definition M (A : Type) : Type := State -> Outcome A * State.

Definition ret {A} (a : A) : M A := fun st => (Normal a, st).

Definition bind {A B} (m : M A) (k : A -> M B) : M B :=
  fun st =>
    match m st with
    | (Normal a, st') => k a st'
    | (Return r, st') => (Return r, st')
    | (Raise e, st') => (Raise e, st')
    end.

#[export] Instance M_ret : MRet M := @ret.
#[export] Instance M_bind : MBind M := fun A B k m => bind m k.

Definition raise {A} (e : Exc) : M A := fun st => (Raise e, st).
Definition return_ {A} (r : Response) : M A := fun st => (Return r, st).
Definition get_state : M State := fun st => (Normal st, st).
Definition modify (f : State -> State) : M unit := fun st => (Normal tt, f st).

(** [try: body finally: fin]: [fin] runs on every way out of [body], and
    the way out of [body] stands unless [fin] itself returns or raises. *)
Definition try_finally {A} (body : M A) (fin : M unit) : M A :=
  fun st =>
    match body st with
    | (o, st') =>
        match fin st' with
        | (Normal _, st'') => (o, st'')
        | (Return r, st'') => (Return r, st'')
        | (Raise e, st'') => (Raise e, st'')
        end
    end.

(** [try: body except <matching> as e: handler e]. *)
Definition try_except {A} (body : M A) (catches : Exc -> bool)
    (handler : Exc -> M A) : M A :=
  fun st =>
    match body st with
    | (Raise e, st') => if catches e then handler e st' else (Raise e, st')
    | other => other
    end.

Definition is_ValueError (e : Exc) : bool := (exc_type e =? "ValueError")%string.
Definition is_Exception (e : Exc) : bool := true.

(** ** Standard-library calls of the application *)

(** One draw of the random generator. *)
Definition next_draw : M Z :=
  fun st => (Normal (bits st (rng_pos st)), set_rng_pos (S (rng_pos st)) st).

(** The float in [[0, 1)] made of a draw: its low 53 bits over [2^53]. *)
Definition unit_draw (d : Z) : Q :=
  Qmake (d mod 9007199254740992) 9007199254740992.

(** [random.random()]. *)
Definition random_random : M Q :=
  d ← next_draw;
  mret (unit_draw d).

(** [random.uniform(a, b)] is [a + (b - a) * random()]. *)
Definition random_uniform (a b : Q) : M Q :=
  u ← random_random;
  mret (a + (b - a) * u)%Q.

(** [random.randint(a, b)] is [a + randbelow(b - a + 1)]. *)
Definition random_randint (a b : Z) : M Z :=
  d ← next_draw;
  mret (a + d mod (b - a + 1)).

(** [random.choice(seq)] is [seq[randbelow(len(seq))]]; an empty sequence
    raises [IndexError]. *)
Definition random_choice {A} (seq : list A) : M A :=
  match seq with
  | [] => raise {| exc_type := "IndexError";
                   exc_msg := "Cannot choose from an empty sequence" |}
  | x :: _ =>
      d ← next_draw;
      mret (nth (Z.to_nat (d mod Z.of_nat (length seq))) seq x)
  end.

Definition time_time : M Q :=
  st ← get_state;
  mret (clock st).

Definition time_sleep (seconds : Q) : M unit :=
  modify (fun st => emit (Slept seconds) (set_clock (clock st + seconds)%Q st)).

(** [int(x)] on a float: truncation towards zero. *)
Definition int_of (x : Q) : Z := Z.quot (Qnum x) (Z.pos (Qden x)).

(** [f"{x:.2f}"]: two decimals, the nearest value, ties to even. *)
Definition round_half_even (x : Q) : Z :=
  let n := Qnum x in
  let d := Z.pos (Qden x) in
  let fl := n / d in
  match 2 * (n mod d) ?= d with
  | Lt => fl
  | Gt => fl + 1
  | Eq => if Z.even fl then fl else fl + 1
  end.

Definition two_digits (n : Z) : string :=
  if n <? 10 then "0" +:+ pretty n else pretty n.

Definition format_2f (x : Q) : string :=
  let cents := round_half_even (x * 100)%Q in
  if cents <? 0 then
    "-" +:+ pretty (- cents / 100) +:+ "." +:+ two_digits (- cents mod 100)
  else
    pretty (cents / 100) +:+ "." +:+ two_digits (cents mod 100).

Definition upper_char (c : ascii) : ascii :=
  let n := nat_of_ascii c in
  if (97 <=? n)%nat && (n <=? 122)%nat then ascii_of_nat (n - 32) else c.

(** [s.upper()] on ASCII text. *)
Fixpoint upper (s : string) : string :=
  match s with
  | EmptyString => EmptyString
  | String c s' => String (upper_char c) (upper s')
  end.

(** ** Tracing *)

(** Modelled from the spec: the tracer ([opentelemetry.trace] and its SDK,
    sections 4.1 and 4.2) is not among the sources.  [open] creates a span
    whose parent is the top of the calling context's stack (none on an
    empty stack, which makes a root with a newly drawn trace id), pushes it
    and returns a handle; [close] seals the top span and pops it, and
    reports, without failing, a close of a handle that is not the top;
    [current] reads the top.  Identifiers are drawn from the random
    generator, 128 bits for a trace and 64 bits for a span, the value zero
    being kept for "no span". *)
Definition generate_id (width : Z) : M Z :=
  d ← next_draw;
  mret (1 + d mod (2 ^ width - 1)).

(** Modelled from the spec: [current()], the top of the calling context's
    stack, without changing it. *)
Definition current (st : State) : option Span := head (stack st).

(** Modelled from the spec: [open(name)].  The handle is a serial number
    of the context, so that a handle names one span for good. *)
Definition open_span (span_name : string) : M nat :=
  st ← get_state;
  '(tid, parent) ← match current st with
                   | Some p => mret (trace_id (context p),
                                     Some (span_id (context p)))
                   | None => t ← generate_id 128; mret (t, None)
                   end;
  sid ← generate_id 64;
  st ← get_state;
  let h := next_handle st in
  modify (fun st =>
    set_next_handle (S h)
      (set_stack (cons {| handle := h; name := span_name;
                          context := {| trace_id := tid; span_id := sid |};
                          parent_span_id := parent;
                          start_time := clock st; end_time := None;
                          attributes := []; events := [];
                          status := Unset |}) st));;
  mret h.

Definition seal (now : Q) (s : Span) : Span :=
  {| handle := handle s; name := name s; context := context s;
     parent_span_id := parent_span_id s; start_time := start_time s;
     end_time := Some now; attributes := attributes s;
     events := events s; status := status s |}.

(** Modelled from the spec: [close(handle)].  The span is sealed and
    handed to the exporter when the handle is the top of the stack; any
    other close is a reported usage error that changes nothing else. *)
Definition close_span (h : nat) : M unit :=
  fun st =>
    match stack st with
    | s :: rest =>
        if (handle s =? h)%nat then
          (Normal tt,
           emit (SpanExported (seal (clock st) s)) (set_stack (fun _ => rest) st))
        else
          (Normal tt, emit (UsageError "close: not the current span") st)
    | [] => (Normal tt, emit (UsageError "close: not the current span") st)
    end.

(** The open span with handle [h], nearest the top, changed by [f]. *)
Fixpoint update_span (h : nat) (f : Span -> Span) (l : list Span)
    : option (list Span) :=
  match l with
  | [] => None
  | s :: l' =>
      if (handle s =? h)%nat then Some (f s :: l')
      else cons s <$> update_span h f l'
  end.

(** Modelled from the spec: [set_attribute] and [add_event] change an open
    span in place; on a sealed one the call is reported and ignored. *)
Definition mutate_span (h : nat) (f : Span -> Span) : M unit :=
  fun st =>
    match update_span h f (stack st) with
    | Some l => (Normal tt, set_stack (fun _ => l) st)
    | None => (Normal tt, emit (UsageError "span is not open") st)
    end.

Definition with_attribute (k : string) (v : Value) (s : Span) : Span :=
  {| handle := handle s; name := name s; context := context s;
     parent_span_id := parent_span_id s; start_time := start_time s;
     end_time := end_time s; attributes := dict_set k v (attributes s);
     events := events s; status := status s |}.

Definition with_event (e : SpanEvent) (s : Span) : Span :=
  {| handle := handle s; name := name s; context := context s;
     parent_span_id := parent_span_id s; start_time := start_time s;
     end_time := end_time s; attributes := attributes s;
     events := events s ++ [e]; status := status s |}.

Definition with_status (c : StatusCode) (s : Span) : Span :=
  {| handle := handle s; name := name s; context := context s;
     parent_span_id := parent_span_id s; start_time := start_time s;
     end_time := end_time s; attributes := attributes s;
     events := events s; status := c |}.

Definition set_attribute (h : nat) (k : string) (v : Value) : M unit :=
  mutate_span h (with_attribute k v).

Definition add_event (h : nat) (ev : string) (attrs : Dict) : M unit :=
  now ← time_time;
  mutate_span h (with_event {| event_name := ev; event_time := now;
                               event_attributes := attrs |}).

Definition exception_event (e : Exc) : Dict :=
  [("exception.type", VStr (exc_type e));
   ("exception.message", VStr (exc_msg e))].

Definition record_exception (h : nat) (e : Exc) : M unit :=
  add_event h "exception" (exception_event e).

Definition set_status (h : nat) (c : StatusCode) : M unit :=
  mutate_span h (with_status c).

(** Modelled from the spec: the scoped form of section 4.2, written
    [with tracer.start_as_current_span(name) as span:] in the application.
    The span is opened and current while [work] runs and is closed on every
    way out; when [work] raises, the failure is first recorded as an event
    and the status set to [Error], then the exception goes on. *)
Definition start_as_current_span {A} (span_name : string) (work : nat -> M A)
    : M A :=
  h ← open_span span_name;
  fun st =>
    match work h st with
    | (Raise e, st') =>
        (record_exception h e;;
         set_status h (Error (exc_type e +:+ ": " +:+ exc_msg e));;
         close_span h;;
         raise e) st'
    | (out, st') => (close_span h;; fun st'' => (out, st'')) st'
    end.

(** ** Metrics *)

Inductive InstrumentKind := Counter | Histogram | UpDownCounter.

Record Instrument := { instr_name : string; instr_kind : InstrumentKind }.

(** Modelled from the spec: the metrics registry ([opentelemetry.metrics]
    and its SDK, section 4.4) is not among the sources.  Aggregation is
    keyed by name and label set: two calls with the same name and labels
    accumulate into one series, a counter or up/down counter holding a
    running sum, a histogram the observations recorded. *)
Definition create_counter (n : string) : Instrument :=
  {| instr_name := n; instr_kind := Counter |}.
Definition create_histogram (n : string) : Instrument :=
  {| instr_name := n; instr_kind := Histogram |}.
Definition create_up_down_counter (n : string) : Instrument :=
  {| instr_name := n; instr_kind := UpDownCounter |}.

Definition labels (l : list (string * string)) : Labels := list_to_map l.

Definition series_value (m : gmap Series Z) (s : Series) : Z :=
  default 0 (m !! s).

Definition series_observations (m : gmap Series (list Q)) (s : Series) : list Q :=
  default [] (m !! s).

(** Modelled from the spec: [counter(name).add(delta, labels)] and
    [updown(name).add(delta, labels)]. *)
Definition add (i : Instrument) (delta : Z) (l : Labels) : M unit :=
  modify (fun st =>
    let s := (instr_name i, l) in
    emit (CounterAdd (instr_name i) l delta)
      (set_counters (<[s := series_value (counters st) s + delta]> (counters st)) st)).

(** Modelled from the spec: [histogram(name).record(value, labels)]. *)
Definition record (i : Instrument) (value : Q) (l : Labels) : M unit :=
  modify (fun st =>
    let s := (instr_name i, l) in
    emit (HistogramRecord (instr_name i) l value)
      (set_histograms
         (<[s := (series_observations (histograms st) s ++ [value])%list]>
            (histograms st)) st)).

Definition request_counter : Instrument := create_counter "http_requests_total".
Definition request_duration : Instrument :=
  create_histogram "http_request_duration_seconds".
Definition active_requests : Instrument :=
  create_up_down_counter "http_requests_active".

(** ** Logging with trace context *)

(** The span context [trace.get_current_span().get_span_context()] gives:
    the current span's, or the invalid one (both identifiers zero) when no
    span is current. *)
Definition INVALID_SPAN_CONTEXT : SpanContext := {| trace_id := 0; span_id := 0 |}.

Definition get_current_span_context (st : State) : SpanContext :=
  match current st with
  | Some s => context s
  | None => INVALID_SPAN_CONTEXT
  end.

(** [SpanContext.is_valid]: both identifiers non-zero and within width. *)
Definition is_valid (ctx : SpanContext) : bool :=
  (0 <? trace_id ctx) && (trace_id ctx <=? 2 ^ 128 - 1) &&
  (0 <? span_id ctx) && (span_id ctx <=? 2 ^ 64 - 1).

Record LogRecord := {
  rec_name : string;
  levelno : Z;
  rec_msg : string;
  created : Q;
  extra_data : option Dict
}.

(** The level constants of [logging], as [getattr(logging, NAME)] finds
    them; any other name has no such attribute. *)
Definition logging_level (level_name : string) : option Z :=
  if (level_name =? "CRITICAL")%string then Some 50
  else if (level_name =? "FATAL")%string then Some 50
  else if (level_name =? "ERROR")%string then Some 40
  else if (level_name =? "WARNING")%string then Some 30
  else if (level_name =? "WARN")%string then Some 30
  else if (level_name =? "INFO")%string then Some 20
  else if (level_name =? "DEBUG")%string then Some 10
  else if (level_name =? "NOTSET")%string then Some 0
  else None.

(** [logging.getLevelName] on a number. *)
Definition getLevelName (level : Z) : string :=
  match level with
  | 50 => "CRITICAL"
  | 40 => "ERROR"
  | 30 => "WARNING"
  | 20 => "INFO"
  | 10 => "DEBUG"
  | 0 => "NOTSET"
  | _ => "Level " +:+ pretty level
  end.

(** The entry [TraceContextFormatter.format] builds once it has read the
    span context [ctx]; the dictionary stands for the JSON text
    [json.dumps] makes of it. *)
Definition format_entry (ctx : SpanContext) (r : LogRecord) : Dict :=
  let log_entry :=
    [("timestamp", VTime (created r));
     ("level", VStr (getLevelName (levelno r)));
     ("logger", VStr (rec_name r));
     ("message", VStr (rec_msg r))] in
  let log_entry :=
    if is_valid ctx then
      dict_set "spanID" (VStr (Hex.format_x 16 (span_id ctx)))
        (dict_set "traceID" (VStr (Hex.format_x 32 (trace_id ctx))) log_entry)
    else log_entry in
  match extra_data r with
  | Some extra => dict_update log_entry extra
  | None => log_entry
  end.

(** [TraceContextFormatter.format]. *)
Definition format (st : State) (r : LogRecord) : Dict :=
  format_entry (get_current_span_context st) r.

(** [logger.handle(record)]: the console handler writes the formatted
    line (the OTLP handler hands the record to the exporter). *)
Definition logger_handle (r : LogRecord) : M unit :=
  modify (fun st => emit (LogEmitted (format st r)) st).

Definition log_with_context (message : string) (level : string) (extra : Dict)
    : M unit :=
  match logging_level (upper level) with
  | None =>
      raise {| exc_type := "AttributeError";
               exc_msg := "module 'logging' has no attribute '" +:+ upper level +:+ "'" |}
  | Some lvl =>
      now ← time_time;
      logger_handle {| rec_name := "test-app"; levelno := lvl;
                       rec_msg := message; created := now;
                       extra_data := Some extra |}
  end.

(** [logger.info(msg)]: a record without [extra_data]. *)
Definition logger_info (message : string) : M unit :=
  now ← time_time;
  logger_handle {| rec_name := "test-app"; levelno := 20;
                   rec_msg := message; created := now;
                   extra_data := None |}.

(** ** Request handlers *)

Definition jsonify (d : Dict) : Response := {| body := d; http_status := 200 |}.
Definition with_code (r : Response) (code : Z) : Response :=
  {| body := body r; http_status := code |}.

Definition home : M unit :=
  start ← time_time;
  add active_requests 1 ∅;;
  try_finally
    (log_with_context "Home page requested" "info" [("endpoint", VStr "/")];;
     d ← random_uniform 0.01 0.05;
     time_sleep d;;
     add request_counter 1
       (labels [("endpoint", "/"); ("method", "GET"); ("status", "200")]);;
     return_ (jsonify
       [("message", VStr "Hello from test-app!");
        ("tip", VStr "Check Grafana to see traces, logs, and metrics")]))
    (add active_requests (-1) ∅;;
     now ← time_time;
     record request_duration (now - start)%Q
       (labels [("endpoint", "/"); ("method", "GET")])).

Definition create_order : M unit :=
  start ← time_time;
  add active_requests 1 ∅;;
  try_finally
    (try_except
       (n ← random_randint 1000 9999;
        let order_id := "ORD-" +:+ pretty n in
        log_with_context "Order creation started" "info"
          [("order_id", VStr order_id)];;
        start_as_current_span "validate-order" (fun span =>
          set_attribute span "order.id" (VStr order_id);;
          log_with_context "Validating order" "info"
            [("step", VStr "validation"); ("order_id", VStr order_id)];;
          d ← random_uniform 0.02 0.08;
          time_sleep d;;
          add_event span "validation_complete" [("status", VStr "passed")]);;
        start_as_current_span "check-inventory" (fun span =>
          set_attribute span "order.id" (VStr order_id);;
          items_count ← random_randint 1 5;
          set_attribute span "items.count" (VInt items_count);;
          log_with_context "Checking inventory" "info"
            [("step", VStr "inventory"); ("order_id", VStr order_id);
             ("items", VInt items_count)];;
          d ← random_uniform 0.03 0.1;
          time_sleep d;;
          start_as_current_span "db-query" (fun db_span =>
            set_attribute db_span "db.system" (VStr "postgresql");;
            set_attribute db_span "db.operation" (VStr "SELECT");;
            log_with_context "Executing inventory query" "info"
              [("step", VStr "db_query"); ("order_id", VStr order_id)];;
            d ← random_uniform 0.01 0.03;
            time_sleep d;;
            add_event db_span "query_executed"
              [("rows_returned", VInt items_count)]));;
        start_as_current_span "process-payment" (fun span =>
          amount ← random_uniform 10.0 500.0;
          set_attribute span "payment.amount" (VFloat amount);;
          set_attribute span "payment.currency" (VStr "USD");;
          log_with_context "Processing payment" "info"
            [("step", VStr "payment"); ("order_id", VStr order_id);
             ("amount", VStr ("$" +:+ format_2f amount))];;
          d ← random_uniform 0.05 0.15;
          time_sleep d;;
          u ← random_random;
          (if Qlt_le_dec u 0.1 then
             log_with_context "Payment gateway slow" "warning"
               [("step", VStr "payment"); ("order_id", VStr order_id)];;
             time_sleep 0.2
           else mret tt);;
          txn ← random_randint 10000 99999;
          add_event span "payment_processed"
            [("transaction_id", VStr ("TXN-" +:+ pretty txn))]);;
        log_with_context "Order created successfully" "info"
          [("order_id", VStr order_id); ("status", VStr "completed")];;
        add request_counter 1
          (labels [("endpoint", "/api/orders"); ("method", "POST");
                   ("status", "201")]);;
        return_ (with_code (jsonify
          [("order_id", VStr order_id); ("status", VStr "created");
           ("message", VStr "Order processed successfully")]) 201))
       is_Exception
       (fun e =>
          log_with_context "Order creation failed" "error"
            [("error", VStr (exc_msg e))];;
          add request_counter 1
            (labels [("endpoint", "/api/orders"); ("method", "POST");
                     ("status", "500")]);;
          return_ (with_code (jsonify [("error", VStr (exc_msg e))]) 500)))
    (add active_requests (-1) ∅;;
     now ← time_time;
     record request_duration (now - start)%Q
       (labels [("endpoint", "/api/orders"); ("method", "POST")])).

Definition get_order (order_id : string) : M unit :=
  start ← time_time;
  add active_requests 1 ∅;;
  try_finally
    (log_with_context "Fetching order" "info" [("order_id", VStr order_id)];;
     start_as_current_span "fetch-from-db" (fun span =>
       set_attribute span "db.system" (VStr "postgresql");;
       set_attribute span "order.id" (VStr order_id);;
       log_with_context "Querying database" "info"
         [("order_id", VStr order_id); ("operation", VStr "SELECT")];;
       d ← random_uniform 0.02 0.06;
       time_sleep d;;
       u ← random_random;
       (if Qlt_le_dec u 0.2 then
          set_attribute span "order.found" (VBool false);;
          log_with_context "Order not found" "warning"
            [("order_id", VStr order_id)];;
          add request_counter 1
            (labels [("endpoint", "/api/orders/{id}"); ("method", "GET");
                     ("status", "404")]);;
          return_ (with_code (jsonify [("error", VStr "Order not found")]) 404)
        else mret tt);;
       set_attribute span "order.found" (VBool true));;
     log_with_context "Order retrieved" "info" [("order_id", VStr order_id)];;
     add request_counter 1
       (labels [("endpoint", "/api/orders/{id}"); ("method", "GET");
                ("status", "200")]);;
     items ← random_randint 1 5;
     total ← random_uniform 10 500;
     return_ (jsonify
       [("order_id", VStr order_id); ("status", VStr "completed");
        ("items", VInt items); ("total", VStr ("$" +:+ format_2f total))]))
    (add active_requests (-1) ∅;;
     now ← time_time;
     record request_duration (now - start)%Q
       (labels [("endpoint", "/api/orders/{id}"); ("method", "GET")])).

Definition simulated_error : Exc :=
  {| exc_type := "ValueError"; exc_msg := "Simulated error for demonstration" |}.

(** The block under [with tracer.start_as_current_span("failing-operation")]. *)
Definition failing_operation (span : nat) : M unit :=
  set_attribute span "error" (VBool true);;
  log_with_context "About to raise exception" "error" [];;
  try_except
    (raise simulated_error)
    is_ValueError
    (fun e =>
       record_exception span e;;
       set_status span (Error (exc_msg e));;
       log_with_context "Exception occurred" "error"
         [("error", VStr (exc_msg e)); ("error_type", VStr "ValueError")];;
       raise e).

Definition trigger_error : M unit :=
  start ← time_time;
  add active_requests 1 ∅;;
  try_finally
    (try_except
       (log_with_context "Error endpoint called - this will fail" "warning" [];;
        start_as_current_span "failing-operation" failing_operation)
       is_ValueError
       (fun e =>
          add request_counter 1
            (labels [("endpoint", "/api/error"); ("method", "GET");
                     ("status", "500")]);;
          return_ (with_code (jsonify [("error", VStr (exc_msg e))]) 500)))
    (add active_requests (-1) ∅;;
     now ← time_time;
     record request_duration (now - start)%Q
       (labels [("endpoint", "/api/error"); ("method", "GET")])).

Definition health : M unit :=
  return_ (jsonify [("status", VStr "healthy")]).

(** ** Background emitter *)

Definition operations : list (string * list string) :=
  [("user-login", ["validate-credentials"; "create-session"; "log-audit"]);
   ("data-sync", ["fetch-remote"; "transform-data"; "store-local"]);
   ("report-generation", ["query-data"; "aggregate-results"; "format-output"]);
   ("cache-refresh", ["check-staleness"; "fetch-new-data"; "update-cache"]);
   ("health-check", ["check-db"; "check-cache"; "check-external-api"])].

Definition bg_operations : Instrument :=
  create_counter "background_operations_total".
Definition bg_duration : Instrument :=
  create_histogram "background_operation_duration_seconds".
Definition bg_errors : Instrument :=
  create_counter "background_errors_total".

(** The body of [for child_name in child_spans], from the value of
    [success] before the step to its value after. *)
Definition child_step (operation_name : string) (cycle_count : Z)
    (success : bool) (child_name : string) : M bool :=
  start_as_current_span child_name (fun child_span =>
    set_attribute child_span "step.name" (VStr child_name);;
    work_duration ← random_uniform 0.05 0.2;
    time_sleep work_duration;;
    u ← random_random;
    if Qlt_le_dec u 0.1 then
      set_attribute child_span "error" (VBool true);;
      add_event child_span "error_occurred"
        [("error.type", VStr "SimulatedError");
         ("error.message", VStr ("Random failure in " +:+ child_name))];;
      log_with_context ("Step failed: " +:+ child_name) "error"
        [("operation", VStr operation_name); ("step", VStr child_name);
         ("cycle", VInt cycle_count)];;
      add bg_errors 1
        (labels [("operation", operation_name); ("step", child_name)]);;
      mret false
    else
      add_event child_span "step_completed"
        [("duration_ms", VInt (int_of (work_duration * 1000)))];;
      log_with_context ("Step completed: " +:+ child_name) "info"
        [("operation", VStr operation_name); ("step", VStr child_name);
         ("duration_ms", VInt (int_of (work_duration * 1000)))];;
      mret success).

Fixpoint child_steps (operation_name : string) (cycle_count : Z)
    (success : bool) (child_spans : list string) : M bool :=
  match child_spans with
  | [] => mret success
  | child_name :: rest =>
      success' ← child_step operation_name cycle_count success child_name;
      child_steps operation_name cycle_count success' rest
  end.

(** The span block of one iteration: the root span and all that happens
    while it is open. *)
Definition root_operation (operation_name : string) (child_spans : list string)
    (cycle_count : Z) (start : Q) : M unit :=
  start_as_current_span ("bg-" +:+ operation_name) (fun root_span =>
    set_attribute root_span "operation.type" (VStr "background");;
    set_attribute root_span "operation.cycle" (VInt cycle_count);;
    log_with_context ("Background operation started: " +:+ operation_name) "info"
      [("operation", VStr operation_name); ("cycle", VInt cycle_count)];;
    success ← child_steps operation_name cycle_count true child_spans;
    now ← time_time;
    let duration := (now - start)%Q in
    add bg_operations 1
      (labels [("operation", operation_name);
               ("status", if success : bool then "success" else "failure")]);;
    record bg_duration duration (labels [("operation", operation_name)]);;
    set_attribute root_span "operation.success" (VBool success);;
    set_attribute root_span "operation.duration_ms"
      (VInt (int_of (duration * 1000)));;
    log_with_context ("Background operation completed: " +:+ operation_name) "info"
      [("operation", VStr operation_name); ("success", VBool success);
       ("duration_ms", VInt (int_of (duration * 1000)));
       ("cycle", VInt cycle_count)]).

(** One iteration of [while True], from the value of [cycle_count] before
    it to the value after. *)
Definition emitter_cycle (cycle_count : Z) : M Z :=
  let cycle_count := cycle_count + 1 in
  '(operation_name, child_spans) ← random_choice operations;
  start ← time_time;
  root_operation operation_name child_spans cycle_count start;;
  pause ← random_uniform 3 8;
  time_sleep pause;;
  mret cycle_count.

(** The loop never ends; [cycles] iterations of it. *)
Fixpoint emitter_loop (cycles : nat) (cycle_count : Z) : M Z :=
  match cycles with
  | O => mret cycle_count
  | S cycles' =>
      cycle_count' ← emitter_cycle cycle_count;
      emitter_loop cycles' cycle_count'
  end.

Definition background_mlt_emitter (cycles : nat) : M Z :=
  emitter_loop cycles 0.

(** A new execution context over a given random generator. *)
Definition initial_state (rng : nat -> Z) : State :=
  {| stack := []; next_handle := 0; counters := ∅; histograms := ∅;
     history := []; clock := 0; bits := rng; rng_pos := 0 |}.

(** ** Concurrent writers on the registry *)

Module Concurrent.

(** Modelled from the spec: the accumulators of the metrics registry
    (section 5, "must use atomic or lock-protected update per series") are
    not among the sources.  Every series has a lock; an [add] acquires the
    lock of its series, loads the running sum, stores the sum plus the
    delta and releases the lock, each a step of its own that other writers
    may interleave with. *)
Inductive Phase :=
| Idle
| Locked
| Loaded (v : Z)
| Stored.

(** A writer: the [add] calls it has still to make, the first of them
    being the one in progress when the phase is not [Idle]. *)
Record Writer := { pending : list (Series * Z); phase : Phase }.

Record Registry := {
  locks : gmap Series nat;
  values : gmap Series Z
}.

Definition Config := (Registry * list Writer)%type.

(** One step of writer [i]; [None] when it cannot move (no call left, or
    the lock of its series is taken). *)
Definition step (i : nat) (c : Config) : option Config :=
  let '(reg, ws) := c in
  match ws !! i with
  | None => None
  | Some w =>
      match pending w with
      | [] => None
      | (s, d) :: rest =>
          match phase w with
          | Idle =>
              match locks reg !! s with
              | Some _ => None
              | None =>
                  Some ({| locks := <[s := i]> (locks reg); values := values reg |},
                        <[i := {| pending := pending w; phase := Locked |}]> ws)
              end
          | Locked =>
              Some (reg,
                    <[i := {| pending := pending w;
                              phase := Loaded (series_value (values reg) s) |}]> ws)
          | Loaded v =>
              Some ({| locks := locks reg; values := <[s := v + d]> (values reg) |},
                    <[i := {| pending := pending w; phase := Stored |}]> ws)
          | Stored =>
              Some ({| locks := delete s (locks reg); values := values reg |},
                    <[i := {| pending := rest; phase := Idle |}]> ws)
          end
      end
  end.

(** A schedule names the writer to move at each instant; a writer that
    cannot move waits. *)
Fixpoint run (schedule : list nat) (c : Config) : Config :=
  match schedule with
  | [] => c
  | i :: schedule' =>
      match step i c with
      | Some c' => run schedule' c'
      | None => run schedule' c
      end
  end.

Definition finished (w : Writer) : bool :=
  match pending w, phase w with
  | [], Idle => true
  | _, _ => false
  end.

Definition all_finished (c : Config) : bool := forallb finished c.2.

(** The deltas a list of calls holds for series [s], summed. *)
Fixpoint deltas_for (s : Series) (calls : list (Series * Z)) : Z :=
  match calls with
  | [] => 0
  | (s', d) :: rest =>
      (if bool_decide (s' = s) then d else 0) + deltas_for s rest
  end.

Fixpoint recorded (s : Series) (ws : list Writer) : Z :=
  match ws with
  | [] => 0
  | w :: ws' => deltas_for s (pending w) + recorded s ws'
  end.

Definition idle_writer (calls : list (Series * Z)) : Writer :=
  {| pending := calls; phase := Idle |}.

(** [N] writers about to start, over a registry nobody holds a lock of. *)
Definition start (vals : gmap Series Z) (calls : list (list (Series * Z))) : Config :=
  ({| locks := ∅; values := vals |}, map idle_writer calls).

Definition positive_deltas (calls : list (list (Series * Z))) : Prop :=
  Forall (Forall (fun c => 0 < c.2)) calls.

(** What writer [w] has still to add to series [s]: the deltas of its
    pending calls, less the one it has stored already. *)
Definition owed (s : Series) (w : Writer) : Z :=
  match phase w, pending w with
  | Stored, _ :: rest => deltas_for s rest
  | _, calls => deltas_for s calls
  end.

Fixpoint owed_all (s : Series) (ws : list Writer) : Z :=
  match ws with
  | [] => 0
  | w :: ws' => owed s w + owed_all s ws'
  end.

(** The locks and the phases agree: a writer in the middle of an [add]
    holds the lock of the series of its first pending call, a loaded value
    is the value of that series, and every lock is held by such a writer. *)
Definition coherent (c : Config) : Prop :=
  (forall i w, c.2 !! i = Some w -> phase w <> Idle ->
     exists s d rest, pending w = (s, d) :: rest /\ locks c.1 !! s = Some i) /\
  (forall i w v, c.2 !! i = Some w -> phase w = Loaded v ->
     exists s d rest, pending w = (s, d) :: rest /\
                      v = series_value (values c.1) s) /\
  (forall s i, locks c.1 !! s = Some i ->
     exists w d rest, c.2 !! i = Some w /\ phase w <> Idle /\
                      pending w = (s, d) :: rest).

Definition positive_pending (ws : list Writer) : Prop :=
  Forall (fun w => Forall (fun c : Series * Z => 0 < c.2) (pending w)) ws.

Definition value_of (c : Config) (s : Series) : Z := series_value (values c.1) s.

(** Two writers on the series of the home page, and a schedule that lets
    the second wait for the lock the first holds. *)
Definition home_series : Series :=
  ("http_requests_total", labels [("endpoint", "/"); ("status", "200")]).

Definition two_writers : list (list (Series * Z)) :=
  [[(home_series, 1); (home_series, 2)]; [(home_series, 5)]].

Definition two_writers_schedule : list nat :=
  [0; 1; 0; 1; 0; 0; 1; 0; 1; 1; 1; 0; 0; 0; 0]%nat.

End Concurrent.

(** ** Vocabulary of the properties *)

(** The trace-context fields of a log entry carry the identifiers of
    span [s]. *)
Definition correlated (entry : Dict) (s : Span) : Prop :=
  dict_get "traceID" entry = Some (VStr (Hex.format_x 32 (trace_id (context s)))) /\
  dict_get "spanID" entry = Some (VStr (Hex.format_x 16 (span_id (context s)))).

Definition uncorrelated (entry : Dict) : Prop :=
  dict_has "traceID" entry = false /\ dict_has "spanID" entry = false.

(** A string of exactly [width] hexadecimal digits that reads as [n]. *)
Definition hex_of_width (width : nat) (n : Z) (s : string) : Prop :=
  String.length s = width /\ Hex.all_hex s = true /\ Hex.parse_hex s = Some n.

(** The caller's extra fields leave the trace-context keys alone (a
    record without extra data does so trivially). *)
Definition keeps_trace_keys (extra : option Dict) : Prop :=
  match extra with
  | Some d => dict_has "traceID" d = false /\ dict_has "spanID" d = false
  | None => True
  end.

(** What a log entry must show of the context it was emitted in. *)
Definition stamped (st : State) (entry : Dict) : Prop :=
  match current st with
  | Some s =>
      is_valid (context s) = true ->
      correlated entry s /\
      hex_of_width 32 (trace_id (context s)) (Hex.format_x 32 (trace_id (context s))) /\
      hex_of_width 16 (span_id (context s)) (Hex.format_x 16 (span_id (context s)))
  | None => uncorrelated entry
  end.

(** A context in which one span has been opened. *)
Definition state_in_span : State :=
  (open_span "work" (initial_state (fun _ => 41))).2.

(** A context in which the span of the error endpoint has been opened. *)
Definition state_failing : State :=
  (open_span "failing-operation" (initial_state (fun _ => 41))).2.

(** Every open span of the context belongs to one trace. *)
Definition one_trace (l : list Span) : Prop :=
  forall s1 s2, In s1 l -> In s2 l ->
    trace_id (context s1) = trace_id (context s2).

(** The sealed spans among what was emitted, oldest first. *)
Fixpoint exported (l : list Emission) : list Span :=
  match l with
  | [] => []
  | SpanExported s :: l' => s :: exported l'
  | _ :: l' => exported l'
  end.

(** How many times the span with handle [h] has been closed. *)
Definition times_closed (h : nat) (st : State) : nat :=
  length (filter (fun s => handle s = h) (exported (history st))).

Definition open_handles (st : State) : list nat := map handle (stack st).

Definition has_exception_event (e : Exc) (s : Span) : Prop :=
  exists t, In {| event_name := "exception"; event_time := t;
                  event_attributes := exception_event e |} (events s).



(** The routes of the instrumented endpoints. *)
Inductive Endpoint :=
| Home
| CreateOrder
| GetOrder (order_id : string)
| TriggerError.

Definition dispatch (e : Endpoint) : M unit :=
  match e with
  | Home => home
  | CreateOrder => create_order
  | GetOrder order_id => get_order order_id
  | TriggerError => trigger_error
  end.

Definition active_series : Series := ("http_requests_active", ∅).

Definition touches_active (e : Emission) : bool :=
  match e with
  | CounterAdd n _ _ => (n =? "http_requests_active")%string
  | _ => false
  end.

(** A computation that only adds emissions, none of them an update of
    [http_requests_active], and leaves that series at its value. *)
Definition leaves_active {A} (m : M A) : Prop :=
  forall st, exists evs,
    history (m st).2 = history st ++ evs /\
    forallb (fun ev => negb (touches_active ev)) evs = true /\
    series_value (counters (m st).2) active_series =
      series_value (counters st) active_series.

(** Whether the draw [random.random()] is made of falls under the failure
    threshold of a step, [random.random() < 0.1]. *)
Definition draw_fails (d : Z) : bool :=
  if Qlt_le_dec (unit_draw d) 0.1 then true else false.

(** What one child step leaves behind, told from the state [st] it starts
    in: the draws it makes, the span it exports, the line it logs and the
    state it ends in. *)
Section StepReport.
Variables (operation_name : string) (cycle_count : Z) (child_name : string).
Variable st : State.
Variable root : SpanContext.

Definition step_work : Q :=
  (0.05 + (0.2 - 0.05) * unit_draw (bits st (S (rng_pos st))))%Q.

Definition step_failed : bool := draw_fails (bits st (S (S (rng_pos st)))).

Definition step_end : Q := (clock st + step_work)%Q.

Definition step_context : SpanContext :=
  {| trace_id := trace_id root;
     span_id := 1 + bits st (rng_pos st) mod (2 ^ 64 - 1) |}.

Definition step_span : Span :=
  {| handle := next_handle st;
     name := child_name;
     context := step_context;
     parent_span_id := Some (span_id root);
     start_time := clock st;
     end_time := Some step_end;
     attributes :=
       if step_failed
       then [("step.name", VStr child_name); ("error", VBool true)]
       else [("step.name", VStr child_name)];
     events :=
       if step_failed
       then [{| event_name := "error_occurred"; event_time := step_end;
                event_attributes :=
                  [("error.type", VStr "SimulatedError");
                   ("error.message",
                    VStr ("Random failure in " +:+ child_name))] |}]
       else [{| event_name := "step_completed"; event_time := step_end;
                event_attributes :=
                  [("duration_ms", VInt (int_of (step_work * 1000)))] |}];
     status := Unset |}.

Definition step_log : Dict :=
  format_entry step_context
    (if step_failed
     then {| rec_name := "test-app"; levelno := 40;
             rec_msg := "Step failed: " +:+ child_name;
             created := step_end;
             extra_data := Some [("operation", VStr operation_name);
                                 ("step", VStr child_name);
                                 ("cycle", VInt cycle_count)] |}
     else {| rec_name := "test-app"; levelno := 20;
             rec_msg := "Step completed: " +:+ child_name;
             created := step_end;
             extra_data := Some [("operation", VStr operation_name);
                                 ("step", VStr child_name);
                                 ("duration_ms",
                                  VInt (int_of (step_work * 1000)))] |}).

Definition step_error_labels : Labels :=
  labels [("operation", operation_name); ("step", child_name)].

Definition step_emissions : list Emission :=
  [Slept step_work; LogEmitted step_log] ++
  (if step_failed
   then [CounterAdd "background_errors_total" step_error_labels 1]
   else []) ++
  [SpanExported step_span].

Definition after_step : State :=
  {| stack := stack st;
     next_handle := S (next_handle st);
     counters :=
       if step_failed
       then <[("background_errors_total", step_error_labels) :=
                series_value (counters st)
                  ("background_errors_total", step_error_labels) + 1]>
              (counters st)
       else counters st;
     histograms := histograms st;
     history := history st ++ step_emissions;
     clock := step_end;
     bits := bits st;
     rng_pos := S (S (S (rng_pos st))) |}.
End StepReport.

(** The draws of [n] consecutive child steps, the first starting at
    position [pos] of the generator: whether each step succeeds. *)
Fixpoint step_successes (rng : nat -> Z) (pos : nat) (n : nat) : list bool :=
  match n with
  | O => []
  | S n' =>
      negb (draw_fails (rng (S (S pos)))) ::
      step_successes rng (S (S (S pos))) n'
  end.

Definition all_true (l : list bool) : bool := forallb (fun b => b) l.

Definition child_of (root : SpanContext) (s : Span) : Prop :=
  parent_span_id s = Some (span_id root) /\
  trace_id (context s) = trace_id root.

(** What the child steps under [root] may emit. *)
Definition step_emission (root : SpanContext) (e : Emission) : Prop :=
  match e with
  | SpanExported s => child_of root s
  | CounterAdd n _ _ => n = "background_errors_total"
  | LogEmitted _ => True
  | Slept _ => True
  | _ => False
  end.

Definition is_add (instrument : string) (e : Emission) : bool :=
  match e with
  | CounterAdd n _ _ => (n =? instrument)%string
  | _ => false
  end.

Definition is_observation (instrument : string) (e : Emission) : bool :=
  match e with
  | HistogramRecord n _ _ => (n =? instrument)%string
  | _ => false
  end.

Fixpoint count_where (p : Emission -> bool) (l : list Emission) : nat :=
  match l with
  | [] => O
  | e :: l' => ((if p e then 1 else 0) + count_where p l')%nat
  end.

(** The catalog entry [random.choice(operations)] picks in state [st]. *)
Definition cycle_pick (st : State) : string * list string :=
  nth (Z.to_nat (bits st (rng_pos st) mod Z.of_nat (length operations)))
    operations
    ("user-login", ["validate-credentials"; "create-session"; "log-audit"]).

(** Whether each child step of the cycle that starts in [st] succeeds:
    the pick, the trace id and the span id of the root take the first
    three draws. *)
Definition cycle_successes (st : State) : list bool :=
  step_successes (bits st) (S (S (S (rng_pos st)))) (length (cycle_pick st).2).

Definition outcome_series (st : State) : Series :=
  ("background_operations_total",
   labels [("operation", (cycle_pick st).1);
           ("status", if all_true (cycle_successes st) then "success" else "failure")]).

Definition duration_series (st : State) : Series :=
  ("background_operation_duration_seconds",
   labels [("operation", (cycle_pick st).1)]).

(** The spans without a parent among [l]. *)
Definition root_spans (l : list Span) : list Span :=
  List.filter (fun s => match parent_span_id s with None => true | Some _ => false end) l.

Definition cycle_number (s : Span) : option Value :=
  dict_get "operation.cycle" (attributes s).

(** ** Vocabulary of the further properties *)

(** The keys of a dictionary, in the order [json.dumps] writes them. *)
Definition keys (d : Dict) : list string := map fst d.

(** The keys the formatter writes itself, before the extra fields. *)
Definition own_keys (ctx : SpanContext) : list string :=
  ["timestamp"; "level"; "logger"; "message"] ++
  (if is_valid ctx then ["traceID"; "spanID"] else []).


(** A record whose extra fields use a key of the formatter. *)
Definition record_with_own_key : LogRecord :=
  {| rec_name := "test-app"; levelno := 20; rec_msg := "theirs"; created := 0;
     extra_data := Some [("order_id", VStr "ORD-1234"); ("message", VStr "mine")] |}.

(** The increments of [http_requests_total] among some emissions: the
    status label and the delta of each. *)
Fixpoint counted (l : list Emission) : list (option string * Z) :=
  match l with
  | [] => []
  | CounterAdd n lbls delta :: l' =>
      if (n =? "http_requests_total")%string
      then (lbls !! "status", delta) :: counted l'
      else counted l'
  | _ :: l' => counted l'
  end.

(** A computation that always completes normally and counts no request. *)
Definition silent {A} (m : M A) : Prop :=
  forall st, exists a evs,
    (m st).1 = Normal a /\
    history (m st).2 = history st ++ evs /\ counted evs = [].

(** How a computation may end and what it has counted by then: it
    completes normally (only when [normal] allows it) or raises an
    exception of [E], having counted no request, or it returns a response
    whose status is among [codes], having counted one request under that
    status. *)
Definition accounts {A} (normal : bool) (E : Exc -> Prop) (codes : list Z)
    (m : M A) : Prop :=
  forall st, exists evs,
    history (m st).2 = history st ++ evs /\
    match (m st).1 with
    | Normal _ => normal = true /\ counted evs = []
    | Return r =>
        counted evs = [(Some (pretty (http_status r)), 1)] /\
        In (http_status r) codes
    | Raise e => E e /\ counted evs = []
    end.

(** What may follow the increment under status [code]: no further
    count, no exception, and a response of that status. *)
Definition settles {A} (code : Z) (normal : bool) (m : M A) : Prop :=
  forall st, exists evs,
    history (m st).2 = history st ++ evs /\ counted evs = [] /\
    match (m st).1 with
    | Normal _ => normal = true
    | Return r => http_status r = code
    | Raise _ => False
    end.

(** The statuses an endpoint answers with. *)
Definition answers (e : Endpoint) : list Z :=
  match e with
  | Home => [200]
  | CreateOrder => [201; 500]
  | GetOrder _ => [200; 404]
  | TriggerError => [500]
  end.

(** A span by its name, with the spans opened while it is current. *)
#[warnings="-register-all"]
Inductive SpanTree := SpanNode (span_name : string) (inner : list SpanTree).

(** The [with tracer.start_as_current_span(...)] blocks of each handler,
    as they are nested in its text. *)
Definition span_forest (e : Endpoint) : list SpanTree :=
  match e with
  | Home => []
  | CreateOrder =>
      [SpanNode "validate-order" [];
       SpanNode "check-inventory" [SpanNode "db-query" []];
       SpanNode "process-payment" []]
  | GetOrder _ => [SpanNode "fetch-from-db" []]
  | TriggerError => [SpanNode "failing-operation" []]
  end.

(** [hangs p f l]: the exported spans [l], oldest first, are the spans of
    the forest [f] opened under the context [p].  Each tree is one sealed
    span of that name whose parent is [p] (none when [p] is absent) and
    whose trace is [p]'s; the spans of its inner trees hang under it and
    are exported before it. *)
Inductive hangs : option SpanContext -> list SpanTree -> list Span -> Prop :=
| hangs_nil p : hangs p [] []
| hangs_cons p n inner f s li lf :
    name s = n ->
    parent_span_id s = span_id <$> p ->
    (forall c, p = Some c -> trace_id (context s) = trace_id c) ->
    end_time s <> None ->
    hangs (Some (context s)) inner li ->
    hangs p f lf ->
    hangs p (SpanNode n inner :: f) (li ++ s :: lf).

(** The usage errors the tracer reported among some emissions. *)
Fixpoint misuse (l : list Emission) : list string :=
  match l with
  | [] => []
  | UsageError what :: l' => what :: misuse l'
  | _ :: l' => misuse l'
  end.

(** What of a span stays for good once it is opened. *)
Definition frame (s : Span) : nat * string * SpanContext * option Z :=
  (handle s, name s, context s, parent_span_id s).

(** The span the running block may change is the current one. *)
Definition on_top (cur : option nat) (st : State) : Prop :=
  match cur with
  | None => True
  | Some h => head (open_handles st) = Some h
  end.

(** The stack is as it was, but for what was set on the current span when
    the block may change it. *)
Definition kept (cur : option nat) (st st' : State) : Prop :=
  match cur with
  | None => stack st' = stack st
  | Some _ =>
      map frame (stack st') = map frame (stack st) /\
      tail (stack st') = tail (stack st)
  end.

(** A block of a handler, run with the span [cur] of the enclosing [with]
    current (none outside every [with]): it keeps the stack, the tracer
    reports no misuse, and the spans exported meanwhile are the forest [f]
    under the span current at the start.  With [quiet] the block always
    runs to its end. *)
Definition traced {A} (quiet : bool) (cur : option nat) (f : list SpanTree)
    (m : M A) : Prop :=
  forall st, on_top cur st ->
    kept cur st (m st).2 /\
    (quiet = true -> exists a, (m st).1 = Normal a) /\
    exists evs,
      history (m st).2 = history st ++ evs /\
      misuse evs = [] /\
      hangs (context <$> current st) f (exported evs).

(** A call that runs to its end and involves no span. *)
Definition plain {A} (m : M A) : Prop :=
  forall st, exists a evs,
    (m st).1 = Normal a /\
    stack (m st).2 = stack st /\
    history (m st).2 = history st ++ evs /\
    misuse evs = [] /\ exported evs = [].

(** The observations of the histogram [instrument] among some emissions,
    oldest first: the labels and the value of each. *)
Fixpoint observations (instrument : string) (l : list Emission) : list (Labels * Q) :=
  match l with
  | [] => []
  | HistogramRecord n lbls v :: l' =>
      if (n =? instrument)%string
      then (lbls, v) :: observations instrument l'
      else observations instrument l'
  | _ :: l' => observations instrument l'
  end.

(** A call that runs to its end, takes no time and records nothing in the
    histogram [instrument]. *)
Definition instant {A} (instrument : string) (m : M A) : Prop :=
  forall st, exists a evs,
    (m st).1 = Normal a /\
    clock (m st).2 = clock st /\
    history (m st).2 = history st ++ evs /\
    observations instrument evs = [].

(** The time a block takes at least.  The clock never goes back and the
    histogram [instrument] is not written; a block that runs to its end
    has taken [lo] or more; a block that returns a response of status [s],
    [acc] being the time already taken before it, has made the total
    [least s] or more. *)
Definition paced {A} (instrument : string) (acc lo : Q) (least : Z -> Q)
    (m : M A) : Prop :=
  forall st, exists evs,
    history (m st).2 = history st ++ evs /\
    observations instrument evs = [] /\
    (clock st <= clock (m st).2)%Q /\
    match (m st).1 with
    | Normal _ => (clock st + lo <= clock (m st).2)%Q
    | Return r => (clock st + least (http_status r) <= clock (m st).2 + acc)%Q
    | Raise _ => True
    end.

(** The labels of the duration histogram, per route. *)
Definition route (e : Endpoint) : Labels :=
  match e with
  | Home => labels [("endpoint", "/"); ("method", "GET")]
  | CreateOrder => labels [("endpoint", "/api/orders"); ("method", "POST")]
  | GetOrder _ => labels [("endpoint", "/api/orders/{id}"); ("method", "GET")]
  | TriggerError => labels [("endpoint", "/api/error"); ("method", "GET")]
  end.

(** The sum of the least sleeps on the way to a response of status [s]. *)
Definition least_time (e : Endpoint) (s : Z) : Q :=
  match e with
  | Home => 0.01
  | CreateOrder => if s =? 201 then 0.02 + 0.03 + 0.01 + 0.05 else 0
  | GetOrder _ => 0.02
  | TriggerError => 0
  end.

(** The increments of the counter [instrument] among some emissions,
    oldest first: the labels and the delta of each. *)
Fixpoint additions (instrument : string) (l : list Emission) : list (Labels * Z) :=
  match l with
  | [] => []
  | CounterAdd n lbls delta :: l' =>
      if (n =? instrument)%string
      then (lbls, delta) :: additions instrument l'
      else additions instrument l'
  | _ :: l' => additions instrument l'
  end.

(** The lines logged among some emissions, oldest first. *)
Fixpoint logged (l : list Emission) : list Dict :=
  match l with
  | [] => []
  | LogEmitted entry :: l' => entry :: logged l'
  | _ :: l' => logged l'
  end.

(** The steps among [children] that did not succeed. *)
Fixpoint failed_steps (children : list string) (ok : list bool) : list string :=
  match children, ok with
  | child :: children', b :: ok' =>
      if b then failed_steps children' ok' else child :: failed_steps children' ok'
  | _, _ => []
  end.

(** The entry carries the trace id [t]. *)
Definition in_trace (t : Z) (entry : Dict) : Prop :=
  dict_get "traceID" entry = Some (VStr (Hex.format_x 32 t)).

(** One increment of [background_errors_total] per failed step. *)
Definition error_counts (operation_name : string) (failed : list string)
    : list (Labels * Z) :=
  map (fun child =>
         (labels [("operation", operation_name); ("step", child)], 1)) failed.

(** The least time between the starts of two cycles of the emitter, in
    seconds: three steps of 0.05 s or more and a pause of 3 s or more. *)
Definition cycle_period : Q := 3 * 0.05 + 3.


(** The draw that decides whether the order is found: the identifiers of
    the span take the draws before it (two on an empty stack, where a
    trace id is drawn too, else one), the sleep takes one more. *)
Definition lookup_draw (st : State) : Q :=
  unit_draw (bits st (rng_pos st + match stack st with [] => 3 | _ => 2 end)%nat).

(** The entry carries the order id. *)
Definition names_order (order_id : string) (entry : Dict) : Prop :=
  dict_get "order_id" entry = Some (VStr order_id).

(** A call that runs to its end and logs nothing. *)
Definition wordless {A} (m : M A) : Prop :=
  forall st, exists a evs,
    (m st).1 = Normal a /\
    history (m st).2 = history st ++ evs /\
    logged evs = [].

(** A block that always answers with a response for which [G] holds:
    the way out of a request that failed. *)
Definition gives_up {A} (G : Response -> Prop) (m : M A) : Prop :=
  forall st, exists r evs,
    (m st).1 = Return r /\ G r /\ history (m st).2 = history st ++ evs.

(** Every line a block logs from the state [st] on satisfies [P], and a
    response it returns satisfies [R], unless the response is one of those
    for which [G] holds, about which nothing is said. *)
Definition tagged_at {A} (P : Dict -> Prop) (R G : Response -> Prop) (m : M A)
    (st : State) : Prop :=
  exists evs,
    history (m st).2 = history st ++ evs /\
    match (m st).1 with
    | Return r => G r \/ (R r /\ Forall P (logged evs))
    | _ => Forall P (logged evs)
    end.

Definition tagged {A} (P : Dict -> Prop) (R G : Response -> Prop) (m : M A) : Prop :=
  forall st, tagged_at P R G m st.

(** The order id made of the draw of [random.randint(1000, 9999)]. *)
Definition order_number (st : State) : Z :=
  1000 + bits st (rng_pos st) mod (9999 - 1000 + 1).

(** The response to an order that was created, for the order id [oid]. *)
Definition created_response (oid : string) (r : Response) : Prop :=
  http_status r = 201 /\
  dict_get "order_id" (body r) = Some (VStr oid) /\
  dict_get "status" (body r) = Some (VStr "created").

(** The event [record_exception] puts on a span for the exception [e]. *)
Definition records (e : Exc) (ev : SpanEvent) : Prop :=
  event_name ev = "exception" /\ event_attributes ev = exception_event e.

(** * Properties *)

(** ** Fixed-width hexadecimal identifiers *)

Module HexFacts.
Import Hex.

Lemma digit_value_hex_digit d :
  0 <= d < 16 -> digit_value (hex_digit d) = Some d.
Proof.
  intros Hd.
  assert (H : d = 0 \/ d = 1 \/ d = 2 \/ d = 3 \/ d = 4 \/ d = 5 \/ d = 6 \/ d = 7 \/
              d = 8 \/ d = 9 \/ d = 10 \/ d = 11 \/ d = 12 \/ d = 13 \/ d = 14 \/ d = 15) by lia.
  repeat (destruct H as [-> | H]; [reflexivity |]). subst d. reflexivity.
Qed.

Lemma app_string_cons c (s t : string) : String c s +:+ t = String c (s +:+ t).
Proof. reflexivity. Qed.

Lemma app_string_nil (t : string) : "" +:+ t = t.
Proof. reflexivity. Qed.

Ltac string_simpl := rewrite ?app_string_cons, ?app_string_nil; simpl.

Lemma length_app_string (s t : string) :
  String.length (s +:+ t) = (String.length s + String.length t)%nat.
Proof. induction s as [| c s IH]; string_simpl; [reflexivity | now rewrite IH]. Qed.

Lemma all_hex_app (s t : string) :
  all_hex (s +:+ t) = all_hex s && all_hex t.
Proof.
  induction s as [| c s IH]; string_simpl; [reflexivity |].
  rewrite IH. now rewrite andb_assoc.
Qed.

Lemma app_string_assoc (s t u : string) : (s +:+ t) +:+ u = s +:+ (t +:+ u).
Proof. induction s as [| c s IH]; string_simpl; [reflexivity | f_equal; exact IH]. Qed.

Lemma app_string_empty (s : string) : s +:+ "" = s.
Proof. induction s as [| c s IH]; string_simpl; [reflexivity | f_equal; exact IH]. Qed.

Lemma parse_hex_from_app (s t : string) a b :
  parse_hex_from a s = Some b ->
  parse_hex_from a (s +:+ t) = parse_hex_from b t.
Proof.
  revert a. induction s as [| c s IH]; string_simpl; intros a H.
  - now inversion H.
  - destruct (digit_value c); [now apply IH | discriminate].
Qed.

(** What [hex_digits] puts in front of the accumulator. *)
Lemma hex_digits_spec fuel : forall n acc,
  0 <= n < 16 ^ Z.of_nat fuel ->
  exists pre,
    hex_digits fuel n acc = pre +:+ acc /\
    all_hex pre = true /\
    (forall k : nat, (1 <= k)%nat -> n < 16 ^ Z.of_nat k -> (String.length pre <= k)%nat) /\
    (forall a, parse_hex_from a pre = Some (a * 16 ^ Z.of_nat (String.length pre) + n)).
Proof.
  induction fuel as [| fuel IH]; intros n acc Hn.
  - exists "". simpl in *. repeat split; try lia. intros a. f_equal. lia.
  - cbn [hex_digits].
    assert (Hmod : 0 <= n mod 16 < 16) by (apply Z.mod_pos_bound; lia).
    destruct (Z.eqb_spec (n / 16) 0) as [Hq | Hq].
    + exists (String (hex_digit (n mod 16)) ""). string_simpl.
      unfold is_hex_digit. rewrite digit_value_hex_digit by lia.
      repeat split; try lia.
      intros a. f_equal.
      pose proof (Z.div_mod n 16). lia.
    + assert (Hn' : 0 <= n / 16 < 16 ^ Z.of_nat fuel).
      { split; [apply Z.div_pos; lia |].
        apply Z.div_lt_upper_bound; [lia |].
        rewrite Nat2Z.inj_succ, Z.pow_succ_r in Hn by lia. lia. }
      destruct (IH (n / 16) (String (hex_digit (n mod 16)) acc) Hn')
        as (pre & Heq & Hall & Hlen & Hparse).
      exists (pre +:+ String (hex_digit (n mod 16)) "").
      rewrite Heq, app_string_assoc. string_simpl.
      rewrite all_hex_app, Hall. simpl. unfold is_hex_digit.
      rewrite digit_value_hex_digit by lia.
      repeat split.
      * intros k Hk Hlt. rewrite length_app_string. simpl.
        assert (Hpos : 0 < n / 16) by (pose proof (Z.div_pos n 16); lia).
        destruct k as [| [| k]]; [lia | |].
        -- simpl in Hlt. assert (n / 16 = 0) by (apply Z.div_small; lia). lia.
        -- assert ((String.length pre <= S k)%nat); [| lia].
           apply Hlen; [lia |].
           apply Z.div_lt_upper_bound; [lia |].
           rewrite (Nat2Z.inj_succ (S k)), Z.pow_succ_r in Hlt by lia. lia.
      * intros a. rewrite (parse_hex_from_app _ _ _ _ (Hparse a)). simpl.
        rewrite digit_value_hex_digit by lia. f_equal.
        rewrite length_app_string. simpl.
        rewrite Nat2Z.inj_add, Z.pow_add_r by lia.
        pose proof (Z.div_mod n 16). change (Z.of_nat 1) with 1. lia.
Qed.

Lemma to_hex_spec n :
  0 <= n ->
  all_hex (to_hex n) = true /\
  (forall k : nat, (1 <= k)%nat -> n < 16 ^ Z.of_nat k -> (String.length (to_hex n) <= k)%nat) /\
  parse_hex (to_hex n) = Some n.
Proof.
  intros Hn. unfold to_hex.
  assert (Hfuel : 0 <= n < 16 ^ Z.of_nat (S (Z.to_nat (Z.log2 n)))).
  { split; [lia |].
    rewrite Nat2Z.inj_succ, Z2Nat.id by apply Z.log2_nonneg.
    destruct (Z.eq_dec n 0) as [-> | Hnz]; [simpl; lia |].
    pose proof (Z.log2_spec n ltac:(lia)) as [_ Hup].
    eapply Z.lt_le_trans; [exact Hup |].
    pose proof (Z.log2_nonneg n).
    change 16 with (2 ^ 4). rewrite <- Z.pow_mul_r by lia.
    apply Z.pow_le_mono_r; lia. }
  destruct (hex_digits_spec _ n "" Hfuel) as (pre & Heq & Hall & Hlen & Hparse).
  rewrite Heq, app_string_empty. repeat split; try assumption.
  unfold parse_hex. rewrite Hparse. f_equal; lia.
Qed.

Lemma length_zeros k : String.length (zeros k) = k.
Proof. induction k; simpl; congruence. Qed.

Lemma all_hex_zeros k : all_hex (zeros k) = true.
Proof. induction k; simpl; auto. Qed.

Lemma parse_hex_zeros k s : parse_hex (zeros k +:+ s) = parse_hex s.
Proof. unfold parse_hex. induction k; string_simpl; auto. Qed.

(** A value that fits comes out at exactly the width asked for, in
    hexadecimal digits that read back as the value. *)
Lemma format_x_fits (width : nat) (n : Z) :
  (1 <= width)%nat -> 0 <= n < 16 ^ Z.of_nat width ->
  String.length (format_x width n) = width /\
  all_hex (format_x width n) = true /\
  parse_hex (format_x width n) = Some n.
Proof.
  intros Hw Hn. unfold format_x.
  destruct (Z.ltb_spec n 0) as [Hneg | _]; [lia |].
  destruct (to_hex_spec n ltac:(lia)) as (Hall & Hlen & Hparse).
  specialize (Hlen width Hw ltac:(lia)).
  rewrite length_app_string, length_zeros, all_hex_app, all_hex_zeros,
    parse_hex_zeros, Hall, Hparse.
  repeat split. lia.
Qed.

End HexFacts.

(** ** Log entries and their trace context *)

Section Dicts.

Lemma dict_get_set_eq k v d : dict_get k (dict_set k v d) = Some v.
Proof.
  induction d as [| [k' v'] d IH]; simpl.
  - now rewrite String.eqb_refl.
  - destruct (String.eqb_spec k' k) as [-> | Hne]; simpl.
    + now rewrite String.eqb_refl.
    + apply String.eqb_neq in Hne. now rewrite Hne.
Qed.

Lemma dict_get_set_ne k k' v d : k' <> k -> dict_get k (dict_set k' v d) = dict_get k d.
Proof.
  intros Hne. induction d as [| [k0 v0] d IH]; simpl.
  - apply String.eqb_neq in Hne. now rewrite Hne.
  - destruct (String.eqb_spec k0 k') as [-> | Hne0]; simpl.
    + apply String.eqb_neq in Hne. now rewrite Hne.
    + now rewrite IH.
Qed.

Lemma dict_has_cons k k' v d :
  dict_has k ((k', v) :: d) = false -> k' <> k /\ dict_has k d = false.
Proof.
  unfold dict_has. simpl. destruct (String.eqb_spec k' k); [discriminate | auto].
Qed.

(** Keys the update does not mention keep their value. *)
Lemma dict_get_update k d extra :
  dict_has k extra = false -> dict_get k (dict_update d extra) = dict_get k d.
Proof.
  unfold dict_update. revert d.
  induction extra as [| [k' v'] extra IH]; intros d H; simpl; [reflexivity |].
  apply dict_has_cons in H as [Hne H].
  rewrite IH by assumption. now apply dict_get_set_ne.
Qed.

End Dicts.

Lemma is_valid_bounds ctx :
  is_valid ctx = true <->
  (0 < trace_id ctx < 2 ^ 128) /\ (0 < span_id ctx < 2 ^ 64).
Proof.
  unfold is_valid. rewrite !andb_true_iff, !Z.ltb_lt, !Z.leb_le. lia.
Qed.

(** What the formatter writes for a record whose extra data leave the
    trace-context keys alone. *)
Lemma format_trace_context st r :
  keeps_trace_keys (extra_data r) -> stamped st (format st r).
Proof.
  intros Hkeys. unfold stamped, format, format_entry, get_current_span_context.
  assert (Hget : forall k d, (k = "traceID" \/ k = "spanID") ->
            dict_get k (match extra_data r with
                        | Some extra => dict_update d extra
                        | None => d
                        end) = dict_get k d).
  { intros k d Hk. destruct (extra_data r) as [extra |]; [| reflexivity].
    destruct Hkeys as [Ht Hs]. apply dict_get_update.
    destruct Hk as [-> | ->]; assumption. }
  destruct (current st) as [s |].
  - intros Hvalid. rewrite Hvalid.
    apply is_valid_bounds in Hvalid as [Htid Hsid].
    split; [| split].
    + split; rewrite Hget by auto; reflexivity.
    + apply HexFacts.format_x_fits; [lia |]. change (16 ^ Z.of_nat 32) with (2 ^ 128). lia.
    + apply HexFacts.format_x_fits; [lia |]. change (16 ^ Z.of_nat 16) with (2 ^ 64). lia.
  - change (is_valid INVALID_SPAN_CONTEXT) with false. cbv iota.
    split; unfold dict_has; rewrite Hget by auto; reflexivity.
Qed.

Lemma log_with_context_handles message level extra lvl st :
  logging_level (upper level) = Some lvl ->
  log_with_context message level extra st =
  logger_handle {| rec_name := "test-app"; levelno := lvl; rec_msg := message;
                   created := clock st; extra_data := Some extra |} st.
Proof. intros H. unfold log_with_context. rewrite H. reflexivity. Qed.

(** C1 (as amended): a log emission whose extra fields do not use the keys
    [traceID] and [spanID] carries, while a span with valid identifiers is
    current, that span's trace id as exactly 32 and its span id as exactly
    16 hexadecimal digits; while no span is open it carries neither field;
    in both cases the emission completes without raising.  This holds for
    records handled directly and for [log_with_context] at every level
    name [logging] knows. *)
Theorem log_emission_trace_context (st : State) :
  (forall r, keeps_trace_keys (extra_data r) ->
     exists entry,
       logger_handle r st = (Normal tt, emit (LogEmitted entry) st) /\
       stamped st entry) /\
  (forall message level extra lvl,
     logging_level (upper level) = Some lvl ->
     keeps_trace_keys (Some extra) ->
     exists entry,
       log_with_context message level extra st =
         (Normal tt, emit (LogEmitted entry) st) /\
       stamped st entry).
Proof.
  split.
  - intros r Hkeys. exists (format st r). split; [reflexivity |].
    now apply format_trace_context.
  - intros message level extra lvl Hlvl Hkeys.
    rewrite (log_with_context_handles _ _ _ _ _ Hlvl).
    eexists. split; [reflexivity |].
    now apply format_trace_context.
Qed.

Lemma log_emission_trace_context_witness :
  logging_level (upper "warning") = Some 30 /\
  keeps_trace_keys (Some [("order_id", VStr "ORD-1")]) /\
  exists entry,
    log_with_context "Order not found" "warning" [("order_id", VStr "ORD-1")]
      state_in_span = (Normal tt, emit (LogEmitted entry) state_in_span) /\
    stamped state_in_span entry.
Proof.
  split; [reflexivity |]. split; [split; reflexivity |].
  apply (proj2 (log_emission_trace_context state_in_span)
           "Order not found" "warning" [("order_id", VStr "ORD-1")] 30).
  - reflexivity.
  - split; reflexivity.
Defined.

(** C1 as stated fails: the extra fields are merged into the entry last,
    so a caller that passes [traceID] puts that field into an entry emitted
    while no span is open, and replaces the current span's trace id in an
    entry emitted while one is. *)
Lemma extra_fields_shadow_trace_context :
  (current (initial_state (fun _ => 41)) = None /\
   exists entry,
     log_with_context "x" "info" [("traceID", VStr "from-the-caller")]
       (initial_state (fun _ => 41)) =
       (Normal tt, emit (LogEmitted entry) (initial_state (fun _ => 41))) /\
     ~ uncorrelated entry) /\
  (exists s,
     current state_in_span = Some s /\ is_valid (context s) = true /\
     exists entry,
       log_with_context "x" "info" [("traceID", VStr "from-the-caller")]
         state_in_span =
         (Normal tt, emit (LogEmitted entry) state_in_span) /\
       ~ correlated entry s).
Proof.
  split.
  - split; [reflexivity |]. eexists. split; [reflexivity |].
    intros [H _]. vm_compute in H. discriminate.
  - eexists. split; [reflexivity |]. split; [reflexivity |].
    eexists. split; [reflexivity |].
    intros [H _]. vm_compute in H. discriminate.
Qed.

(** ** Running the model on a symbolic state *)

Ltac eval_levels :=
  repeat match goal with
  | |- context [logging_level (upper ?s)] =>
      let v := eval vm_compute in (logging_level (upper s)) in
      progress change (logging_level (upper s)) with v
  | |- context [is_ValueError ?e] =>
      let v := eval vm_compute in (is_ValueError e) in
      progress change (is_ValueError e) with v
  end.

Ltac unfold_run :=
  unfold start_as_current_span, open_span, close_span, log_with_context,
    logger_info, logger_handle, time_time, time_sleep, add, record, add_event,
    record_exception, set_status, set_attribute, mutate_span, generate_id,
    random_uniform, random_randint, random_random, next_draw, current,
    mbind, mret, M_bind, M_ret, bind, ret, raise, return_, get_state, modify,
    try_finally, try_except, format, get_current_span_context.

Ltac run_cbn :=
  cbn [stack next_handle counters histograms history clock bits rng_pos
       set_stack set_next_handle set_counters set_histograms emit set_clock
       set_rng_pos update_span head fmap option_fmap option_map
       handle name context parent_span_id start_time end_time attributes
       events status seal with_attribute with_event with_status
       trace_id span_id exc_type exc_msg fst snd
       is_Exception
       instr_name active_requests request_counter request_duration
       create_counter create_histogram create_up_down_counter].

Ltac run :=
  repeat (progress (unfold_run; eval_levels; run_cbn; rewrite ?Nat.eqb_refl)).

(** ** The tracer *)

(** C2: a span opened while span [p] is current has [p]'s span id as its
    parent and [p]'s trace id; a span opened on an empty stack has no
    parent and a trace id newly drawn from the generator, which moves on;
    so a stack whose spans share one trace id still does after an open. *)
Theorem span_parent_and_trace (span_name : string) (st : State) :
  exists s st',
    open_span span_name st = (Normal (next_handle st), st') /\
    stack st' = s :: stack st /\
    handle s = next_handle st /\
    name s = span_name /\
    match current st with
    | Some p =>
        parent_span_id s = Some (span_id (context p)) /\
        trace_id (context s) = trace_id (context p)
    | None =>
        parent_span_id s = None /\
        trace_id (context s) = 1 + bits st (rng_pos st) mod (2 ^ 128 - 1) /\
        rng_pos st' = S (S (rng_pos st))
    end /\
    (one_trace (stack st) -> one_trace (stack st')).
Proof.
  unfold one_trace. run. destruct (stack st) as [| p rest] eqn:Hst; run.
  - eexists _, _. split; [reflexivity |]. run. rewrite Hst.
    do 3 (split; [reflexivity |]).
    split; [repeat split |].
    intros _ s1 s2 [<- | []] [<- | []]. reflexivity.
  - eexists _, _. split; [reflexivity |]. run. rewrite Hst.
    do 3 (split; [reflexivity |]).
    split; [repeat split |].
    intros Hone s1 s2 H1 H2.
    assert (Hp : forall s, In s (p :: rest) -> trace_id (context s) = trace_id (context p)).
    { intros s Hs. apply Hone; [exact Hs | now left]. }
    destruct H1 as [<- | H1], H2 as [<- | H2]; run;
      rewrite ?(Hp _ H1), ?(Hp _ H2); reflexivity.
Qed.

Lemma span_parent_and_trace_witness :
  one_trace (stack state_in_span) /\
  exists s st',
    open_span "db-query" state_in_span =
      (Normal (next_handle state_in_span), st') /\
    stack st' = s :: stack state_in_span /\
    handle s = next_handle state_in_span /\
    name s = "db-query" /\
    match current state_in_span with
    | Some p =>
        parent_span_id s = Some (span_id (context p)) /\
        trace_id (context s) = trace_id (context p)
    | None =>
        parent_span_id s = None /\
        trace_id (context s) =
          1 + bits state_in_span (rng_pos state_in_span) mod (2 ^ 128 - 1) /\
        rng_pos st' = S (S (rng_pos state_in_span))
    end /\
    (one_trace (stack state_in_span) -> one_trace (stack st')).
Proof.
  split.
  - intros s1 s2 [<- | []] [<- | []]. reflexivity.
  - apply (span_parent_and_trace "db-query" state_in_span).
Defined.

(** C6: with S1, S2, S3 opened in this order and none closed, closing S2
    is reported as a usage error, raises nothing and leaves the stack as
    it is; closing S3 first and then S2 pops one span each time. *)
Theorem close_out_of_order_rejected (n1 n2 n3 : string) (st : State) :
  exists h1 h2 h3 st1 st2 st3,
    open_span n1 st = (Normal h1, st1) /\
    open_span n2 st1 = (Normal h2, st2) /\
    open_span n3 st2 = (Normal h3, st3) /\
    map handle (stack st3) = h3 :: h2 :: h1 :: map handle (stack st) /\
    close_span h2 st3 =
      (Normal tt, emit (UsageError "close: not the current span") st3) /\
    stack (close_span h2 st3).2 = stack st3 /\
    exists st4 st5,
      close_span h3 st3 = (Normal tt, st4) /\
      map handle (stack st4) = h2 :: h1 :: map handle (stack st) /\
      close_span h2 st4 = (Normal tt, st5) /\
      map handle (stack st5) = h1 :: map handle (stack st).
Proof.
  assert (Hne : forall n, (S n =? n)%nat = false) by (intros n; apply Nat.eqb_neq; lia).
  run. destruct (stack st) as [| p rest] eqn:Hst; run;
    (eexists _, _, _, _, _, _;
     do 3 (split; [reflexivity | run]);
     rewrite ?Hst, ?Hne; run; rewrite ?Hst; cbn [map handle];
     do 3 (split; [reflexivity |]);
     eexists _, _; split; [reflexivity |]; run;
     split; [rewrite ?Hst; reflexivity |];
     split; [reflexivity |]; run; rewrite ?Hst; reflexivity).
Qed.

Lemma exported_app l1 l2 : exported (l1 ++ l2) = exported l1 ++ exported l2.
Proof.
  induction l1 as [| e l1 IH]; [reflexivity |].
  destruct e; simpl; rewrite IH; reflexivity.
Qed.

Lemma times_closed_emit_span h s st :
  times_closed h (emit (SpanExported s) st) =
  (times_closed h st + (if decide (handle s = h) then 1 else 0))%nat.
Proof.
  unfold times_closed. cbn [history emit].
  rewrite exported_app, filter_app, length_app. f_equal.
  cbn [exported]. rewrite filter_cons. destruct (decide (handle s = h)); reflexivity.
Qed.

(** What [open_span] leaves behind. *)
Lemma open_span_pushes span_name st :
  exists s st',
    open_span span_name st = (Normal (next_handle st), st') /\
    stack st' = s :: stack st /\
    handle s = next_handle st /\ name s = span_name /\
    history st' = history st /\ counters st' = counters st /\
    clock st' = clock st /\ next_handle st' = S (next_handle st).
Proof.
  run. destruct (stack st) as [| p rest] eqn:Hst; run;
    (eexists _, _; split; [reflexivity |]; run; rewrite ?Hst; repeat split).
Qed.

(** C5: the scoped form opens a span and makes it current for the unit of
    work; when the work leaves the stack as it found it, the span is still
    current at the end of the work and the form closes it exactly once on
    every way out, handing on the work's own outcome; when the work raised,
    the sealed span has status Error and holds the failure as an event,
    and the exception goes on only then. *)
Theorem scoped_span_closes_once {A} (span_name : string) (work : nat -> M A)
    (st : State) :
  let h := next_handle st in
  let st1 := (open_span span_name st).2 in
  let out := (work h st1).1 in
  let st2 := (work h st1).2 in
  let st3 := (start_as_current_span span_name work st).2 in
  times_closed h st = 0%nat ->
  open_handles st2 = open_handles st1 ->
  times_closed h st2 = times_closed h st1 ->
  (exists s, current st1 = Some s /\ handle s = h /\ name s = span_name) /\
  (exists s, current st2 = Some s /\ handle s = h) /\
  (start_as_current_span span_name work st).1 = out /\
  open_handles st3 = open_handles st /\
  times_closed h st3 = 1%nat /\
  (forall e, out = Raise e ->
     exists s,
       last (exported (history st3)) = Some s /\ handle s = h /\
       status s = Error (exc_type e +:+ ": " +:+ exc_msg e) /\
       has_exception_event e s).
Proof.
  intros h st1 out st2 st3 Hfresh Hbal Hkeep.
  destruct (open_span_pushes span_name st)
    as (s & st1' & Hopen & Hstack & Hh & Hname & Hhist & _).
  assert (Est1 : st1 = st1') by (unfold st1; now rewrite Hopen).
  assert (Hclosed1 : times_closed h st1 = 0%nat).
  { unfold times_closed. rewrite Est1, Hhist. exact Hfresh. }
  unfold open_handles in Hbal. rewrite Est1, Hstack in Hbal. cbn [map] in Hbal.
  destruct (stack st2) as [| s2 rest2] eqn:Hst2; [discriminate |].
  cbn [map] in Hbal. injection Hbal as Hh2 Hrest.
  rewrite Hh in Hh2. fold h in Hh2.
  split. { exists s. unfold current. rewrite Est1, Hstack. auto. }
  split. { exists s2. unfold current. rewrite Hst2. auto. }
  assert (Hrun : start_as_current_span span_name work st =
    match work h st1 with
    | (Raise e, st') =>
        (record_exception h e;;
         set_status h (Error (exc_type e +:+ ": " +:+ exc_msg e));;
         close_span h;; raise e) st'
    | (o, st') => (close_span h;; fun st'' => (o, st'')) st'
    end).
  { unfold start_as_current_span at 1. unfold mbind, M_bind, bind.
    rewrite Hopen. fold h. rewrite Est1. reflexivity. }
  unfold st3. rewrite Hrun. clear Hrun.
  unfold out, st2 in *.
  destruct (work h st1) as [o st2'] eqn:Hwork. cbn [fst snd] in *.
  assert (Hclose : forall f : Span -> Span, handle (f s2) = h ->
    times_closed h (emit (SpanExported (f s2)) (set_stack (fun _ => rest2) st2')) = 1%nat).
  { intros f Hf. rewrite times_closed_emit_span, Hf.
    destruct (decide (h = h)); [| congruence].
    unfold times_closed in *. cbn [history set_stack].
    rewrite Hkeep, Hclosed1. reflexivity. }
  destruct o as [a | r | e];
    repeat (progress (run; rewrite ?Hst2, ?Hh2, ?Nat.eqb_refl)).
  - split; [reflexivity |]. split; [unfold open_handles; run; exact Hrest |].
    split; [apply (Hclose (seal (clock st2'))); exact Hh2 |].
    intros e He. discriminate.
  - split; [reflexivity |]. split; [unfold open_handles; run; exact Hrest |].
    split; [apply (Hclose (seal (clock st2'))); exact Hh2 |].
    intros e He. discriminate.
  - split; [reflexivity |]. split; [unfold open_handles; run; exact Hrest |].
    split.
    { apply (Hclose (fun x => seal (clock st2')
        (with_status (Error (exc_type e +:+ ": " +:+ exc_msg e))
           (with_event {| event_name := "exception"; event_time := clock st2';
                          event_attributes := exception_event e |} x)))).
      exact Hh2. }
    intros e' He'. injection He' as <-.
    eexists. rewrite exported_app. cbn [exported].
    split; [apply last_snoc |]. run.
    split; [exact Hh2 |]. split; [reflexivity |].
    exists (clock st2'). apply in_or_app. right. now left.
Qed.

Lemma scoped_span_closes_once_witness :
  times_closed 0 (initial_state (fun _ => 41)) = 0%nat /\
  open_handles (failing_operation 0 state_failing).2 = open_handles state_failing /\
  times_closed 0 (failing_operation 0 state_failing).2 = times_closed 0 state_failing /\
  (failing_operation 0 state_failing).1 = Raise simulated_error /\
  times_closed 0
    (start_as_current_span "failing-operation" failing_operation
       (initial_state (fun _ => 41))).2 = 1%nat /\
  exists s,
    last (exported (history
      (start_as_current_span "failing-operation" failing_operation
         (initial_state (fun _ => 41))).2)) = Some s /\
    handle s = 0%nat /\
    status s = Error "ValueError: Simulated error for demonstration" /\
    has_exception_event simulated_error s.
Proof.
  assert (H1 : times_closed (next_handle (initial_state (fun _ => 41)))
                 (initial_state (fun _ => 41)) = 0%nat) by reflexivity.
  assert (H2 : open_handles
                 (failing_operation (next_handle (initial_state (fun _ => 41)))
                    (open_span "failing-operation" (initial_state (fun _ => 41))).2).2 =
               open_handles (open_span "failing-operation" (initial_state (fun _ => 41))).2)
    by reflexivity.
  assert (H3 : times_closed (next_handle (initial_state (fun _ => 41)))
                 (failing_operation (next_handle (initial_state (fun _ => 41)))
                    (open_span "failing-operation" (initial_state (fun _ => 41))).2).2 =
               times_closed (next_handle (initial_state (fun _ => 41)))
                 (open_span "failing-operation" (initial_state (fun _ => 41))).2)
    by reflexivity.
  destruct (scoped_span_closes_once "failing-operation" failing_operation
              (initial_state (fun _ => 41)) H1 H2 H3)
    as (_ & _ & _ & _ & Honce & Hraise).
  do 4 (split; [reflexivity |]).
  split; [exact Honce |].
  exact (Hraise simulated_error eq_refl).
Defined.

(** ** The error endpoint *)

Lemma series_value_insert_eq (m : gmap Series Z) k v :
  series_value (<[k := v]> m) k = v.
Proof. unfold series_value. now rewrite lookup_insert_eq. Qed.

Lemma series_value_insert_ne (m : gmap Series Z) k k' v :
  k <> k' -> series_value (<[k := v]> m) k' = series_value m k'.
Proof. intros H. unfold series_value. now rewrite lookup_insert_ne. Qed.



(** ** The gauge of active requests *)

Section ActiveRequests.

Lemma leaves_pure {A} (f : State -> Outcome A) : leaves_active (fun st => (f st, st)).
Proof. intros st. exists []. cbn. rewrite app_nil_r. auto. Qed.

Lemma leaves_ret {A} (a : A) : leaves_active (mret a).
Proof. apply (leaves_pure (fun _ => Normal a)). Qed.

Lemma leaves_raise {A} e : leaves_active (@raise A e).
Proof. apply (leaves_pure (fun _ => Raise e)). Qed.

Lemma leaves_return {A} r : leaves_active (@return_ A r).
Proof. apply (leaves_pure (fun _ => Return r)). Qed.

Lemma leaves_time_time : leaves_active time_time.
Proof. apply (leaves_pure (fun st => Normal (clock st))). Qed.

(** Two quiet runs in a row make a quiet run. *)
Lemma leaves_then {A B} (m : M A) (st : State) (k : State -> Outcome B * State) :
  leaves_active m -> leaves_active k ->
  exists evs,
    history (k (m st).2).2 = history st ++ evs /\
    forallb (fun ev => negb (touches_active ev)) evs = true /\
    series_value (counters (k (m st).2).2) active_series =
      series_value (counters st) active_series.
Proof.
  intros Hm Hk.
  destruct (Hm st) as (evs1 & Hh1 & Hq1 & Hv1).
  destruct (Hk (m st).2) as (evs2 & Hh2 & Hq2 & Hv2).
  exists (evs1 ++ evs2). rewrite Hh2, Hh1, Hv2, Hv1, app_assoc, forallb_app, Hq1, Hq2.
  auto.
Qed.

Lemma leaves_bind {A B} (m : M A) (k : A -> M B) :
  leaves_active m -> (forall a, leaves_active (k a)) -> leaves_active (m ≫= k).
Proof.
  intros Hm Hk st. unfold mbind, M_bind, bind.
  destruct (m st) as [[a | r | e] st1] eqn:Hrun.
  - pose proof (leaves_then m st (k a) Hm (Hk a)) as H. now rewrite Hrun in H.
  - specialize (Hm st). now rewrite Hrun in Hm.
  - specialize (Hm st). now rewrite Hrun in Hm.
Qed.

Lemma leaves_try_except {A} (m : M A) catches handler :
  leaves_active m -> (forall e, leaves_active (handler e)) ->
  leaves_active (try_except m catches handler).
Proof.
  intros Hm Hk st. unfold try_except.
  destruct (m st) as [[a | r | e] st1] eqn:Hrun;
    try (specialize (Hm st); now rewrite Hrun in Hm).
  destruct (catches e).
  - pose proof (leaves_then m st (handler e) Hm (Hk e)) as H. now rewrite Hrun in H.
  - specialize (Hm st). now rewrite Hrun in Hm.
Qed.

Lemma leaves_modify (f : State -> State) (evs : State -> list Emission) :
  (forall st, history (f st) = history st ++ evs st) ->
  (forall st, forallb (fun ev => negb (touches_active ev)) (evs st) = true) ->
  (forall st, series_value (counters (f st)) active_series =
              series_value (counters st) active_series) ->
  leaves_active (modify f).
Proof. intros Hh Hq Hv st. exists (evs st). cbn. auto. Qed.

Lemma leaves_time_sleep d : leaves_active (time_sleep d).
Proof. apply (leaves_modify _ (fun _ => [Slept d])); intros st; reflexivity. Qed.

Lemma leaves_logger_handle r : leaves_active (logger_handle r).
Proof.
  apply (leaves_modify _ (fun st => [LogEmitted (format st r)])); intros st; reflexivity.
Qed.

Lemma leaves_log_with_context message level extra :
  leaves_active (log_with_context message level extra).
Proof.
  unfold log_with_context. destruct (logging_level (upper level)).
  - apply leaves_bind; [apply leaves_time_time | intros now; apply leaves_logger_handle].
  - apply leaves_raise.
Qed.

Lemma leaves_add i delta l :
  instr_name i <> "http_requests_active" -> leaves_active (add i delta l).
Proof.
  intros Hne.
  apply (leaves_modify _ (fun _ => [CounterAdd (instr_name i) l delta])); intros st.
  - reflexivity.
  - cbn. apply String.eqb_neq in Hne. now rewrite Hne.
  - cbn [counters emit set_counters].
    apply series_value_insert_ne. unfold active_series. congruence.
Qed.

Lemma leaves_record i v l : leaves_active (record i v l).
Proof.
  apply (leaves_modify _ (fun _ => [HistogramRecord (instr_name i) l v])); intros st;
    reflexivity.
Qed.

Lemma leaves_next_draw : leaves_active next_draw.
Proof. intros st. exists []. cbn. rewrite app_nil_r. auto. Qed.

Lemma leaves_random_random : leaves_active random_random.
Proof. apply leaves_bind; [apply leaves_next_draw | intros; apply leaves_ret]. Qed.

Lemma leaves_random_uniform a b : leaves_active (random_uniform a b).
Proof. apply leaves_bind; [apply leaves_random_random | intros; apply leaves_ret]. Qed.

Lemma leaves_random_randint a b : leaves_active (random_randint a b).
Proof. apply leaves_bind; [apply leaves_next_draw | intros; apply leaves_ret]. Qed.

Lemma leaves_mutate_span h f : leaves_active (mutate_span h f).
Proof.
  intros st. unfold mutate_span. destruct (update_span h f (stack st)).
  - exists []. cbn. rewrite app_nil_r. auto.
  - exists [UsageError "span is not open"]. cbn. auto.
Qed.

Lemma leaves_add_event h ev attrs : leaves_active (add_event h ev attrs).
Proof.
  apply leaves_bind; [apply leaves_time_time | intros; apply leaves_mutate_span].
Qed.

Lemma leaves_open_span n : leaves_active (open_span n).
Proof.
  intros st. exists [].
  destruct (open_span_pushes n st) as (s & st' & -> & _ & _ & _ & Hh & Hc & _).
  cbn [snd]. rewrite Hh, Hc, app_nil_r. auto.
Qed.

Lemma leaves_close_span h : leaves_active (close_span h).
Proof.
  intros st. unfold close_span.
  destruct (stack st) as [| s rest]; [| destruct (handle s =? h)%nat];
    eexists [_]; cbn; auto.
Qed.

Lemma leaves_start_as_current_span {A} n (work : nat -> M A) :
  (forall h, leaves_active (work h)) -> leaves_active (start_as_current_span n work).
Proof.
  intros Hwork. unfold start_as_current_span.
  apply leaves_bind; [apply leaves_open_span |]. intros h st.
  destruct (work h st) as [[a | r | e] st1] eqn:Hrun.
  - pose proof (leaves_then (work h) st
      (close_span h ≫= fun _ => (fun st'' => (Normal a, st'')) : M A) (Hwork h)) as H.
    rewrite Hrun in H. apply H.
    apply leaves_bind; [apply leaves_close_span | intros; apply (leaves_pure (fun _ => Normal a))].
  - pose proof (leaves_then (work h) st
      (close_span h ≫= fun _ => (fun st'' => (Return r, st'')) : M A) (Hwork h)) as H.
    rewrite Hrun in H. apply H.
    apply leaves_bind; [apply leaves_close_span | intros; apply (leaves_pure (fun _ => @Return A r))].
  - pose proof (leaves_then (work h) st
      (record_exception h e ≫= fun _ =>
       set_status h (Error (exc_type e +:+ ": " +:+ exc_msg e)) ≫= fun _ =>
       close_span h ≫= fun _ => (raise e : M A)) (Hwork h)) as H.
    rewrite Hrun in H. apply H.
    apply leaves_bind; [apply leaves_add_event | intros].
    apply leaves_bind; [apply leaves_mutate_span | intros].
    apply leaves_bind; [apply leaves_close_span | intros; apply leaves_raise].
Qed.

End ActiveRequests.

Create HintDb quiet.
#[local] Hint Resolve leaves_ret leaves_raise leaves_return leaves_time_time
  leaves_time_sleep leaves_log_with_context leaves_record leaves_random_random
  leaves_random_uniform leaves_random_randint leaves_mutate_span leaves_add_event
  leaves_close_span leaves_open_span : quiet.

(** Discharges [leaves_active] goals over the handlers' bodies. *)
Ltac quiet :=
  repeat match goal with
  | |- leaves_active (start_as_current_span _ _) =>
      apply leaves_start_as_current_span; intros ?
  | |- leaves_active (try_except _ _ _) => apply leaves_try_except; [| intros ?]
  | |- leaves_active (mbind _ _) => apply leaves_bind; [| intros ?]
  | |- leaves_active (add _ _ _) => apply leaves_add; discriminate
  | |- leaves_active (if ?c then _ else _) => destruct c
  | |- leaves_active (match ?x with _ => _ end) => destruct x
  | |- leaves_active (failing_operation _) => unfold failing_operation
  | |- leaves_active (set_attribute _ _ _) => apply leaves_mutate_span
  | |- leaves_active (set_status _ _) => apply leaves_mutate_span
  | |- leaves_active (record_exception _ _) => apply leaves_add_event
  | |- leaves_active _ => solve [auto with quiet]
  end.

(** The frame every handler puts around its work: one increment on
    entry, the decrement and the duration in [finally], whatever way the
    work ends. *)
Lemma guarded_request_balanced (work : M unit) (lbls : Labels) :
  leaves_active work ->
  forall st,
    let st' :=
      ((start ← time_time;
        add active_requests 1 ∅;;
        try_finally work
          (add active_requests (-1) ∅;;
           now ← time_time;
           record request_duration (now - start)%Q lbls)) st).2 in
    exists evs d,
      history st' =
        history st ++ [CounterAdd "http_requests_active" ∅ 1] ++ evs ++
        [CounterAdd "http_requests_active" ∅ (-1);
         HistogramRecord "http_request_duration_seconds" lbls d] /\
      forallb (fun ev => negb (touches_active ev)) evs = true /\
      series_value (counters st') active_series =
        series_value (counters st) active_series.
Proof.
  intros Hwork st. run.
  match goal with |- context [work ?s] => destruct (Hwork s) as (evs & Hh & Hq & Hv) end.
  match goal with |- context [work ?s] => destruct (work s) as [o st1] end.
  cbn [fst snd] in *. revert Hh Hv. run. intros Hh Hv.
  exists evs. eexists. rewrite Hh, <- !app_assoc.
  split; [reflexivity |]. split; [exact Hq |].
  unfold active_series in *.
  rewrite series_value_insert_eq, Hv, series_value_insert_eq. lia.
Qed.

(** C9: whatever the endpoint and whatever happens in the request
    (success, the 404 early return, a raised exception), the handler adds
    1 to [http_requests_active] first, adds -1 in its [finally] block and
    touches the series nowhere else, so the series ends at the value it
    had before the request. *)
Theorem active_requests_balanced (e : Endpoint) (st : State) :
  exists evs d lbls,
    history (dispatch e st).2 =
      history st ++ [CounterAdd "http_requests_active" ∅ 1] ++ evs ++
      [CounterAdd "http_requests_active" ∅ (-1);
       HistogramRecord "http_request_duration_seconds" lbls d] /\
    forallb (fun ev => negb (touches_active ev)) evs = true /\
    series_value (counters (dispatch e st).2) active_series =
      series_value (counters st) active_series.
Proof.
  assert (Hframe : forall (work : M unit) (lbls : Labels), leaves_active work -> forall s0,
    let s' :=
      ((start ← time_time;
        add active_requests 1 ∅;;
        try_finally work
          (add active_requests (-1) ∅;;
           now ← time_time;
           record request_duration (now - start)%Q lbls)) s0).2 in
    exists evs d lbls',
      history s' =
        history s0 ++ [CounterAdd "http_requests_active" ∅ 1] ++ evs ++
        [CounterAdd "http_requests_active" ∅ (-1);
         HistogramRecord "http_request_duration_seconds" lbls' d] /\
      forallb (fun ev => negb (touches_active ev)) evs = true /\
      series_value (counters s') active_series =
        series_value (counters s0) active_series).
  { intros work lbls Hwork s0.
    destruct (guarded_request_balanced work lbls Hwork s0) as (evs & d & H).
    exists evs, d, lbls. exact H. }
  destruct e as [| | order_id |]; cbn [dispatch];
    [unfold home | unfold create_order | unfold get_order | unfold trigger_error];
    apply Hframe; quiet.
Qed.

(** ** The emitter: one child step *)

Lemma State_ext (s1 s2 : State) :
  stack s1 = stack s2 -> next_handle s1 = next_handle s2 ->
  counters s1 = counters s2 -> histograms s1 = histograms s2 ->
  history s1 = history s2 -> clock s1 = clock s2 ->
  bits s1 = bits s2 -> rng_pos s1 = rng_pos s2 -> s1 = s2.
Proof. destruct s1, s2. cbn. intros. subst. reflexivity. Qed.

(** Two states are compared field by field, the emissions up to the
    bracketing of the appends. *)
Ltac state_eq :=
  apply State_ext; run_cbn;
  cbn [instr_name bg_errors bg_operations bg_duration create_counter create_histogram];
  rewrite <- ?app_assoc; reflexivity.

Lemma child_step_runs operation_name cycle_count success child_name st root rest :
  stack st = root :: rest ->
  child_step operation_name cycle_count success child_name st =
  (Normal (if step_failed st then false else success),
   after_step operation_name cycle_count child_name st (context root)).
Proof.
  intros Hst. unfold child_step. run. rewrite Hst. run.
  unfold after_step, step_emissions, step_log, step_span, step_failed, draw_fails,
    step_end, step_work, step_context, step_error_labels.
  destruct (Qlt_le_dec _ 0.1); run; f_equal; state_eq.
Qed.

Lemma generated_id_in_range (d width : Z) :
  1 < width -> 0 < 1 + d mod (2 ^ width - 1) <= 2 ^ width - 1.
Proof.
  intros Hw.
  assert (2 ^ 1 < 2 ^ width) by (apply Z.pow_lt_mono_r; lia).
  change (2 ^ 1) with 2 in *.
  pose proof (Z.mod_pos_bound d (2 ^ width - 1) ltac:(lia)). lia.
Qed.

Lemma child_context_valid st root :
  is_valid root = true -> is_valid (step_context st root) = true.
Proof.
  intros Hroot. apply is_valid_bounds in Hroot as [Ht _].
  apply is_valid_bounds. cbn [trace_id span_id step_context].
  split; [exact Ht |].
  pose proof (generated_id_in_range (bits st (rng_pos st)) 64 ltac:(lia)). lia.
Qed.

Lemma root_context_valid d1 d2 :
  is_valid {| trace_id := 1 + d1 mod (2 ^ 128 - 1);
              span_id := 1 + d2 mod (2 ^ 64 - 1) |} = true.
Proof.
  apply is_valid_bounds. cbn [trace_id span_id].
  pose proof (generated_id_in_range d1 128 ltac:(lia)).
  pose proof (generated_id_in_range d2 64 ltac:(lia)). lia.
Qed.

(** Spans opened on a stack of valid spans are valid. *)
Lemma open_span_valid span_name st :
  Forall (fun s => is_valid (context s) = true) (stack st) ->
  Forall (fun s => is_valid (context s) = true) (stack (open_span span_name st).2).
Proof.
  intros Hall. run. destruct (stack st) as [| p rest] eqn:Hst; run.
  - constructor; [apply root_context_valid | rewrite Hst; constructor].
  - constructor; [| rewrite Hst; exact Hall].
    apply Forall_cons in Hall as [Hp _].
    apply (child_context_valid st (context p) Hp).
Qed.

(** The fields of an entry written under a valid context. *)
Lemma format_entry_fields ctx r :
  is_valid ctx = true -> keeps_trace_keys (extra_data r) ->
  dict_get "traceID" (format_entry ctx r) = Some (VStr (Hex.format_x 32 (trace_id ctx))) /\
  dict_get "spanID" (format_entry ctx r) = Some (VStr (Hex.format_x 16 (span_id ctx))).
Proof.
  intros Hvalid Hkeys. unfold format_entry. rewrite Hvalid.
  destruct (extra_data r) as [extra |]; [| split; reflexivity].
  destruct Hkeys as [Ht Hs].
  split; rewrite dict_get_update by assumption; reflexivity.
Qed.

Lemma format_entry_level ctx r :
  match extra_data r with Some d => dict_has "level" d = false | None => True end ->
  dict_get "level" (format_entry ctx r) = Some (VStr (getLevelName (levelno r))).
Proof.
  intros Hkeys. unfold format_entry.
  destruct (extra_data r) as [extra |].
  - rewrite dict_get_update by assumption. destruct (is_valid ctx); reflexivity.
  - destruct (is_valid ctx); reflexivity.
Qed.

Lemma unit_draw_range d : (0 <= unit_draw d)%Q /\ (unit_draw d < 1)%Q.
Proof.
  unfold unit_draw, Qle, Qlt. cbn [Qnum Qden].
  pose proof (Z.mod_pos_bound d 9007199254740992 ltac:(lia)). lia.
Qed.

Lemma draw_fails_iff d : draw_fails d = true <-> (unit_draw d < 0.1)%Q.
Proof.
  unfold draw_fails. destruct (Qlt_le_dec (unit_draw d) 0.1) as [Hlt | Hge].
  - tauto.
  - split; [discriminate |]. intros Hlt. exfalso.
    exact (Qlt_not_le _ _ Hlt Hge).
Qed.

(** Of the [2^53] values [random.random()] takes, each as likely as the
    other, the step fails on the lowest 900719925474100: one in ten, to
    within [2^-53]. *)
Lemma draw_fails_share d :
  (draw_fails d = true <-> d mod 9007199254740992 < 900719925474100) /\
  0 <= 10 * 900719925474100 - 9007199254740992 < 10.
Proof.
  split; [| lia]. rewrite draw_fails_iff.
  unfold unit_draw, Qlt. cbn [Qnum Qden].
  pose proof (Z.mod_pos_bound d 9007199254740992 ltac:(lia)). lia.
Qed.

(** The comparison with the rational 1/10 decides as the comparison with
    the double nearest to it, which is what the literal [0.1] denotes. *)
Lemma threshold_is_the_double d :
  (unit_draw d < 0.1)%Q <->
  (unit_draw d < 3602879701896397 # 36028797018963968)%Q.
Proof.
  unfold unit_draw, Qlt. cbn [Qnum Qden].
  pose proof (Z.mod_pos_bound d 9007199254740992 ltac:(lia)). lia.
Qed.

(** C3: a child step draws a uniform number in [0, 1) and fails exactly
    when it is below the fixed 0.1, that is on 900719925474100 of the
    [2^53] values of the draw, one in ten.  A failed step puts the event
    "error_occurred" (error type "SimulatedError" and a message) on the
    child span, emits a log line of level ERROR that carries the child
    span's identifiers, and adds 1 to the error counter under the labels
    (operation, step); a step that did not fail puts the event
    "step_completed" on the span and emits such a line of level INFO, the
    registry staying as it was.  Either way the child span is exported,
    sealed, as the last emission of the step and is off the stack when the
    remaining steps start. *)
Theorem child_step_outcome operation_name cycle_count success child_name others
    st root rest :
  stack st = root :: rest ->
  is_valid (context root) = true ->
  let draw := unit_draw (bits st (S (S (rng_pos st)))) in
  let failed := step_failed st in
  let s := step_span child_name st (context root) in
  let entry := step_log operation_name cycle_count child_name st (context root) in
  let st' := after_step operation_name cycle_count child_name st (context root) in
  let errors : Series :=
    ("background_errors_total",
     labels [("operation", operation_name); ("step", child_name)]) in
  ((0 <= draw)%Q /\ (draw < 1)%Q /\ (failed = true <-> (draw < 0.1)%Q) /\
   (failed = true <->
    bits st (S (S (rng_pos st))) mod 9007199254740992 < 900719925474100)) /\
  child_step operation_name cycle_count success child_name st =
    (Normal (if failed then false else success), st') /\
  history st' =
    history st ++ [Slept (step_work st); LogEmitted entry] ++
    (if failed then [CounterAdd "background_errors_total" errors.2 1] else []) ++
    [SpanExported s] /\
  (name s = child_name /\ child_of (context root) s /\
   end_time s = Some (step_end st)) /\
  (dict_get "traceID" entry = Some (VStr (Hex.format_x 32 (trace_id (context s)))) /\
   dict_get "spanID" entry = Some (VStr (Hex.format_x 16 (span_id (context s))))) /\
  (if failed then
     events s =
       [{| event_name := "error_occurred"; event_time := step_end st;
           event_attributes :=
             [("error.type", VStr "SimulatedError");
              ("error.message", VStr ("Random failure in " +:+ child_name))] |}] /\
     dict_get "level" entry = Some (VStr "ERROR") /\
     series_value (counters st') errors = series_value (counters st) errors + 1
   else
     events s =
       [{| event_name := "step_completed"; event_time := step_end st;
           event_attributes :=
             [("duration_ms", VInt (int_of (step_work st * 1000)))] |}] /\
     dict_get "level" entry = Some (VStr "INFO") /\
     counters st' = counters st) /\
  stack st' = stack st /\
  child_steps operation_name cycle_count success (child_name :: others) st =
    child_steps operation_name cycle_count (if failed then false else success)
      others st'.
Proof.
  intros Hst Hroot draw failed s entry st' errors.
  pose proof (child_step_runs operation_name cycle_count success child_name
                st root rest Hst) as Hrun.
  split.
  { destruct (unit_draw_range (bits st (S (S (rng_pos st))))) as [H0 H1].
    split; [assumption |]. split; [assumption |].
    split; [apply draw_fails_iff | apply draw_fails_share]. }
  split; [exact Hrun |].
  split; [reflexivity |].
  split; [repeat split |].
  split.
  { apply format_entry_fields; [now apply child_context_valid |].
    unfold step_failed. destruct (draw_fails _); split; reflexivity. }
  split.
  { subst failed s entry st' errors.
    unfold step_log, step_span, after_step, step_error_labels.
    cbn [events counters].
    destruct (step_failed st); (split; [reflexivity |]); split.
    - now apply format_entry_level.
    - apply series_value_insert_eq.
    - now apply format_entry_level.
    - reflexivity. }
  split; [reflexivity |].
  cbn [child_steps]. unfold mbind at 1, M_bind, bind. now rewrite Hrun.
Qed.

Lemma child_step_outcome_witness :
  exists root,
    stack state_in_span = [root] /\
    is_valid (context root) = true /\
    step_failed state_in_span = true /\
    child_step "data-sync" 1 true "fetch-remote" state_in_span =
      (Normal false,
       after_step "data-sync" 1 "fetch-remote" state_in_span (context root)).
Proof.
  eexists. split; [reflexivity |]. split; [reflexivity |]. split; [reflexivity |].
  refine (proj1 (proj2 (child_step_outcome "data-sync" 1 true "fetch-remote" []
                          state_in_span _ [] eq_refl eq_refl))).
Defined.

(** ** The emitter: the steps of a cycle *)

Lemma child_steps_run operation_name cycle_count children :
  forall success st root rest,
    stack st = root :: rest ->
    exists st' evs,
      child_steps operation_name cycle_count success children st =
        (Normal (success &&
                 all_true (step_successes (bits st) (rng_pos st) (length children))),
         st') /\
      stack st' = stack st /\ bits st' = bits st /\
      rng_pos st' = (rng_pos st + 3 * length children)%nat /\
      histograms st' = histograms st /\
      (forall k : Series, k.1 <> "background_errors_total" ->
         series_value (counters st') k = series_value (counters st) k) /\
      history st' = history st ++ evs /\
      map name (exported evs) = children /\
      Forall (step_emission (context root)) evs.
Proof.
  induction children as [| child_name others IH]; intros success st root rest Hst.
  - exists st, []. cbn. rewrite andb_true_r, app_nil_r, Nat.add_0_r.
    repeat split; auto.
  - pose proof (child_step_runs operation_name cycle_count success child_name
                  st root rest Hst) as Hrun.
    set (st1 := after_step operation_name cycle_count child_name st (context root)) in *.
    destruct (IH (if step_failed st then false else success) st1 root rest Hst)
      as (st' & evs & Hsteps & Hstack & Hbits & Hpos & Hhist & Hcount & Hevs & Hnames & Hall).
    exists st', (step_emissions operation_name cycle_count child_name st (context root) ++ evs).
    split.
    { cbn [child_steps]. unfold mbind at 1, M_bind, bind. rewrite Hrun, Hsteps.
      cbn [length step_successes all_true forallb bits rng_pos st1 after_step].
      unfold step_failed. destruct (draw_fails _), success; reflexivity. }
    split; [exact Hstack |]. split; [exact Hbits |].
    split; [rewrite Hpos; cbn [rng_pos st1 after_step length]; lia |].
    split; [exact Hhist |].
    split.
    { intros k Hk. rewrite (Hcount k Hk). cbn [counters st1 after_step].
      destruct (step_failed st); [| reflexivity].
      apply series_value_insert_ne. destruct k as [n l]. cbn in Hk. congruence. }
    split; [rewrite Hevs; cbn [history st1 after_step]; now rewrite app_assoc |].
    split.
    { rewrite exported_app, map_app, Hnames. unfold step_emissions.
      destruct (step_failed st); reflexivity. }
    apply Forall_app. split; [| exact Hall].
    unfold step_emissions.
    destruct (step_failed st); repeat constructor.
Qed.

(** ** The emitter: one cycle *)

Lemma emitter_cycle_runs cyc st :
  stack st = [] ->
  exists st' root started completed evs duration pause,
    emitter_cycle cyc st = (Normal (cyc + 1), st') /\
    stack st' = [] /\ bits st' = bits st /\
    history st' =
      history st ++ [LogEmitted started] ++ evs ++
      [CounterAdd (outcome_series st).1 (outcome_series st).2 1;
       HistogramRecord (duration_series st).1 (duration_series st).2 duration;
       LogEmitted completed; SpanExported root; Slept pause] /\
    Forall (step_emission (context root)) evs /\
    map name (exported evs) = (cycle_pick st).2 /\
    is_valid (context root) = true /\
    name root = "bg-" +:+ (cycle_pick st).1 /\
    parent_span_id root = None /\
    attributes root =
      [("operation.type", VStr "background");
       ("operation.cycle", VInt (cyc + 1));
       ("operation.success", VBool (all_true (cycle_successes st)));
       ("operation.duration_ms", VInt (int_of (duration * 1000)))] /\
    is_Some (end_time root) /\
    series_value (counters st') (outcome_series st) =
      series_value (counters st) (outcome_series st) + 1 /\
    series_observations (histograms st') (duration_series st) =
      series_observations (histograms st) (duration_series st) ++ [duration].
Proof.
  intros Hst.
  unfold outcome_series, duration_series, cycle_successes, cycle_pick.
  destruct st as [stk nh cs hs hist clk rng pos]. cbn [stack] in Hst. subst stk.
  unfold emitter_cycle, random_choice, root_operation.
  cbn [operations length]. run.
  destruct (nth _ _ _) as [operation_name child_spans] eqn:Hpick.
  run.
  match goal with
  | |- context [child_steps ?o ?c ?b ?l ?s] =>
      eassert (Hroot : stack s = _ :: _) by (run_cbn; reflexivity);
      destruct (child_steps_run o c l b s _ _ Hroot)
        as (st2 & evs & Hsteps & Hstack & Hbits & Hpos & Hhists & Hcount & Hevs & Hnames & Hall);
      rewrite Hsteps; clear Hsteps Hroot
  end.
  revert Hstack Hbits Hpos Hhists Hcount Hevs Hall. run.
  intros Hstack Hbits Hpos Hhists Hcount Hevs Hall.
  repeat (progress (rewrite ?Hstack; run)).
  cbn [andb fst snd].
  eexists _, _, _, _, evs, _, _. split; [reflexivity |].
  run_cbn. cbn [instr_name bg_operations bg_duration create_counter create_histogram].
  split; [reflexivity |]. split; [exact Hbits |].
  split; [rewrite Hevs, <- !app_assoc; reflexivity |].
  split; [exact Hall |]. split; [exact Hnames |].
  split; [apply root_context_valid |].
  cbn [name parent_span_id attributes end_time seal with_attribute].
  do 3 (split; [reflexivity |]).
  split; [eexists; reflexivity |].
  split.
  - rewrite series_value_insert_eq. f_equal. apply Hcount. cbn. discriminate.
  - unfold series_observations. rewrite lookup_insert_eq, Hhists. reflexivity.
Qed.

Lemma count_where_app p l1 l2 :
  count_where p (l1 ++ l2) = (count_where p l1 + count_where p l2)%nat.
Proof. induction l1 as [| e l1 IH]; cbn; [reflexivity | rewrite IH; lia]. Qed.

Lemma step_emissions_exported ctx evs :
  Forall (step_emission ctx) evs -> Forall (child_of ctx) (exported evs).
Proof.
  induction 1 as [| e evs He _ IH]; [constructor |].
  destruct e; cbn in *; auto; contradiction.
Qed.

Lemma step_emissions_no_operation ctx evs :
  Forall (step_emission ctx) evs ->
  count_where (is_add "background_operations_total") evs = 0%nat /\
  count_where (is_observation "background_operation_duration_seconds") evs = 0%nat.
Proof.
  induction 1 as [| e evs He _ [IH1 IH2]]; [split; reflexivity |].
  destruct e; cbn in *; try contradiction; try (split; assumption).
  subst. cbn. split; assumption.
Qed.

Lemma children_are_not_roots ctx l :
  Forall (child_of ctx) l -> root_spans l = [].
Proof.
  induction 1 as [| s l [Hp _] _ IH]; [reflexivity |].
  cbn. rewrite Hp. exact IH.
Qed.

(** C4: in a cycle all child steps come first; then the operation counter
    is incremented by 1 under the labels (operation, outcome), the duration
    is recorded in the histogram, and the root span is closed carrying as
    [operation.success] the conjunction of the successes of the cycle's
    steps; the inter-cycle sleep comes last.  The cycle makes exactly one
    increment of the operation counter and one observation. *)
Theorem cycle_closes_root_and_counts (cyc : Z) (st : State) :
  stack st = [] ->
  exists st' root started completed evs duration pause,
    let emitted :=
      [LogEmitted started] ++ evs ++
      [CounterAdd "background_operations_total"
         (labels [("operation", (cycle_pick st).1);
                  ("status", if all_true (cycle_successes st)
                             then "success" else "failure")]) 1;
       HistogramRecord "background_operation_duration_seconds"
         (labels [("operation", (cycle_pick st).1)]) duration;
       LogEmitted completed; SpanExported root; Slept pause] in
    emitter_cycle cyc st = (Normal (cyc + 1), st') /\
    history st' = history st ++ emitted /\
    map name (exported evs) = (cycle_pick st).2 /\
    Forall (child_of (context root)) (exported evs) /\
    count_where (is_add "background_operations_total") emitted = 1%nat /\
    count_where (is_observation "background_operation_duration_seconds") emitted = 1%nat /\
    name root = "bg-" +:+ (cycle_pick st).1 /\
    dict_get "operation.success" (attributes root) =
      Some (VBool (all_true (cycle_successes st))) /\
    is_Some (end_time root) /\
    stack st' = [] /\
    series_value (counters st') (outcome_series st) =
      series_value (counters st) (outcome_series st) + 1 /\
    series_observations (histograms st') (duration_series st) =
      series_observations (histograms st) (duration_series st) ++ [duration].
Proof.
  intros Hst.
  destruct (emitter_cycle_runs cyc st Hst)
    as (st' & root & started & completed & evs & duration & pause & Hrun & Hstack &
        _ & Hhist & Hall & Hnames & _ & Hname & _ & Hattrs & Hend & Hcount & Hobs).
  destruct (step_emissions_no_operation _ _ Hall) as [Hadds Hrecs].
  exists st', root, started, completed, evs, duration, pause. cbv zeta.
  split; [exact Hrun |]. split; [exact Hhist |]. split; [exact Hnames |].
  split; [now apply step_emissions_exported |].
  split; [cbn [app count_where is_add]; rewrite count_where_app, Hadds; reflexivity |].
  split; [cbn [app count_where is_observation]; rewrite count_where_app, Hrecs; reflexivity |].
  split; [exact Hname |].
  split; [rewrite Hattrs; reflexivity |].
  auto.
Qed.

Lemma cycle_closes_root_and_counts_witness :
  stack (initial_state (fun _ => 41)) = [] /\
  exists st',
    emitter_cycle 0 (initial_state (fun _ => 41)) = (Normal 1, st') /\
    stack st' = [] /\
    series_value (counters st') (outcome_series (initial_state (fun _ => 41))) = 1.
Proof.
  split; [reflexivity |].
  destruct (cycle_closes_root_and_counts 0 (initial_state (fun _ => 41)) eq_refl)
    as (st' & root & started & completed & evs & duration & pause & Hrun & _ & _ & _ &
        _ & _ & _ & _ & _ & Hstack & Hcount & _).
  exists st'. split; [exact Hrun |]. split; [exact Hstack |]. exact Hcount.
Defined.

(** ** The emitter: the loop *)

Lemma cycle_pick_in_catalog st : In (cycle_pick st) operations.
Proof.
  unfold cycle_pick. apply nth_In.
  pose proof (Z.mod_pos_bound (bits st (rng_pos st)) (Z.of_nat (length operations))
                ltac:(cbn; lia)).
  lia.
Qed.

Lemma root_spans_app l1 l2 : root_spans (l1 ++ l2) = root_spans l1 ++ root_spans l2.
Proof. apply List.filter_app. Qed.

Lemma cycle_numbers_shift n : forall a c,
  map (fun k => Some (VInt (c + 1 + Z.of_nat k))) (seq a n) =
  map (fun k => Some (VInt (c + Z.of_nat k))) (seq (S a) n).
Proof.
  induction n as [| n IH]; intros a c; [reflexivity |].
  cbn [seq map]. rewrite IH. do 3 f_equal. lia.
Qed.

Lemma emitter_loop_runs cycles :
  forall cyc st,
    stack st = [] ->
    exists st' evs,
      emitter_loop cycles cyc st = (Normal (cyc + Z.of_nat cycles), st') /\
      stack st' = [] /\
      history st' = history st ++ evs /\
      map cycle_number (root_spans (exported evs)) =
        map (fun k => Some (VInt (cyc + Z.of_nat k))) (seq 1 cycles) /\
      count_where (is_add "background_operations_total") evs = cycles.
Proof.
  induction cycles as [| cycles IH]; intros cyc st Hst.
  - exists st, []. cbn. rewrite Z.add_0_r, app_nil_r. auto.
  - destruct (emitter_cycle_runs cyc st Hst)
      as (st1 & root & started & completed & evs & duration & pause & Hrun & Hstack &
          _ & Hhist & Hall & _ & _ & _ & Hparent & Hattrs & _).
    destruct (IH (cyc + 1) st1 Hstack) as (st' & evs' & Hloop & Hstack' & Hhist' & Hcyc & Hadds).
    destruct (step_emissions_no_operation _ _ Hall) as [Hnone _].
    eexists st', (_ ++ evs').
    split.
    { cbn [emitter_loop]. unfold mbind at 1, M_bind, bind. rewrite Hrun, Hloop.
      do 2 f_equal. lia. }
    split; [exact Hstack' |].
    split; [rewrite Hhist', Hhist, <- app_assoc; reflexivity |].
    split.
    + rewrite !exported_app. cbn [exported]. rewrite !root_spans_app.
      rewrite (children_are_not_roots _ _ (step_emissions_exported _ _ Hall)).
      cbn [root_spans List.filter app]. rewrite Hparent.
      cbn [app map seq]. rewrite Hcyc, cycle_numbers_shift.
      unfold cycle_number at 1. rewrite Hattrs. reflexivity.
    + rewrite !count_where_app, Hnone, Hadds. reflexivity.
Qed.

(** C8: the catalog has five entries; a cycle makes one draw of the
    generator and picks the entry at that draw modulo five; its root span
    is named after the picked operation and carries the cycle counter, one
    more than the counter before the cycle; the spans exported in the
    cycle are one child span per step of the picked entry, in the listed
    order and all under the root, and then the root; in the loop the
    counter of the n-th cycle is n. *)
Theorem cycle_follows_catalog :
  length operations = 5%nat /\
  (forall cyc st,
     stack st = [] ->
     exists st' root children evs,
       emitter_cycle cyc st = (Normal (cyc + 1), st') /\
       nth_error operations (Z.to_nat (bits st (rng_pos st) mod 5)) =
         Some (cycle_pick st) /\
       history st' = history st ++ evs /\
       exported evs = children ++ [root] /\
       name root = "bg-" +:+ (cycle_pick st).1 /\
       parent_span_id root = None /\
       cycle_number root = Some (VInt (cyc + 1)) /\
       map name children = (cycle_pick st).2 /\
       Forall (child_of (context root)) children /\
       stack st' = []) /\
  (forall cycles st,
     stack st = [] ->
     exists st' evs,
       background_mlt_emitter cycles st = (Normal (Z.of_nat cycles), st') /\
       history st' = history st ++ evs /\
       map cycle_number (root_spans (exported evs)) =
         map (fun k => Some (VInt (Z.of_nat k))) (seq 1 cycles)).
Proof.
  split; [reflexivity |]. split.
  - intros cyc st Hst.
    destruct (emitter_cycle_runs cyc st Hst)
      as (st' & root & started & completed & evs & duration & pause & Hrun & Hstack &
          _ & Hhist & Hall & Hnames & _ & Hname & Hparent & Hattrs & _).
    exists st', root, (exported evs). eexists.
    split; [exact Hrun |].
    split.
    { unfold cycle_pick. cbn [length operations]. change (Z.of_nat 5) with 5.
      apply nth_error_nth'.
      pose proof (Z.mod_pos_bound (bits st (rng_pos st)) 5 ltac:(lia)).
      cbn [length operations]. lia. }
    split; [exact Hhist |].
    split; [cbn [app exported]; rewrite exported_app; reflexivity |].
    split; [exact Hname |]. split; [exact Hparent |].
    split; [unfold cycle_number; rewrite Hattrs; reflexivity |].
    split; [exact Hnames |].
    split; [now apply step_emissions_exported | exact Hstack].
  - intros cycles st Hst.
    destruct (emitter_loop_runs cycles 0 st Hst) as (st' & evs & Hloop & _ & Hhist & Hcyc & _).
    exists st', evs. unfold background_mlt_emitter.
    split; [exact Hloop |]. split; [exact Hhist |]. exact Hcyc.
Qed.

Lemma cycle_follows_catalog_witness :
  stack (initial_state (fun _ => 41)) = [] /\
  exists st' evs,
    background_mlt_emitter 3 (initial_state (fun _ => 41)) = (Normal 3, st') /\
    history st' = evs /\
    map cycle_number (root_spans (exported evs)) =
      [Some (VInt 1); Some (VInt 2); Some (VInt 3)].
Proof.
  split; [reflexivity |].
  destruct (proj2 (proj2 cycle_follows_catalog) 3%nat (initial_state (fun _ => 41)) eq_refl)
    as (st' & evs & Hrun & Hhist & Hcyc).
  exists st', evs. split; [exact Hrun |]. split; [exact Hhist |]. exact Hcyc.
Defined.

(** ** Concurrent writers *)

Module ConcurrentFacts.
Import Concurrent.

Lemma owed_all_insert s (ws : list Writer) i w w' :
  ws !! i = Some w ->
  owed_all s (<[i := w']> ws) = owed_all s ws - owed s w + owed s w'.
Proof.
  revert i. induction ws as [| w0 ws IH]; intros [| i] H; try discriminate.
  - cbn in H. injection H as ->. cbn. lia.
  - cbn in H. change (<[S i := w']> (w0 :: ws)) with (w0 :: <[i := w']> ws).
    cbn [owed_all]. rewrite (IH i H). lia.
Qed.

Lemma owed_all_idle s calls :
  owed_all s (map idle_writer calls) = recorded s (map idle_writer calls).
Proof. induction calls as [| c calls IH]; cbn; [reflexivity | now rewrite IH]. Qed.

Lemma owed_finished s w : finished w = true -> owed s w = 0.
Proof.
  unfold finished, owed. destruct (pending w), (phase w); try discriminate.
  reflexivity.
Qed.

Lemma owed_all_finished s ws : forallb finished ws = true -> owed_all s ws = 0.
Proof.
  induction ws as [| w ws IH]; cbn; [reflexivity |].
  intros [Hw Hws]%andb_true_iff. rewrite (owed_finished s w Hw), (IH Hws). reflexivity.
Qed.

Lemma coherent_start vals calls : coherent (start vals calls).
Proof.
  unfold coherent, start. cbn [fst snd locks values].
  split; [| split].
  - intros i w Hw Hph. apply list_lookup_fmap_Some in Hw as (c & -> & _).
    now cbn in Hph.
  - intros i w v Hw Hph. apply list_lookup_fmap_Some in Hw as (c & -> & _).
    discriminate.
  - intros s i H. rewrite lookup_empty in H. discriminate.
Qed.

(** The cases of [step]. *)
Lemma step_cases i reg ws c' :
  step i (reg, ws) = Some c' ->
  exists w s d rest,
    ws !! i = Some w /\ pending w = (s, d) :: rest /\
    ((phase w = Idle /\ locks reg !! s = None /\
      c' = ({| locks := <[s := i]> (locks reg); values := values reg |},
            <[i := {| pending := pending w; phase := Locked |}]> ws)) \/
     (phase w = Locked /\
      c' = (reg, <[i := {| pending := pending w;
                            phase := Loaded (series_value (values reg) s) |}]> ws)) \/
     (exists v, phase w = Loaded v /\
      c' = ({| locks := locks reg; values := <[s := v + d]> (values reg) |},
            <[i := {| pending := pending w; phase := Stored |}]> ws)) \/
     (phase w = Stored /\
      c' = ({| locks := delete s (locks reg); values := values reg |},
            <[i := {| pending := rest; phase := Idle |}]> ws))).
Proof.
  unfold step. destruct (ws !! i) as [w |] eqn:Hw; [| discriminate].
  destruct (pending w) as [| [s d] rest] eqn:Hp; [discriminate |].
  intros H. exists w, s, d, rest. split; [reflexivity |]. split; [exact Hp |].
  rewrite Hp.
  destruct (phase w) as [| | v |] eqn:Hph.
  - destruct (locks reg !! s) eqn:Hl; [discriminate |]. injection H as <-. left. auto.
  - injection H as <-. right. left. auto.
  - injection H as <-. right. right. left. eauto.
  - injection H as <-. right. right. right. auto.
Qed.

Lemma lookup_updated (ws : list Writer) i j w w' wj :
  ws !! i = Some w -> <[i := w']> ws !! j = Some wj ->
  (j = i /\ wj = w') \/ (j <> i /\ ws !! j = Some wj).
Proof.
  intros Hw Hj. destruct (decide (j = i)) as [-> | Hne].
  - left. split; [reflexivity |].
    rewrite list_lookup_insert_eq in Hj by (eapply lookup_lt_Some; eauto).
    congruence.
  - right. split; [assumption |]. now rewrite list_lookup_insert_ne in Hj by auto.
Qed.

Lemma lookup_kept (ws : list Writer) i j w' wj :
  j <> i -> ws !! j = Some wj -> <[i := w']> ws !! j = Some wj.
Proof. intros Hne H. now rewrite list_lookup_insert_ne by auto. Qed.

Lemma lookup_new (ws : list Writer) i w w' :
  ws !! i = Some w -> <[i := w']> ws !! i = Some w'.
Proof. intros H. apply list_lookup_insert_eq. eapply lookup_lt_Some; eauto. Qed.

(** A step keeps the locks and the phases in agreement. *)
Lemma step_coherent i c c' : coherent c -> step i c = Some c' -> coherent c'.
Proof.
  destruct c as [reg ws]. intros (HA & HB & HC) Hstep.
  cbn [fst snd] in HA, HB, HC.
  destruct (step_cases i reg ws c' Hstep) as (w & s & d & rest & Hw & Hp & Hcase).
  destruct Hcase as [(Hph & Hfree & ->) | [(Hph & ->) | [(v & Hph & ->) | (Hph & ->)]]];
    unfold coherent; cbn [fst snd locks values]; (split; [| split]).
  - (* acquire *)
    intros j wj Hj Hact. destruct (lookup_updated _ _ _ _ _ _ Hw Hj) as [[-> ->] | [Hne Hj']].
    + exists s, d, rest. cbn. split; [assumption | apply lookup_insert_eq].
    + destruct (HA j wj Hj' Hact) as (sj & dj & rj & Hpj & Hlj).
      exists sj, dj, rj. split; [assumption |].
      rewrite lookup_insert_ne; [assumption | congruence].
  - intros j wj vj Hj Hl. destruct (lookup_updated _ _ _ _ _ _ Hw Hj) as [[-> ->] | [Hne Hj']].
    + discriminate.
    + exact (HB j wj vj Hj' Hl).
  - intros s0 i0 Hl. destruct (decide (s0 = s)) as [-> | Hne].
    + rewrite lookup_insert_eq in Hl. injection Hl as <-.
      eexists _, d, rest. split; [eapply lookup_new; eauto |]. cbn. split; [discriminate | assumption].
    + rewrite lookup_insert_ne in Hl by auto.
      destruct (HC s0 i0 Hl) as (w0 & d0 & r0 & Hw0 & Hact & Hp0).
      exists w0, d0, r0. split; [| auto]. apply lookup_kept; [| assumption].
      intros ->. congruence.
  - (* load *)
    intros j wj Hj Hact. destruct (lookup_updated _ _ _ _ _ _ Hw Hj) as [[-> ->] | [Hne Hj']].
    + destruct (HA i w Hw ltac:(congruence)) as (s' & d' & r' & Hp' & Hl').
      exists s', d', r'. cbn. auto.
    + exact (HA j wj Hj' Hact).
  - intros j wj vj Hj Hl. destruct (lookup_updated _ _ _ _ _ _ Hw Hj) as [[-> ->] | [Hne Hj']].
    + cbn in Hl. injection Hl as <-. exists s, d, rest. cbn. auto.
    + exact (HB j wj vj Hj' Hl).
  - intros s0 i0 Hl. destruct (HC s0 i0 Hl) as (w0 & d0 & r0 & Hw0 & Hact & Hp0).
    destruct (decide (i0 = i)) as [-> | Hne].
    + eexists _, d0, r0. split; [eapply lookup_new; eauto |]. cbn.
      split; [discriminate | congruence].
    + exists w0, d0, r0. split; [| auto]. now apply lookup_kept.
  - (* store *)
    intros j wj Hj Hact. destruct (lookup_updated _ _ _ _ _ _ Hw Hj) as [[-> ->] | [Hne Hj']].
    + destruct (HA i w Hw ltac:(congruence)) as (s' & d' & r' & Hp' & Hl').
      exists s', d', r'. cbn. auto.
    + exact (HA j wj Hj' Hact).
  - intros j wj vj Hj Hl. destruct (lookup_updated _ _ _ _ _ _ Hw Hj) as [[-> ->] | [Hne Hj']].
    + discriminate.
    + destruct (HB j wj vj Hj' Hl) as (sj & dj & rj & Hpj & ->).
      exists sj, dj, rj. split; [assumption |].
      symmetry. apply series_value_insert_ne. intros <-.
      destruct (HA i w Hw ltac:(congruence)) as (s' & d' & r' & Hp' & Hl').
      destruct (HA j wj Hj' ltac:(congruence)) as (s'' & d'' & r'' & Hp'' & Hl'').
      congruence.
  - intros s0 i0 Hl. destruct (HC s0 i0 Hl) as (w0 & d0 & r0 & Hw0 & Hact & Hp0).
    destruct (decide (i0 = i)) as [-> | Hne].
    + eexists _, d0, r0. split; [eapply lookup_new; eauto |]. cbn.
      split; [discriminate | congruence].
    + exists w0, d0, r0. split; [| auto]. now apply lookup_kept.
  - (* release *)
    intros j wj Hj Hact. destruct (lookup_updated _ _ _ _ _ _ Hw Hj) as [[-> ->] | [Hne Hj']].
    + now cbn in Hact.
    + destruct (HA j wj Hj' Hact) as (sj & dj & rj & Hpj & Hlj).
      exists sj, dj, rj. split; [assumption |].
      rewrite lookup_delete_ne; [assumption |]. intros <-.
      destruct (HA i w Hw ltac:(congruence)) as (s' & d' & r' & Hp' & Hl').
      congruence.
  - intros j wj vj Hj Hl. destruct (lookup_updated _ _ _ _ _ _ Hw Hj) as [[-> ->] | [Hne Hj']].
    + discriminate.
    + exact (HB j wj vj Hj' Hl).
  - intros s0 i0 Hl. apply lookup_delete_Some in Hl as [Hne Hl].
    destruct (HC s0 i0 Hl) as (w0 & d0 & r0 & Hw0 & Hact & Hp0).
    exists w0, d0, r0. split; [| auto]. apply lookup_kept; [| assumption].
    intros ->. congruence.
Qed.

(** What the registry holds and what the writers still owe add up to the
    same amount before and after a step: no update is lost or made twice. *)
Lemma step_total s i c c' :
  coherent c -> step i c = Some c' ->
  value_of c' s + owed_all s c'.2 = value_of c s + owed_all s c.2.
Proof.
  destruct c as [reg ws]. intros (HA & HB & HC) Hstep.
  cbn [fst snd] in HA, HB, HC.
  destruct (step_cases i reg ws c' Hstep) as (w & s0 & d & rest & Hw & Hp & Hcase).
  destruct Hcase as [(Hph & Hfree & ->) | [(Hph & ->) | [(v & Hph & ->) | (Hph & ->)]]];
    unfold value_of; cbn [fst snd locks values];
    rewrite (owed_all_insert s ws i w _ Hw); unfold owed; cbn [phase pending];
    rewrite Hph, ?Hp.
  - lia.
  - lia.
  - destruct (HB i w v Hw Hph) as (s1 & d1 & r1 & Hp1 & ->).
    assert (s1 = s0) as -> by congruence.
    cbn [deltas_for]. destruct (decide (s0 = s)) as [-> | Hne].
    + rewrite series_value_insert_eq, bool_decide_eq_true_2 by reflexivity. lia.
    + rewrite series_value_insert_ne, bool_decide_eq_false_2 by assumption. lia.
  - lia.
Qed.

Lemma positive_pending_insert ws i w w' :
  ws !! i = Some w -> positive_pending ws ->
  Forall (fun c : Series * Z => 0 < c.2) (pending w') ->
  positive_pending (<[i := w']> ws).
Proof. intros Hw Hall Hw'. now apply Forall_insert. Qed.

(** With positive deltas a step never lowers a series. *)
Lemma step_monotone s i c c' :
  coherent c -> positive_pending c.2 -> step i c = Some c' ->
  value_of c s <= value_of c' s /\ positive_pending c'.2.
Proof.
  destruct c as [reg ws]. intros (HA & HB & HC) Hpos Hstep.
  cbn [fst snd] in HA, HB, HC, Hpos.
  destruct (step_cases i reg ws c' Hstep) as (w & s0 & d & rest & Hw & Hp & Hcase).
  assert (Hwpos : Forall (fun c : Series * Z => 0 < c.2) (pending w)).
  { unfold positive_pending in Hpos. rewrite Forall_lookup in Hpos. exact (Hpos i w Hw). }
  destruct Hcase as [(Hph & Hfree & ->) | [(Hph & ->) | [(v & Hph & ->) | (Hph & ->)]]];
    unfold value_of; cbn [fst snd locks values].
  - split; [lia |]. eapply positive_pending_insert; eauto.
  - split; [lia |]. eapply positive_pending_insert; eauto.
  - split; [| eapply positive_pending_insert; eauto].
    destruct (HB i w v Hw Hph) as (s1 & d1 & r1 & Hp1 & ->).
    assert (s1 = s0) as -> by congruence.
    rewrite Hp in Hwpos. apply Forall_cons in Hwpos as [Hd _]. cbn in Hd.
    destruct (decide (s0 = s)) as [-> | Hne].
    + rewrite series_value_insert_eq. lia.
    + rewrite series_value_insert_ne by assumption. lia.
  - split; [lia |]. eapply positive_pending_insert; eauto. cbn.
    rewrite Hp in Hwpos. now apply Forall_cons in Hwpos as [_ Hrest].
Qed.

Lemma run_app pre post c : run (pre ++ post) c = run post (run pre c).
Proof.
  revert c. induction pre as [| i pre IH]; intros c; [reflexivity |].
  cbn [app run]. destruct (step i c); apply IH.
Qed.

Lemma run_invariant schedule : forall c s,
  coherent c ->
  coherent (run schedule c) /\
  value_of (run schedule c) s + owed_all s (run schedule c).2 =
    value_of c s + owed_all s c.2 /\
  (positive_pending c.2 ->
     value_of c s <= value_of (run schedule c) s /\
     positive_pending (run schedule c).2).
Proof.
  induction schedule as [| i schedule IH]; intros c s Hc; cbn [run].
  - split; [assumption |]. split; [reflexivity |]. intros Hpos. split; [lia | assumption].
  - destruct (step i c) as [c1 |] eqn:Hstep; [| apply IH; assumption].
    pose proof (step_coherent i c c1 Hc Hstep) as Hc1.
    destruct (IH c1 s Hc1) as (Hcoh & Htot & Hmono).
    split; [assumption |].
    split; [rewrite Htot; now apply (step_total s i c c1) |].
    intros Hpos. destruct (step_monotone s i c c1 Hc Hpos Hstep) as [Hle Hpos1].
    destruct (Hmono Hpos1) as [Hle' Hpos']. split; [lia | assumption].
Qed.

Lemma positive_start vals calls :
  positive_deltas calls -> positive_pending (start vals calls).2.
Proof.
  unfold positive_deltas, positive_pending, start. cbn [snd].
  intros H. apply Forall_fmap. exact H.
Qed.

(** Unless every writer is done, some writer can move. *)
Lemma progress c :
  coherent c -> all_finished c = false -> exists i c', step i c = Some c'.
Proof.
  destruct c as [reg ws]. intros (HA & HB & HC) Hnot.
  cbn [fst snd] in HA, HB, HC. unfold all_finished in Hnot. cbn [snd] in Hnot.
  assert (Hex : exists i w, ws !! i = Some w /\ finished w = false).
  { clear HA HB HC. induction ws as [| w ws IH]; [discriminate |].
    cbn in Hnot. destruct (finished w) eqn:Hf.
    - destruct (IH Hnot) as (i & w' & Hi & Hw'). exists (S i), w'. auto.
    - exists 0%nat, w. auto. }
  destruct Hex as (i & w & Hw & Hf).
  assert (Hmove : forall j wj, ws !! j = Some wj -> phase wj <> Idle ->
            exists c', step j (reg, ws) = Some c').
  { intros j wj Hj Hact. destruct (HA j wj Hj Hact) as (s & d & rest & Hp & _).
    unfold step. rewrite Hj, Hp. destruct (phase wj); [congruence | eauto ..]. }
  destruct (phase w) eqn:Hph;
    try (destruct (Hmove i w Hw ltac:(congruence)) as [c' Hc']; now exists i, c').
  unfold finished in Hf. rewrite Hph in Hf.
  destruct (pending w) as [| [s d] rest] eqn:Hp; [discriminate |].
  destruct (locks reg !! s) as [j |] eqn:Hl.
  - destruct (HC s j Hl) as (wj & dj & rj & Hj & Hact & _).
    destruct (Hmove j wj Hj Hact) as [c' Hc']. now exists j, c'.
  - exists i. unfold step. rewrite Hw, Hp, Hph, Hl. eauto.
Qed.

(** C7: [N] writers add to the series of the registry under any
    interleaving of the steps of their [add] calls.  When all writers are
    done, every series holds its initial value plus the sum of all the
    deltas recorded for it; while they run, some writer can always move;
    and when all deltas are positive a series never goes down from one
    instant of the schedule to a later one. *)
Theorem no_update_lost (vals : gmap Series Z) (calls : list (list (Series * Z)))
    (schedule : list nat) (s : Series) :
  let c := run schedule (start vals calls) in
  (all_finished c = true ->
     value_of c s = series_value vals s + recorded s (map idle_writer calls)) /\
  (all_finished c = false -> exists i c', step i c = Some c') /\
  (positive_deltas calls ->
     forall earlier later, schedule = earlier ++ later ->
       value_of (run earlier (start vals calls)) s <= value_of c s).
Proof.
  intros c. subst c.
  pose proof (coherent_start vals calls) as Hstart.
  destruct (run_invariant schedule (start vals calls) s Hstart) as (Hcoh & Htot & _).
  split; [| split].
  - intros Hdone. unfold all_finished in Hdone.
    rewrite (owed_all_finished s _ Hdone) in Htot.
    change (owed_all s (start vals calls).2) with (owed_all s (map idle_writer calls)) in Htot.
    change (value_of (start vals calls) s) with (series_value vals s) in Htot.
    rewrite owed_all_idle in Htot. lia.
  - now apply progress.
  - intros Hpos earlier later ->. rewrite run_app.
    destruct (run_invariant earlier (start vals calls) s Hstart) as (Hcoh1 & _ & Hmono1).
    destruct (Hmono1 (positive_start vals calls Hpos)) as [_ Hpos1].
    destruct (run_invariant later _ s Hcoh1) as (_ & _ & Hmono2).
    now destruct (Hmono2 Hpos1).
Qed.

Lemma no_update_lost_witness :
  all_finished (run two_writers_schedule (start ∅ two_writers)) = true /\
  positive_deltas two_writers /\
  value_of (run two_writers_schedule (start ∅ two_writers)) home_series = 8 /\
  value_of (run [0; 1; 0; 1; 0]%nat (start ∅ two_writers)) home_series <=
    value_of (run two_writers_schedule (start ∅ two_writers)) home_series.
Proof.
  assert (Hdone : all_finished (run two_writers_schedule (start ∅ two_writers)) = true)
    by (vm_compute; reflexivity).
  assert (Hpos : positive_deltas two_writers) by (repeat constructor).
  destruct (no_update_lost ∅ two_writers two_writers_schedule home_series)
    as (Hsum & _ & Hmono).
  split; [exact Hdone |]. split; [exact Hpos |]. split.
  - rewrite (Hsum Hdone). vm_compute. reflexivity.
  - apply (Hmono Hpos [0; 1; 0; 1; 0]%nat [0; 1; 0; 1; 1; 1; 0; 0; 0; 0]%nat). reflexivity.
Defined.

End ConcurrentFacts.

(** * Further properties *)

(** ** The log formatter *)

Lemma dict_has_get k d : dict_has k d = true <-> exists v, dict_get k d = Some v.
Proof.
  unfold dict_has. destruct (dict_get k d) as [v |].
  - split; [eauto | reflexivity].
  - split; [discriminate | intros [v Hv]; discriminate].
Qed.

Lemma dict_has_keys k d : dict_has k d = true <-> In k (keys d).
Proof.
  unfold dict_has, keys. induction d as [| [k' v'] d IH]; cbn.
  - split; [discriminate | contradiction].
  - destruct (String.eqb_spec k' k) as [-> | Hne].
    + split; auto.
    + rewrite IH. split; [auto | intros [H | H]; [contradiction | assumption]].
Qed.

(** Setting a key changes no other key's place: a known key stays where
    it is, a new key goes to the end. *)
Lemma keys_dict_set k v d :
  keys (dict_set k v d) = if dict_has k d then keys d else keys d ++ [k].
Proof.
  unfold keys, dict_has. induction d as [| [k' v'] d IH]; cbn; [reflexivity |].
  destruct (String.eqb_spec k' k) as [-> | Hne]; cbn; [reflexivity |].
  rewrite IH. destruct (dict_get k d); reflexivity.
Qed.

Lemma keys_dict_set_nodup k v d : NoDup (keys d) -> NoDup (keys (dict_set k v d)).
Proof.
  intros Hd. rewrite keys_dict_set. destruct (dict_has k d) eqn:Hk; [assumption |].
  apply NoDup_app. split; [assumption |]. split; [| apply NoDup_singleton].
  intros x Hx [-> | []]%list_elem_of_In. apply list_elem_of_In, dict_has_keys in Hx. congruence.
Qed.

Lemma dict_update_cons k v extra d :
  dict_update d ((k, v) :: extra) = dict_update (dict_set k v d) extra.
Proof. reflexivity. Qed.

Lemma keys_dict_update extra : forall d,
  NoDup (keys d) ->
  NoDup (keys (dict_update d extra)) /\
  exists more,
    keys (dict_update d extra) = keys d ++ more /\
    forall k, In k more -> In k (keys extra).
Proof.
  induction extra as [| [k v] extra IH]; intros d Hd.
  - split; [assumption |]. exists []. rewrite app_nil_r. split; [reflexivity | contradiction].
  - rewrite dict_update_cons.
    destruct (IH (dict_set k v d) (keys_dict_set_nodup k v d Hd)) as (Hnd & more & Hkeys & Hmore).
    split; [assumption |]. rewrite Hkeys, keys_dict_set.
    destruct (dict_has k d).
    + exists more. split; [reflexivity |]. intros k0 H0. right. auto.
    + exists (k :: more). rewrite <- app_assoc. split; [reflexivity |].
      intros k0 [<- | H0]; [now left | right; auto].
Qed.

Lemma format_entry_keys (ctx : SpanContext) (r : LogRecord) :
  NoDup (keys (format_entry ctx r)) /\
  exists more,
    keys (format_entry ctx r) = own_keys ctx ++ more /\
    forall k, In k more ->
      exists extra, extra_data r = Some extra /\ In k (keys extra).
Proof.
  unfold format_entry, own_keys.
  set (base := [("timestamp", VTime (created r));
                ("level", VStr (getLevelName (levelno r)));
                ("logger", VStr (rec_name r));
                ("message", VStr (rec_msg r))]).
  set (own := if is_valid ctx
              then dict_set "spanID" (VStr (Hex.format_x 16 (span_id ctx)))
                     (dict_set "traceID" (VStr (Hex.format_x 32 (trace_id ctx))) base)
              else base).
  assert (Hown : keys own = ["timestamp"; "level"; "logger"; "message"] ++
                            (if is_valid ctx then ["traceID"; "spanID"] else [])).
  { unfold own. destruct (is_valid ctx); reflexivity. }
  assert (Hnd : NoDup (keys own)).
  { rewrite Hown. destruct (is_valid ctx); cbn;
      repeat (apply NoDup_cons; split;
              [rewrite list_elem_of_In; cbn; intuition discriminate |]);
      apply NoDup_nil_2. }
  destruct (extra_data r) as [extra |].
  - destruct (keys_dict_update extra own Hnd) as (Hnodup & more & Hkeys & Hmore).
    split; [assumption |]. exists more. rewrite Hkeys, Hown.
    split; [reflexivity |]. intros k Hk. exists extra. auto.
  - split; [assumption |]. exists []. rewrite app_nil_r.
    split; [assumption | contradiction].
Qed.

(** X1: a formatted entry never holds a key twice; it starts with
    timestamp, level, logger and message, followed by traceID and spanID
    exactly when the current span context is valid, whatever the extra
    fields are; every further key is one of the extra fields. *)
Theorem entry_keys_in_order (st : State) (r : LogRecord) :
  NoDup (keys (format st r)) /\
  exists more,
    keys (format st r) = own_keys (get_current_span_context st) ++ more /\
    forall k, In k more ->
      exists extra, extra_data r = Some extra /\ In k (keys extra).
Proof. apply format_entry_keys. Qed.

Lemma dict_get_update_last extra : forall d k v,
  NoDup (keys extra) -> In (k, v) extra ->
  dict_get k (dict_update d extra) = Some v.
Proof.
  induction extra as [| [k' v'] extra IH]; intros d k v Hnd Hin; [contradiction |].
  rewrite dict_update_cons. cbn [keys map fst] in Hnd.
  apply NoDup_cons in Hnd as [Hnew Hnd].
  destruct Hin as [Heq | Hin].
  - injection Heq as -> ->.
    rewrite dict_get_update; [apply dict_get_set_eq |].
    destruct (dict_has k extra) eqn:Hk; [| reflexivity].
    apply dict_has_keys in Hk. exfalso. apply Hnew. now apply list_elem_of_In.
  - now apply IH.
Qed.

(** X2: every extra field the caller passes appears in the entry under its
    key with the caller's value, also when the key is one the formatter
    writes itself; and a key of the formatter that the extra fields do not
    use keeps the formatter's value, so the message is the record's. *)
Theorem extra_fields_in_entry (st : State) (r : LogRecord) (extra : Dict) :
  extra_data r = Some extra ->
  NoDup (keys extra) ->
  (forall k v, In (k, v) extra -> dict_get k (format st r) = Some v) /\
  (dict_has "message" extra = false ->
   dict_get "message" (format st r) = Some (VStr (rec_msg r))) /\
  (dict_has "level" extra = false ->
   dict_get "level" (format st r) = Some (VStr (getLevelName (levelno r)))).
Proof.
  intros Hextra Hnd. unfold format, format_entry. rewrite Hextra.
  split; [| split].
  - intros k v Hin. now apply dict_get_update_last.
  - intros Hfree. rewrite dict_get_update by assumption.
    destruct (is_valid _); reflexivity.
  - intros Hfree. rewrite dict_get_update by assumption.
    destruct (is_valid _); reflexivity.
Qed.

Lemma extra_fields_in_entry_witness :
  extra_data record_with_own_key =
    Some [("order_id", VStr "ORD-1234"); ("message", VStr "mine")] /\
  NoDup (keys [("order_id", VStr "ORD-1234"); ("message", VStr "mine")]) /\
  dict_get "message" (format state_in_span record_with_own_key) = Some (VStr "mine").
Proof.
  assert (Hnd : NoDup (keys [("order_id", VStr "ORD-1234"); ("message", VStr "mine")])).
  { repeat (apply NoDup_cons; split;
            [rewrite list_elem_of_In; cbn; intuition discriminate |]).
    apply NoDup_nil_2. }
  split; [reflexivity |]. split; [exact Hnd |].
  refine (proj1 (extra_fields_in_entry state_in_span record_with_own_key _ eq_refl Hnd)
            "message" _ _).
  right. left. reflexivity.
Defined.

(** ** Level names *)






(** ** Responses and the request counter *)

Section Accounting.

Lemma counted_app l1 l2 : counted (l1 ++ l2) = counted l1 ++ counted l2.
Proof.
  induction l1 as [| e l1 IH]; [reflexivity |].
  destruct e; cbn; rewrite ?IH; try reflexivity.
  destruct (_ =? _)%string; cbn; now rewrite ?IH.
Qed.

Lemma silent_pure {A} (f : State -> A) : silent (fun st => (Normal (f st), st)).
Proof. intros st. exists (f st), []. cbn. rewrite app_nil_r. auto. Qed.

Lemma silent_ret {A} (a : A) : silent (mret a).
Proof. apply (silent_pure (fun _ => a)). Qed.

Lemma silent_bind {A B} (m : M A) (k : A -> M B) :
  silent m -> (forall a, silent (k a)) -> silent (m ≫= k).
Proof.
  intros Hm Hk st. unfold mbind, M_bind, bind.
  destruct (Hm st) as (a & evs1 & Ho & Hh & Hc).
  destruct (m st) as [o st1]. cbn [fst snd] in *. subst o.
  destruct (Hk a st1) as (b & evs2 & Ho2 & Hh2 & Hc2).
  exists b, (evs1 ++ evs2). rewrite Hh2, Hh, counted_app, Hc, Hc2, app_assoc. auto.
Qed.

Lemma silent_modify (f : State -> State) (evs : State -> list Emission) :
  (forall st, history (f st) = history st ++ evs st) ->
  (forall st, counted (evs st) = []) -> silent (modify f).
Proof. intros Hh Hc st. exists tt, (evs st). cbn. auto. Qed.

Lemma silent_time_time : silent time_time.
Proof. apply (silent_pure clock). Qed.

Lemma silent_time_sleep d : silent (time_sleep d).
Proof. apply (silent_modify _ (fun _ => [Slept d])); reflexivity. Qed.

Lemma silent_next_draw : silent next_draw.
Proof. intros st. eexists _, []. cbn. rewrite app_nil_r. auto. Qed.

Lemma silent_random_random : silent random_random.
Proof. apply silent_bind; [apply silent_next_draw | intros; apply silent_ret]. Qed.

Lemma silent_random_uniform a b : silent (random_uniform a b).
Proof. apply silent_bind; [apply silent_random_random | intros; apply silent_ret]. Qed.

Lemma silent_random_randint a b : silent (random_randint a b).
Proof. apply silent_bind; [apply silent_next_draw | intros; apply silent_ret]. Qed.

Lemma silent_logger_handle r : silent (logger_handle r).
Proof.
  apply (silent_modify _ (fun st => [LogEmitted (format st r)])); reflexivity.
Qed.

Lemma silent_log_with_context message level extra :
  logging_level (upper level) <> None -> silent (log_with_context message level extra).
Proof.
  intros Hlvl. unfold log_with_context.
  destruct (logging_level (upper level)) as [lvl |]; [| congruence].
  apply silent_bind; [apply silent_time_time |]. intros now.
  apply silent_logger_handle.
Qed.

Lemma silent_add i delta l :
  instr_name i <> "http_requests_total" -> silent (add i delta l).
Proof.
  intros Hne. apply (silent_modify _ (fun _ => [CounterAdd (instr_name i) l delta])).
  - reflexivity.
  - intros _. cbn. apply String.eqb_neq in Hne. now rewrite Hne.
Qed.

Lemma silent_record i v l : silent (record i v l).
Proof. apply (silent_modify _ (fun _ => [HistogramRecord (instr_name i) l v])); reflexivity. Qed.

Lemma silent_mutate_span h f : silent (mutate_span h f).
Proof.
  intros st. unfold mutate_span. destruct (update_span h f (stack st)).
  - exists tt, []. cbn. rewrite app_nil_r. auto.
  - exists tt, [UsageError "span is not open"]. cbn. auto.
Qed.

Lemma silent_add_event h ev attrs : silent (add_event h ev attrs).
Proof. apply silent_bind; [apply silent_time_time | intros; apply silent_mutate_span]. Qed.

Lemma silent_open_span n : silent (open_span n).
Proof.
  intros st.
  destruct (open_span_pushes n st) as (s & st' & Hrun & _ & _ & _ & Hh & _).
  exists (next_handle st), []. rewrite Hrun. cbn [fst snd].
  rewrite Hh, app_nil_r. auto.
Qed.

Lemma silent_close_span h : silent (close_span h).
Proof.
  intros st. unfold close_span.
  destruct (stack st) as [| s rest]; [| destruct (handle s =? h)%nat];
    eexists tt, [_]; cbn; auto.
Qed.

Lemma accounts_weaken {A} n n' (E E' : Exc -> Prop) codes (m : M A) :
  accounts n E codes m -> (n = true -> n' = true) -> (forall e, E e -> E' e) ->
  accounts n' E' codes m.
Proof.
  intros Hm Hn HE st. destruct (Hm st) as (evs & Hh & Ho).
  exists evs. split; [assumption |].
  destruct (m st).1; intuition.
Qed.

Lemma silent_accounts {A} E codes (m : M A) : silent m -> accounts true E codes m.
Proof.
  intros Hm st. destruct (Hm st) as (a & evs & Ho & Hh & Hc).
  exists evs. rewrite Ho. auto.
Qed.

Lemma silent_settles {A} code (m : M A) : silent m -> settles code true m.
Proof.
  intros Hm st. destruct (Hm st) as (a & evs & Ho & Hh & Hc).
  exists evs. rewrite Ho. auto.
Qed.

Lemma accounts_raise {A} n (E : Exc -> Prop) codes e : E e -> accounts n E codes (@raise A e).
Proof. intros He st. exists []. cbn. rewrite app_nil_r. auto. Qed.

Lemma settles_return {A} code n r : http_status r = code -> settles code n (@return_ A r).
Proof. intros Hr st. exists []. cbn. rewrite app_nil_r. auto. Qed.

Lemma accounts_bind {A B} n1 n2 E codes (m : M A) (k : A -> M B) :
  accounts n1 E codes m -> (forall a, accounts n2 E codes (k a)) ->
  accounts n2 E codes (m ≫= k).
Proof.
  intros Hm Hk st. unfold mbind, M_bind, bind.
  destruct (Hm st) as (evs1 & Hh & Ho).
  destruct (m st) as [[a | r | e] st1]; cbn [fst snd] in *.
  - destruct Ho as [_ Hc]. destruct (Hk a st1) as (evs2 & Hh2 & Ho2).
    exists (evs1 ++ evs2). rewrite Hh2, Hh, app_assoc. split; [reflexivity |].
    destruct (k a st1).1; rewrite counted_app, Hc; exact Ho2.
  - exists evs1. auto.
  - exists evs1. auto.
Qed.

Lemma settles_bind {A B} code n (m : M A) (k : A -> M B) :
  settles code true m -> (forall a, settles code n (k a)) -> settles code n (m ≫= k).
Proof.
  intros Hm Hk st. unfold mbind, M_bind, bind.
  destruct (Hm st) as (evs1 & Hh & Hc & Ho).
  destruct (m st) as [[a | r | e] st1]; cbn [fst snd] in *.
  - destruct (Hk a st1) as (evs2 & Hh2 & Hc2 & Ho2).
    exists (evs1 ++ evs2). rewrite Hh2, Hh, app_assoc, counted_app, Hc, Hc2. auto.
  - exists evs1. auto.
  - contradiction.
Qed.

(** The increment of the request counter, with what follows it. *)
Lemma accounts_counted {A} code n E codes (lbls : Labels) (k : unit -> M A) :
  lbls !! "status" = Some (pretty code) -> In code codes ->
  (forall u, settles code false (k u)) ->
  accounts n E codes (add request_counter 1 lbls ≫= k).
Proof.
  intros Hlbl Hin Hk st. unfold mbind, M_bind, bind, add, modify.
  match goal with |- context [k tt ?s] => destruct (Hk tt s) as (evs & Hh & Hc & Ho); set (st1 := s) in * end.
  exists ([CounterAdd "http_requests_total" lbls 1] ++ evs).
  cbn [fst snd]. rewrite Hh. subst st1. cbn [history emit set_counters request_counter instr_name create_counter].
  rewrite <- app_assoc. split; [reflexivity |].
  destruct (k tt _).1 as [a | r | e]; [discriminate | | contradiction].
  cbn [app counted]. cbn. rewrite Hc, Hlbl, Ho. auto.
Qed.

Lemma accounts_try_except {A} n (E E' : Exc -> Prop) codes (m : M A) catches handler :
  accounts n E codes m ->
  (forall e, E e -> catches e = true -> accounts n E' codes (handler e)) ->
  (forall e, E e -> catches e = false -> E' e) ->
  accounts n E' codes (try_except m catches handler).
Proof.
  intros Hm Hh He st. unfold try_except.
  destruct (Hm st) as (evs1 & Hh1 & Ho).
  destruct (m st) as [[a | r | e] st1]; cbn [fst snd] in *.
  - exists evs1. auto.
  - exists evs1. auto.
  - destruct Ho as [HE Hc]. destruct (catches e) eqn:Hcatch.
    + destruct (Hh e HE Hcatch st1) as (evs2 & Hh2 & Ho2).
      exists (evs1 ++ evs2). rewrite Hh2, Hh1, app_assoc. split; [reflexivity |].
      destruct (handler e st1).1; rewrite counted_app, Hc; exact Ho2.
    + exists evs1. cbn. auto.
Qed.

Lemma accounts_try_finally {A} n E codes (m : M A) (fin : M unit) :
  accounts n E codes m -> silent fin -> accounts n E codes (try_finally m fin).
Proof.
  intros Hm Hfin st. unfold try_finally.
  destruct (Hm st) as (evs1 & Hh1 & Ho).
  destruct (m st) as [o st1]. cbn [fst snd] in *.
  destruct (Hfin st1) as (u & evs2 & Ho2 & Hh2 & Hc2).
  destruct (fin st1) as [o2 st2]. cbn [fst snd] in *. subst o2. cbn [fst snd].
  exists (evs1 ++ evs2). rewrite Hh2, Hh1, app_assoc. split; [reflexivity |].
  destruct o; rewrite counted_app, Hc2, app_nil_r; exact Ho.
Qed.

Lemma accounts_span {A} n E codes span_name (work : nat -> M A) :
  (forall h, accounts n E codes (work h)) ->
  accounts n E codes (start_as_current_span span_name work).
Proof.
  intros Hwork. unfold start_as_current_span.
  apply (accounts_bind true); [apply silent_accounts, silent_open_span |].
  intros h st. destruct (Hwork h st) as (evs1 & Hh1 & Ho).
  destruct (work h st) as [o st1]. cbn [fst snd] in *.
  destruct o as [a | r | e]; cbv beta iota; unfold mbind, M_bind, bind, raise.
  - destruct (silent_close_span h st1) as (u & evs2 & Ho2 & Hh2 & Hc2).
    destruct (close_span h st1) as [o2 st2]. cbn [fst snd] in *. subst o2. cbn [fst snd].
    exists (evs1 ++ evs2). rewrite Hh2, Hh1, app_assoc, counted_app, Hc2, app_nil_r. auto.
  - destruct (silent_close_span h st1) as (u & evs2 & Ho2 & Hh2 & Hc2).
    destruct (close_span h st1) as [o2 st2]. cbn [fst snd] in *. subst o2. cbn [fst snd].
    exists (evs1 ++ evs2). rewrite Hh2, Hh1, app_assoc, counted_app, Hc2, app_nil_r. auto.
  - assert (Hm : silent (record_exception h e ≫= fun _ =>
                         set_status h (Error (exc_type e +:+ ": " +:+ exc_msg e)) ≫= fun _ =>
                         close_span h)).
    { apply silent_bind; [apply silent_add_event | intros].
      apply silent_bind; [apply silent_mutate_span | intros; apply silent_close_span]. }
    destruct (Hm st1) as (u & evs2 & Ho2 & Hh2 & Hc2).
    exists (evs1 ++ evs2).
    revert Ho2 Hh2. unfold mbind, M_bind, bind.
    destruct (record_exception h e st1) as [[u1 | r1 | e1] s1]; cbn [fst snd]; try discriminate.
    destruct (set_status h _ s1) as [[u2 | r2 | e2] s2]; cbn [fst snd]; try discriminate.
    destruct (close_span h s2) as [[u3 | r3 | e3] s3]; cbn [fst snd]; try discriminate.
    intros _ Hh2. rewrite Hh2, Hh1, app_assoc, counted_app, Hc2, app_nil_r. auto.
Qed.

End Accounting.

Create HintDb silent.
#[local] Hint Resolve silent_ret silent_time_time silent_time_sleep silent_next_draw
  silent_random_random silent_random_uniform silent_random_randint silent_record
  silent_mutate_span silent_add_event silent_open_span silent_close_span
  silent_logger_handle : silent.

(** Discharges [silent] goals over the calls the handlers make. *)
Ltac hush :=
  repeat match goal with
  | |- silent (mbind _ _) => apply silent_bind; [| intros ?]
  | |- silent (log_with_context _ _ _) =>
      apply silent_log_with_context; vm_compute; discriminate
  | |- silent (add _ _ _) => apply silent_add; discriminate
  | |- silent (set_attribute _ _ _) => apply silent_mutate_span
  | |- silent (set_status _ _) => apply silent_mutate_span
  | |- silent (record_exception _ _) => apply silent_add_event
  | |- silent (if ?c then _ else _) => destruct c
  | |- silent _ => solve [auto with silent]
  end.

Ltac count_under code :=
  eapply (accounts_counted code);
  [vm_compute; reflexivity | cbn; tauto | intros ?].

(** Follows a handler's body down to its increments and responses. *)
Ltac account :=
  repeat match goal with
  | |- accounts _ _ _ (start_as_current_span _ _) => apply accounts_span; intros ?
  | |- accounts _ _ _ (try_finally _ _) => apply accounts_try_finally; [| hush]
  | |- accounts _ _ _ (add request_counter 1 _ ≫= _) =>
      first [count_under 200 | count_under 201 | count_under 404 | count_under 500]
  | |- accounts _ _ _ (if ?c then _ else _) => destruct c
  | |- accounts _ _ _ (raise _) => apply accounts_raise; reflexivity
  | |- accounts _ _ _ (mbind _ ?m) =>
      first [ apply (accounts_bind true); [apply silent_accounts; solve [hush] | intros ?]
            | eapply accounts_bind; [| intros ?] ]
  | |- accounts _ _ _ _ => apply silent_accounts; solve [hush]
  | |- settles _ _ (return_ _) => apply settles_return; reflexivity
  | |- settles _ _ (mbind _ _) =>
      apply settles_bind; [apply silent_settles; solve [hush] | intros ?]
  end.

Lemma home_accounts : accounts false (fun _ => False) (answers Home) home.
Proof. unfold home. account. Qed.

Lemma get_order_accounts order_id :
  accounts false (fun _ => False) (answers (GetOrder order_id)) (get_order order_id).
Proof. unfold get_order. account. Qed.

Lemma create_order_accounts :
  accounts false (fun _ => False) (answers CreateOrder) create_order.
Proof.
  unfold create_order. account.
  eapply (accounts_try_except _ (fun _ => True) (fun _ => False)).
  - account.
  - intros e _ _. account.
  - intros e _ H. discriminate.
Qed.

Lemma trigger_error_accounts :
  accounts false (fun _ => False) (answers TriggerError) trigger_error.
Proof.
  unfold trigger_error. account.
  eapply (accounts_try_except _ (eq simulated_error) (fun _ => False)).
  - account. unfold failing_operation. account.
    eapply (accounts_try_except _ (eq simulated_error) (eq simulated_error)).
    + account.
    + intros e <- _. account.
    + intros e <- H. vm_compute in H. discriminate.
  - intros e <- _. account.
  - intros e <- H. vm_compute in H. discriminate.
Qed.

(** X4: every request to an instrumented endpoint ends with a response:
    no handler lets an exception out or ends without returning.  The
    response has one of the endpoint's statuses (200 for the home page, 201
    or 500 for creating an order, 200 or 404 for reading one, 500 for the
    error endpoint), and the request is counted exactly once in
    [http_requests_total], by 1 and under the status label that spells the
    status of the response. *)
Theorem request_counted_as_answered (e : Endpoint) (st : State) :
  exists r evs,
    (dispatch e st).1 = Return r /\
    In (http_status r) (answers e) /\
    history (dispatch e st).2 = history st ++ evs /\
    counted evs = [(Some (pretty (http_status r)), 1)].
Proof.
  assert (H : accounts false (fun _ => False) (answers e) (dispatch e)).
  { destruct e; cbn [dispatch].
    - apply home_accounts.
    - apply create_order_accounts.
    - apply get_order_accounts.
    - apply trigger_error_accounts. }
  destruct (H st) as (evs & Hh & Ho).
  destruct (dispatch e st).1 as [u | r | ex].
  - destruct Ho as [Hn _]. discriminate.
  - exists r, evs. tauto.
  - destruct Ho as [[] _].
Qed.

(** ** The spans of a request *)

Lemma hangs_app p f1 l1 f2 l2 :
  hangs p f1 l1 -> hangs p f2 l2 -> hangs p (f1 ++ f2) (l1 ++ l2).
Proof.
  intros H1 H2. induction H1 as [| p n inner f s li lf Hn Hp Ht He Hi _ Hf IH].
  - exact H2.
  - rewrite <- app_assoc, <- !app_comm_cons.
    apply hangs_cons; auto.
Qed.

Lemma misuse_app l1 l2 : misuse (l1 ++ l2) = misuse l1 ++ misuse l2.
Proof.
  induction l1 as [| e l1 IH]; [reflexivity |].
  destruct e; cbn; rewrite ?IH; reflexivity.
Qed.

Lemma kept_same cur st st' : stack st' = stack st -> kept cur st st'.
Proof. intros H. destruct cur; cbn; rewrite H; auto. Qed.

Lemma kept_trans cur st1 st2 st3 :
  kept cur st1 st2 -> kept cur st2 st3 -> kept cur st1 st3.
Proof.
  destruct cur; cbn.
  - intros [H1 H2] [H3 H4]. split; congruence.
  - congruence.
Qed.

Lemma kept_frames cur st st' : kept cur st st' -> map frame (stack st') = map frame (stack st).
Proof. destruct cur; cbn; [tauto | congruence]. Qed.

Lemma kept_on_top cur st st' : kept cur st st' -> on_top cur st -> on_top cur st'.
Proof.
  intros Hk. apply kept_frames in Hk. destruct cur as [h |]; cbn; [| auto].
  unfold open_handles. intros Hh.
  destruct (stack st) as [| s l], (stack st') as [| s' l']; try discriminate; auto.
  cbn in *. assert (Hf : frame s' = frame s) by congruence.
  unfold frame in Hf. congruence.
Qed.

Lemma kept_current cur st st' :
  kept cur st st' -> context <$> current st' = context <$> current st.
Proof.
  intros Hk. apply kept_frames in Hk. unfold current.
  destruct (stack st) as [| s l], (stack st') as [| s' l']; try discriminate; auto.
  cbn in *. assert (Hf : frame s' = frame s) by congruence.
  unfold frame in Hf. congruence.
Qed.

Lemma plain_pure {A} (f : State -> A) : plain (fun st => (Normal (f st), st)).
Proof. intros st. exists (f st), []. cbn. rewrite app_nil_r. auto. Qed.

Lemma plain_ret {A} (a : A) : plain (mret a).
Proof. apply (plain_pure (fun _ => a)). Qed.

Lemma plain_bind {A B} (m : M A) (k : A -> M B) :
  plain m -> (forall a, plain (k a)) -> plain (m ≫= k).
Proof.
  intros Hm Hk st. unfold mbind, M_bind, bind.
  destruct (Hm st) as (a & evs1 & Ho & Hs & Hh & Hm1 & He1).
  destruct (m st) as [o st1]. cbn [fst snd] in *. subst o.
  destruct (Hk a st1) as (b & evs2 & Ho2 & Hs2 & Hh2 & Hm2 & He2).
  exists b, (evs1 ++ evs2).
  rewrite Hh2, Hh, Hs2, Hs, misuse_app, exported_app, Hm1, Hm2, He1, He2, app_assoc.
  auto.
Qed.

Lemma plain_modify (f : State -> State) (evs : State -> list Emission) :
  (forall st, stack (f st) = stack st) ->
  (forall st, history (f st) = history st ++ evs st) ->
  (forall st, misuse (evs st) = [] /\ exported (evs st) = []) -> plain (modify f).
Proof.
  intros Hs Hh Hc st. exists tt, (evs st). cbn. destruct (Hc st). auto.
Qed.

Lemma plain_time_time : plain time_time.
Proof. apply (plain_pure clock). Qed.

Lemma plain_time_sleep d : plain (time_sleep d).
Proof. apply (plain_modify _ (fun _ => [Slept d])); auto. Qed.

Lemma plain_next_draw : plain next_draw.
Proof. intros st. eexists _, []. cbn. rewrite app_nil_r. auto. Qed.

Lemma plain_random_random : plain random_random.
Proof. apply plain_bind; [apply plain_next_draw | intros; apply plain_ret]. Qed.

Lemma plain_random_uniform a b : plain (random_uniform a b).
Proof. apply plain_bind; [apply plain_random_random | intros; apply plain_ret]. Qed.

Lemma plain_random_randint a b : plain (random_randint a b).
Proof. apply plain_bind; [apply plain_next_draw | intros; apply plain_ret]. Qed.

Lemma plain_logger_handle r : plain (logger_handle r).
Proof. apply (plain_modify _ (fun st => [LogEmitted (format st r)])); auto. Qed.

Lemma plain_log_with_context message level extra :
  logging_level (upper level) <> None -> plain (log_with_context message level extra).
Proof.
  intros Hlvl. unfold log_with_context.
  destruct (logging_level (upper level)) as [lvl |]; [| congruence].
  apply plain_bind; [apply plain_time_time |]. intros now.
  apply plain_logger_handle.
Qed.

Lemma plain_add i delta l : plain (add i delta l).
Proof. apply (plain_modify _ (fun _ => [CounterAdd (instr_name i) l delta])); auto. Qed.

Lemma plain_record i v l : plain (record i v l).
Proof. apply (plain_modify _ (fun _ => [HistogramRecord (instr_name i) l v])); auto. Qed.

Lemma traced_plain {A} cur (m : M A) : plain m -> traced true cur [] m.
Proof.
  intros Hm st _. destruct (Hm st) as (a & evs & Ho & Hs & Hh & Hmis & Hex).
  split; [now apply kept_same |]. split; [eauto |].
  exists evs. rewrite Hex. repeat split; auto. constructor.
Qed.

(** Setting something on the current span. *)
Lemma traced_mutate h (f : Span -> Span) :
  (forall s, frame (f s) = frame s) -> traced true (Some h) [] (mutate_span h f).
Proof.
  intros Hf st Htop. unfold mutate_span, on_top, open_handles in *.
  destruct (stack st) as [| s rest] eqn:Hst; [discriminate |].
  cbn in Htop. injection Htop as Hh.
  cbn [update_span]. rewrite Hh, Nat.eqb_refl. cbn [fst snd stack set_stack].
  split; [cbn; rewrite Hst; cbn; now rewrite Hf |].
  split; [eauto |].
  exists []. cbn [history set_stack]. rewrite app_nil_r.
  repeat split; auto. constructor.
Qed.

Lemma traced_as {A} q q' cur f f' (m : M A) :
  traced q cur f m -> (q' = true -> q = true) -> f = f' -> traced q' cur f' m.
Proof.
  intros Hm Hq <- st Htop. destruct (Hm st Htop) as (Hk & Hn & Hevs).
  split; [exact Hk |]. split; [auto | exact Hevs].
Qed.

Lemma traced_return {A} cur r : traced false cur [] (@return_ A r).
Proof.
  intros st _. split; [now apply kept_same |]. split; [discriminate |].
  exists []. cbn. rewrite app_nil_r. repeat split; auto. constructor.
Qed.

Lemma traced_raise {A} cur e : traced false cur [] (@raise A e).
Proof.
  intros st _. split; [now apply kept_same |]. split; [discriminate |].
  exists []. cbn. rewrite app_nil_r. repeat split; auto. constructor.
Qed.

(** A block that runs to its end, then the rest. *)
Lemma traced_bind_quiet {A B} q cur f1 f2 (m : M A) (k : A -> M B) :
  traced true cur f1 m -> (forall a, traced q cur f2 (k a)) ->
  traced q cur (f1 ++ f2) (m ≫= k).
Proof.
  intros Hm Hk st Htop. unfold mbind, M_bind, bind.
  destruct (Hm st Htop) as (Hk1 & Hn1 & evs1 & Hh1 & Hm1 & Hf1).
  destruct (Hn1 eq_refl) as [a Ha].
  destruct (m st) as [o st1]. cbn [fst snd] in *. subst o.
  destruct (Hk a st1 (kept_on_top _ _ _ Hk1 Htop)) as (Hk2 & Hn2 & evs2 & Hh2 & Hm2 & Hf2).
  split; [eapply kept_trans; eassumption |]. split; [exact Hn2 |].
  exists (evs1 ++ evs2).
  rewrite Hh2, Hh1, misuse_app, Hm1, Hm2, exported_app, app_assoc.
  repeat split; auto. apply hangs_app; [exact Hf1 |].
  rewrite <- (kept_current _ _ _ Hk1). exact Hf2.
Qed.

(** A block that may leave early, then a rest that opens no span. *)
Lemma traced_bind_exit {A B} q1 q2 cur f (m : M A) (k : A -> M B) :
  traced q1 cur f m -> (forall a, traced q2 cur [] (k a)) ->
  traced false cur f (m ≫= k).
Proof.
  intros Hm Hk st Htop. unfold mbind, M_bind, bind.
  destruct (Hm st Htop) as (Hk1 & _ & evs1 & Hh1 & Hm1 & Hf1).
  destruct (m st) as [[a | r | e] st1]; cbn [fst snd] in *.
  - destruct (Hk a st1 (kept_on_top _ _ _ Hk1 Htop)) as (Hk2 & _ & evs2 & Hh2 & Hm2 & Hf2).
    split; [eapply kept_trans; eassumption |]. split; [discriminate |].
    exists (evs1 ++ evs2).
    rewrite Hh2, Hh1, misuse_app, Hm1, Hm2, exported_app, app_assoc.
    repeat split; auto.
    rewrite <- (app_nil_r f). apply hangs_app; [exact Hf1 |].
    rewrite <- (kept_current _ _ _ Hk1). exact Hf2.
  - split; [exact Hk1 |]. split; [discriminate |]. exists evs1. auto.
  - split; [exact Hk1 |]. split; [discriminate |]. exists evs1. auto.
Qed.

Lemma traced_if {A P Q} (c : {P} + {Q}) q1 q2 cur f (m1 m2 : M A) :
  traced q1 cur f m1 -> traced q2 cur f m2 ->
  traced (q1 && q2) cur f (if c then m1 else m2).
Proof.
  intros H1 H2. destruct c.
  - eapply traced_as; [exact H1 | | reflexivity]. now intros [-> _]%andb_prop.
  - eapply traced_as; [exact H2 | | reflexivity]. now intros [_ ->]%andb_prop.
Qed.

Lemma traced_try_except {A} q1 q2 cur f (m : M A) catches handler :
  traced q1 cur f m -> (forall e, traced q2 cur [] (handler e)) ->
  traced q1 cur f (try_except m catches handler).
Proof.
  intros Hm Hh st Htop. unfold try_except.
  destruct (Hm st Htop) as (Hk1 & Hn1 & evs1 & Hh1 & Hm1 & Hf1).
  destruct (m st) as [[a | r | e] st1]; cbn [fst snd] in *.
  - split; [exact Hk1 |]. split; [eauto |]. exists evs1. auto.
  - split; [exact Hk1 |]. split; [exact Hn1 |]. exists evs1. auto.
  - assert (Hq : q1 = true -> False).
    { intros Hq. destruct (Hn1 Hq) as [a Ha]. discriminate. }
    destruct (catches e).
    + destruct (Hh e st1 (kept_on_top _ _ _ Hk1 Htop)) as (Hk2 & _ & evs2 & Hh2 & Hm2 & Hf2).
      split; [eapply kept_trans; eassumption |]. split; [intros H; destruct (Hq H) |].
      exists (evs1 ++ evs2).
      rewrite Hh2, Hh1, misuse_app, Hm1, Hm2, exported_app, app_assoc.
      repeat split; auto.
      rewrite <- (app_nil_r f). apply hangs_app; [exact Hf1 |].
      rewrite <- (kept_current _ _ _ Hk1). exact Hf2.
    + split; [exact Hk1 |]. split; [intros H; destruct (Hq H) |]. exists evs1. auto.
Qed.

Lemma traced_try_finally {A} q cur f (m : M A) (fin : M unit) :
  traced q cur f m -> plain fin -> traced q cur f (try_finally m fin).
Proof.
  intros Hm Hfin st Htop. unfold try_finally.
  destruct (Hm st Htop) as (Hk1 & Hn1 & evs1 & Hh1 & Hm1 & Hf1).
  destruct (m st) as [o st1]. cbn [fst snd] in *.
  destruct (Hfin st1) as (u & evs2 & Ho2 & Hs2 & Hh2 & Hm2 & He2).
  destruct (fin st1) as [o2 st2]. cbn [fst snd] in *. subst o2. cbn [fst snd].
  split; [eapply kept_trans; [exact Hk1 | now apply kept_same] |].
  split; [exact Hn1 |].
  exists (evs1 ++ evs2).
  rewrite Hh2, Hh1, misuse_app, Hm1, Hm2, exported_app, He2, !app_nil_r, app_assoc.
  auto.
Qed.

(** What [open_span] makes of the span that is current. *)
Lemma open_span_links span_name st :
  exists s st',
    open_span span_name st = (Normal (next_handle st), st') /\
    stack st' = s :: stack st /\
    handle s = next_handle st /\ name s = span_name /\
    parent_span_id s = span_id <$> (context <$> current st) /\
    (forall c, context <$> current st = Some c -> trace_id (context s) = trace_id c) /\
    history st' = history st.
Proof.
  run. destruct (stack st) as [| p rest] eqn:Hst; run;
    (eexists _, _; split; [reflexivity |]; run; rewrite ?Hst;
     repeat split; try reflexivity).
  - intros c Hc. discriminate.
  - intros c Hc. cbn in Hc. now injection Hc as <-.
Qed.

(** The way out of a [with] block whose span is on top of the stack. *)
Lemma span_leaves {A} h (o : Outcome A) (s : Span) rest (st : State) :
  stack st = s :: rest -> handle s = h ->
  let run :=
    match o with
    | Raise e =>
        (record_exception h e;;
         set_status h (Error (exc_type e +:+ ": " +:+ exc_msg e));;
         close_span h;;
         raise e) st
    | out => (close_span h;; fun st'' => (out, st'')) st
    end in
  exists s',
    run.1 = o /\ stack run.2 = rest /\
    history run.2 = history st ++ [SpanExported s'] /\
    frame s' = frame s /\ end_time s' <> None.
Proof.
  intros Hst Hh. destruct o as [a | r | e]; cbv zeta;
    repeat (progress (run; rewrite ?Hst, ?Hh, ?Nat.eqb_refl));
    (eexists; repeat split; discriminate).
Qed.

(** A [with tracer.start_as_current_span(...)] block. *)
Lemma traced_span {A} q cur span_name inner (work : nat -> M A) :
  (forall h, traced q (Some h) inner (work h)) ->
  traced q cur [SpanNode span_name inner] (start_as_current_span span_name work).
Proof.
  intros Hwork st _.
  destruct (open_span_links span_name st)
    as (s & st1 & Hopen & Hstack & Hh & Hname & Hparent & Htrace & Hhist).
  set (h := next_handle st) in *.
  assert (Hrun : start_as_current_span span_name work st =
    match work h st1 with
    | (Raise e, st') =>
        (record_exception h e;;
         set_status h (Error (exc_type e +:+ ": " +:+ exc_msg e));;
         close_span h;; raise e) st'
    | (o, st') => (close_span h;; fun st'' => (o, st'')) st'
    end).
  { unfold start_as_current_span at 1. unfold mbind at 1, M_bind, bind.
    rewrite Hopen. reflexivity. }
  rewrite Hrun. clear Hrun.
  assert (Htop : on_top (Some h) st1).
  { cbn. unfold open_handles. rewrite Hstack. cbn. now rewrite Hh. }
  destruct (Hwork h st1 Htop) as ([Hframes Htail] & Hn & evs & Hh1 & Hmis & Hin).
  destruct (work h st1) as [o st2]. cbn [fst snd] in *.
  rewrite Hstack in Hframes, Htail. cbn [tail map] in *.
  destruct (stack st2) as [| s2 rest2] eqn:Hst2; [discriminate |].
  cbn [tail map] in *. subst rest2.
  assert (Hf2 : frame s2 = frame s) by congruence. clear Hframes.
  destruct (span_leaves h o s2 (stack st) st2) as (s3 & Hout & Hstack3 & Hhist3 & Hf3 & Hend).
  { exact Hst2. }
  { unfold frame in Hf2. unfold h in *. congruence. }
  assert (Hs3 : frame s3 = frame s) by congruence.
  unfold frame in Hs3. injection Hs3 as Hh3 Hn3 Hc3 Hp3.
  match goal with |- kept _ _ (?r).2 /\ _ => set (res := r) in * end.
  assert (Hr : res.1 = o /\ stack res.2 = stack st /\
               history res.2 = history st2 ++ [SpanExported s3]).
  { subst res. destruct o; cbv zeta in *; auto. }
  destruct Hr as (Hr1 & Hr2 & Hr3).
  split; [now apply kept_same |].
  split; [rewrite Hr1; exact Hn |].
  exists (evs ++ [SpanExported s3]).
  rewrite Hr3, Hh1, Hhist, misuse_app, Hmis, exported_app, app_assoc.
  repeat split; auto.
  cbn [exported]. apply hangs_cons; try congruence.
  - intros c Hc. rewrite Hc3. now apply Htrace.
  - rewrite Hc3. unfold current in Hin. rewrite Hstack in Hin. exact Hin.
  - constructor.
Qed.

Lemma traced_add_event h ev attrs : traced true (Some h) [] (add_event h ev attrs).
Proof.
  unfold add_event.
  apply (traced_bind_quiet true (Some h) [] []).
  - apply traced_plain, plain_time_time.
  - intros now. apply traced_mutate. reflexivity.
Qed.

Create HintDb plain.
#[local] Hint Resolve plain_ret plain_time_time plain_time_sleep plain_next_draw
  plain_random_random plain_random_uniform plain_random_randint plain_logger_handle
  plain_add plain_record : plain.

(** Discharges [plain] goals over the calls the handlers make. *)
Ltac still :=
  repeat match goal with
  | |- plain (mbind _ _) => apply plain_bind; [| intros ?]
  | |- plain (log_with_context _ _ _) =>
      apply plain_log_with_context; vm_compute; discriminate
  | |- plain _ => solve [auto with plain]
  end.

Ltac quiet_enough :=
  first [exact (fun H => H) | intros _; reflexivity | intros H; discriminate H].

(** Follows a handler's text, collecting the forest of its [with] blocks. *)
Ltac trace_rule :=
  match goal with
  | |- traced _ _ _ (start_as_current_span _ _) =>
      eapply traced_span; intros ?; trace_go
  | |- traced _ _ _ (try_finally _ _) =>
      eapply traced_try_finally; [trace_go | solve [still]]
  | |- traced _ _ _ (try_except _ _ _) =>
      eapply traced_try_except; [trace_go | intros ?; trace_go]
  | |- traced _ _ _ (if _ then _ else _) => eapply traced_if; trace_go
  | |- traced _ _ _ (return_ _) => apply traced_return
  | |- traced _ _ _ (raise _) => apply traced_raise
  | |- traced _ _ _ (set_attribute _ _ _) => apply traced_mutate; reflexivity
  | |- traced _ _ _ (set_status _ _) => apply traced_mutate; reflexivity
  | |- traced _ _ _ (add_event _ _ _) => apply traced_add_event
  | |- traced _ _ _ (record_exception _ _) => apply traced_add_event
  | |- traced _ _ _ (failing_operation _) => unfold failing_operation; trace_rule
  | |- traced _ _ _ (mbind _ _) =>
      first [ eapply traced_bind_quiet; [solve [trace_go] |]
            | eapply traced_bind_exit; [solve [trace_go] |] ];
      intros ?; trace_go
  | |- traced _ _ _ _ => apply traced_plain; solve [still]
  end
with trace_go := eapply traced_as; [trace_rule | quiet_enough | reflexivity].

Lemma dispatch_traced e : traced false None (span_forest e) (dispatch e).
Proof.
  destruct e; cbn [dispatch span_forest];
    unfold home, create_order, get_order, trigger_error; trace_go.
Qed.

(** X5: a request leaves the stack of open spans exactly as it found it
    and the tracer reports no misuse (no close out of order, nothing set on
    a span that is not open).  The spans exported during the request are
    those of the [with] blocks of the handler, nested as in its text: none
    for the home page; validate-order, check-inventory with db-query
    inside it, and process-payment for creating an order; fetch-from-db
    for reading one, also on the 404 return from inside the block;
    failing-operation for the error endpoint.  Each is sealed, an inner
    span is exported before the span around it and is its child, and the
    outermost spans are children of the span current when the request
    came in, in its trace. *)
Theorem request_spans_nested (e : Endpoint) (st : State) :
  stack (dispatch e st).2 = stack st /\
  exists evs,
    history (dispatch e st).2 = history st ++ evs /\
    misuse evs = [] /\
    hangs (context <$> current st) (span_forest e) (exported evs).
Proof.
  destruct (dispatch_traced e st I) as (Hk & _ & Hevs).
  split; [exact Hk | exact Hevs].
Qed.

(** ** The time of a request *)

Section Pace.
Variable instrument : string.

Lemma observations_app l1 l2 :
  observations instrument (l1 ++ l2) =
  observations instrument l1 ++ observations instrument l2.
Proof.
  induction l1 as [| e l1 IH]; [reflexivity |].
  destruct e; cbn; rewrite ?IH; try reflexivity.
  destruct (_ =? _)%string; cbn; now rewrite ?IH.
Qed.

Lemma instant_pure {A} (f : State -> A) : instant instrument (fun st => (Normal (f st), st)).
Proof. intros st. exists (f st), []. cbn. rewrite app_nil_r. auto. Qed.

Lemma instant_ret {A} (a : A) : instant instrument (mret a).
Proof. apply (instant_pure (fun _ => a)). Qed.

Lemma instant_bind {A B} (m : M A) (k : A -> M B) :
  instant instrument m -> (forall a, instant instrument (k a)) ->
  instant instrument (m ≫= k).
Proof.
  intros Hm Hk st. unfold mbind, M_bind, bind.
  destruct (Hm st) as (a & evs1 & Ho & Hc & Hh & Hobs).
  destruct (m st) as [o st1]. cbn [fst snd] in *. subst o.
  destruct (Hk a st1) as (b & evs2 & Ho2 & Hc2 & Hh2 & Hobs2).
  exists b, (evs1 ++ evs2).
  rewrite Hh2, Hh, Hc2, Hc, observations_app, Hobs, Hobs2, app_assoc. auto.
Qed.

Lemma instant_modify (f : State -> State) (evs : State -> list Emission) :
  (forall st, clock (f st) = clock st) ->
  (forall st, history (f st) = history st ++ evs st) ->
  (forall st, observations instrument (evs st) = []) ->
  instant instrument (modify f).
Proof. intros Hc Hh Ho st. exists tt, (evs st). cbn. auto. Qed.

Lemma instant_time_time : instant instrument time_time.
Proof. apply (instant_pure clock). Qed.

Lemma instant_next_draw : instant instrument next_draw.
Proof. intros st. eexists _, []. cbn. rewrite app_nil_r. auto. Qed.

Lemma instant_random_random : instant instrument random_random.
Proof. apply instant_bind; [apply instant_next_draw | intros; apply instant_ret]. Qed.

Lemma instant_random_uniform a b : instant instrument (random_uniform a b).
Proof. apply instant_bind; [apply instant_random_random | intros; apply instant_ret]. Qed.

Lemma instant_random_randint a b : instant instrument (random_randint a b).
Proof. apply instant_bind; [apply instant_next_draw | intros; apply instant_ret]. Qed.

Lemma instant_logger_handle r : instant instrument (logger_handle r).
Proof.
  apply (instant_modify _ (fun st => [LogEmitted (format st r)])); reflexivity.
Qed.

Lemma instant_log_with_context message level extra :
  logging_level (upper level) <> None ->
  instant instrument (log_with_context message level extra).
Proof.
  intros Hlvl. unfold log_with_context.
  destruct (logging_level (upper level)) as [lvl |]; [| congruence].
  apply instant_bind; [apply instant_time_time |]. intros now.
  apply instant_logger_handle.
Qed.

Lemma instant_add i delta l : instant instrument (add i delta l).
Proof.
  apply (instant_modify _ (fun _ => [CounterAdd (instr_name i) l delta])); reflexivity.
Qed.

Lemma instant_mutate_span h f : instant instrument (mutate_span h f).
Proof.
  intros st. unfold mutate_span. destruct (update_span h f (stack st)).
  - exists tt, []. cbn. rewrite app_nil_r. auto.
  - exists tt, [UsageError "span is not open"]. cbn. auto.
Qed.

Lemma instant_add_event h ev attrs : instant instrument (add_event h ev attrs).
Proof.
  apply instant_bind; [apply instant_time_time | intros; apply instant_mutate_span].
Qed.

Lemma instant_open_span n : instant instrument (open_span n).
Proof.
  intros st.
  destruct (open_span_pushes n st) as (s & st' & Hrun & _ & _ & _ & Hh & _ & Hc & _).
  exists (next_handle st), []. rewrite Hrun. cbn [fst snd].
  rewrite Hh, app_nil_r. auto.
Qed.

Lemma instant_close_span h : instant instrument (close_span h).
Proof.
  intros st. unfold close_span.
  destruct (stack st) as [| s rest]; [| destruct (handle s =? h)%nat];
    eexists tt, [_]; cbn; auto.
Qed.

Lemma paced_as {A} acc lo lo' least (m : M A) :
  paced instrument acc lo least m -> (lo' <= lo)%Q -> paced instrument acc lo' least m.
Proof.
  intros Hm Hlo st. destruct (Hm st) as (evs & Hh & Hobs & Hc & Ho).
  exists evs. repeat split; auto.
  destruct (m st).1; auto. lra.
Qed.

Lemma paced_instant {A} acc least (m : M A) :
  instant instrument m -> paced instrument acc 0 least m.
Proof.
  intros Hm st. destruct (Hm st) as (a & evs & Ho & Hc & Hh & Hobs).
  exists evs. rewrite Ho, Hc. repeat split; auto; lra.
Qed.

Lemma paced_sleep acc least (d : Q) :
  (0 <= d)%Q -> paced instrument acc d least (time_sleep d).
Proof.
  intros Hd st. exists [Slept d]. cbn. repeat split; auto; lra.
Qed.

Lemma paced_return {A} acc lo least r :
  (least (http_status r) <= acc)%Q -> paced instrument acc lo least (@return_ A r).
Proof.
  intros Hr st. exists []. cbn. rewrite app_nil_r. repeat split; auto; lra.
Qed.

Lemma paced_raise {A} acc lo least e : paced instrument acc lo least (@raise A e).
Proof.
  intros st. exists []. cbn. rewrite app_nil_r. repeat split; auto; lra.
Qed.

Lemma paced_bind {A B} acc lo1 lo2 least (m : M A) (k : A -> M B) :
  paced instrument acc lo1 least m ->
  (forall a, paced instrument (acc + lo1) lo2 least (k a)) ->
  paced instrument acc (lo1 + lo2) least (m ≫= k).
Proof.
  intros Hm Hk st. unfold mbind, M_bind, bind.
  destruct (Hm st) as (evs1 & Hh1 & Hobs1 & Hc1 & Ho1).
  destruct (m st) as [[a | r | e] st1]; cbn [fst snd] in *.
  - destruct (Hk a st1) as (evs2 & Hh2 & Hobs2 & Hc2 & Ho2).
    exists (evs1 ++ evs2).
    rewrite Hh2, Hh1, observations_app, Hobs1, Hobs2, app_assoc.
    repeat split; auto; [lra |].
    destruct (k a st1).1; auto; lra.
  - exists evs1. auto.
  - exists evs1. auto.
Qed.

(** [time.sleep(random.uniform(a, b))]: the sleep is [a] or longer. *)
Lemma paced_uniform_sleep {B} acc lo least a b (rest : Q -> M B) :
  (0 <= a)%Q -> (a <= b)%Q ->
  (forall d, paced instrument (acc + a) lo least (rest d)) ->
  paced instrument acc (a + lo) least
    (random_uniform a b ≫= fun d => time_sleep d ≫= fun _ => rest d).
Proof.
  intros Ha Hab Hrest st.
  unfold random_uniform, random_random, next_draw, time_sleep, modify,
    mbind, mret, M_bind, M_ret, bind, ret.
  cbn [fst snd].
  set (d := (a + (b - a) * unit_draw (bits st (rng_pos st)))%Q).
  assert (Hd : (a <= d)%Q).
  { subst d. pose proof (unit_draw_range (bits st (rng_pos st))) as [H0 _]. nra. }
  match goal with
  | |- context [rest d ?s] =>
      destruct (Hrest d s) as (evs & Hh & Hobs & Hc & Ho); revert Hh Hc Ho;
      destruct (rest d s) as [o st2]
  end.
  cbn [fst snd history clock emit set_clock set_rng_pos]. intros Hh Hc Ho.
  exists (Slept d :: evs). rewrite Hh, <- app_assoc.
  repeat split; auto; [lra |].
  destruct o; auto; lra.
Qed.

Lemma paced_if {A P Q} (c : {P} + {Q}) acc lo1 lo2 least (m1 m2 : M A) :
  paced instrument acc lo1 least m1 -> paced instrument acc lo2 least m2 ->
  (0 <= lo1)%Q -> (0 <= lo2)%Q ->
  paced instrument acc 0 least (if c then m1 else m2).
Proof. intros H1 H2 Hlo1 Hlo2. destruct c; eapply paced_as; eauto. Qed.

Lemma paced_try_except {A} acc lo1 lo2 least (m : M A) catches handler :
  paced instrument acc lo1 least m ->
  (forall e, paced instrument acc lo2 least (handler e)) ->
  (0 <= lo1)%Q -> (0 <= lo2)%Q ->
  paced instrument acc 0 least (try_except m catches handler).
Proof.
  intros Hm Hh Hlo1 Hlo2 st. unfold try_except.
  destruct (Hm st) as (evs1 & Hh1 & Hobs1 & Hc1 & Ho1).
  destruct (m st) as [[a | r | e] st1]; cbn [fst snd] in *.
  - exists evs1. repeat split; auto. lra.
  - exists evs1. auto.
  - destruct (catches e).
    + destruct (Hh e st1) as (evs2 & Hh2 & Hobs2 & Hc2 & Ho2).
      exists (evs1 ++ evs2).
      rewrite Hh2, Hh1, observations_app, Hobs1, Hobs2, app_assoc.
      repeat split; auto; [lra |].
      destruct (handler e st1).1; auto; lra.
    + exists evs1. cbn. auto.
Qed.

Lemma paced_span {A} acc lo least span_name (work : nat -> M A) :
  (forall h, paced instrument acc lo least (work h)) ->
  paced instrument acc lo least (start_as_current_span span_name work).
Proof.
  intros Hwork st.
  destruct (open_span_pushes span_name st)
    as (s & st0 & Hopen & _ & _ & _ & Hh0 & _ & Hc0 & _).
  set (h := next_handle st) in *.
  assert (Hrun : start_as_current_span span_name work st =
    match work h st0 with
    | (Raise e, st') =>
        (record_exception h e;;
         set_status h (Error (exc_type e +:+ ": " +:+ exc_msg e));;
         close_span h;; raise e) st'
    | (o, st') => (close_span h;; fun st'' => (o, st'')) st'
    end).
  { unfold start_as_current_span at 1. unfold mbind at 1, M_bind, bind.
    rewrite Hopen. reflexivity. }
  rewrite Hrun. clear Hrun.
  destruct (Hwork h st0) as (evs1 & Hh1 & Hobs1 & Hc1 & Ho1).
  destruct (work h st0) as [o st1]. cbn [fst snd] in *.
  rewrite Hc0 in Hc1, Ho1.
  assert (Hexit : forall (m : M unit), instant instrument m ->
            exists st2 evs2, m st1 = (Normal tt, st2) /\ clock st2 = clock st1 /\
              history st2 = history st ++ evs1 ++ evs2 /\
              observations instrument (evs1 ++ evs2) = []).
  { intros m Hm. destruct (Hm st1) as ([] & evs2 & Ho2 & Hc2 & Hh2 & Hobs2).
    destruct (m st1) as [o2 st2]. cbn [fst snd] in *. subst o2.
    exists st2, evs2. rewrite Hh2, Hh1, Hh0, observations_app, Hobs1, Hobs2, app_assoc.
    auto. }
  destruct o as [a | r | e].
  - destruct (Hexit _ (instant_close_span h)) as (st2 & evs2 & Hrun & Hc2 & Hh2 & Hobs2).
    unfold mbind, M_bind, bind. rewrite Hrun. cbn [fst snd].
    exists (evs1 ++ evs2). rewrite Hc2. repeat split; auto; lra.
  - destruct (Hexit _ (instant_close_span h)) as (st2 & evs2 & Hrun & Hc2 & Hh2 & Hobs2).
    unfold mbind, M_bind, bind. rewrite Hrun. cbn [fst snd].
    exists (evs1 ++ evs2). rewrite Hc2. repeat split; auto; lra.
  - destruct (Hexit (record_exception h e ≫= fun _ =>
                     set_status h (Error (exc_type e +:+ ": " +:+ exc_msg e)) ≫= fun _ =>
                     close_span h))
      as (st2 & evs2 & Hrun & Hc2 & Hh2 & Hobs2).
    { apply instant_bind; [apply instant_add_event | intros].
      apply instant_bind; [apply instant_mutate_span | intros; apply instant_close_span]. }
    exists (evs1 ++ evs2).
    revert Hrun. unfold mbind, M_bind, bind, raise.
    destruct (record_exception h e st1) as [[u1 | r1 | e1] s1]; cbn [fst snd]; try discriminate.
    destruct (set_status h _ s1) as [[u2 | r2 | e2] s2]; cbn [fst snd]; try discriminate.
    destruct (close_span h s2) as [[u3 | r3 | e3] s3]; cbn [fst snd]; try discriminate.
    intros [= _ <-]. rewrite Hc2. repeat split; auto; lra.
Qed.

End Pace.

(** The frame of a handler around its work: the duration observed in
    [finally] is the time from the entry to that point. *)
Lemma request_timed (work : M unit) (lbls : Labels) (least : Z -> Q) lo :
  paced "http_request_duration_seconds" 0 lo least work ->
  forall st,
    let run :=
      (start ← time_time;
       add active_requests 1 ∅;;
       try_finally work
         (add active_requests (-1) ∅;;
          now ← time_time;
          record request_duration (now - start)%Q lbls)) st in
    exists evs,
      history run.2 = history st ++ evs /\
      observations "http_request_duration_seconds" evs =
        [(lbls, (clock run.2 - clock st)%Q)] /\
      match run.1 with
      | Return r => (least (http_status r) <= clock run.2 - clock st)%Q
      | _ => True
      end.
Proof.
  intros Hwork st. run.
  match goal with |- context [work ?s] => destruct (Hwork s) as (evs & Hh & Hobs & Hc & Ho) end.
  match goal with |- context [work ?s] => destruct (work s) as [o st1] end.
  cbn [fst snd] in *. revert Hh Hc Ho. run. intros Hh Hc Ho.
  exists ([CounterAdd "http_requests_active" ∅ 1] ++ evs ++
          [CounterAdd "http_requests_active" ∅ (-1);
           HistogramRecord "http_request_duration_seconds" lbls (clock st1 - clock st)]).
  rewrite Hh, <- !app_assoc. split; [reflexivity |].
  split.
  - rewrite !observations_app, Hobs. reflexivity.
  - destruct o; auto. lra.
Qed.

Create HintDb instant.
#[local] Hint Resolve instant_ret instant_time_time instant_next_draw
  instant_random_random instant_random_uniform instant_random_randint
  instant_logger_handle instant_add instant_mutate_span instant_add_event
  instant_open_span instant_close_span : instant.

(** Discharges [instant] goals over the calls the handlers make. *)
Ltac at_once :=
  repeat match goal with
  | |- instant _ (mbind _ _) => apply instant_bind; [| intros ?]
  | |- instant _ (log_with_context _ _ _) =>
      apply instant_log_with_context; vm_compute; discriminate
  | |- instant _ (set_attribute _ _ _) => apply instant_mutate_span
  | |- instant _ (set_status _ _) => apply instant_mutate_span
  | |- instant _ (record_exception _ _) => apply instant_add_event
  | |- instant _ _ => solve [auto with instant]
  end.

(** An inequality between two given rationals. *)
Ltac given_le := apply Qle_bool_imp_le; vm_compute; reflexivity.

(** Follows a block, adding up the least sleeps on the way. *)
Ltac pace :=
  match goal with
  | |- paced _ _ _ _ (start_as_current_span _ _) =>
      eapply paced_span; intros ?; pace
  | |- paced _ _ _ _ (try_except _ _ _) =>
      eapply paced_try_except; [pace | intros ?; pace | given_le | given_le]
  | |- paced _ _ _ _ (if _ then _ else _) =>
      eapply paced_if; [pace | pace | given_le | given_le]
  | |- paced _ _ _ _ (return_ _) => apply (paced_return _ _ 0); given_le
  | |- paced _ _ _ _ (raise _) => apply (paced_raise _ _ 0)
  | |- paced _ _ _ _ (time_sleep _) => apply paced_sleep; given_le
  | |- paced _ _ _ _ (failing_operation _) => unfold failing_operation; pace
  | |- paced _ _ _ _ (random_uniform _ _ ≫= _) =>
      eapply paced_uniform_sleep; [given_le | given_le | intros ?; pace]
  | |- paced _ _ _ _ (mbind _ _) => eapply paced_bind; [pace | intros ?; pace]
  | |- paced _ _ _ _ _ => apply paced_instant; solve [at_once]
  end.

Lemma dispatch_returns (e : Endpoint) (st : State) :
  exists r, (dispatch e st).1 = Return r.
Proof.
  assert (H : accounts false (fun _ => False) (answers e) (dispatch e)).
  { destruct e; cbn [dispatch].
    - apply home_accounts.
    - apply create_order_accounts.
    - apply get_order_accounts.
    - apply trigger_error_accounts. }
  destruct (H st) as (evs & _ & Ho).
  destruct (dispatch e st).1 as [u | r | ex].
  - destruct Ho as [Hn _]. discriminate.
  - exists r. reflexivity.
  - destruct Ho as [[] _].
Qed.

Lemma dispatch_timed (e : Endpoint) (st : State) :
  exists evs,
    history (dispatch e st).2 = history st ++ evs /\
    observations "http_request_duration_seconds" evs =
      [(route e, (clock (dispatch e st).2 - clock st)%Q)] /\
    match (dispatch e st).1 with
    | Return r => (least_time e (http_status r) <= clock (dispatch e st).2 - clock st)%Q
    | _ => True
    end.
Proof.
  destruct e; cbn [dispatch route];
    unfold home, create_order, get_order, trigger_error;
    eapply request_timed; pace.
Qed.

(** X6: every request records its duration exactly once in
    [http_request_duration_seconds], under the labels of the route
    (endpoint and method, no status); the value is the time from the
    entry of the handler to its [finally] block.  It is at least the sum
    of the least sleeps on the way to the response: 0.01 s for the home
    page, 0.02 s for reading an order (found or not), 0.11 s for an order
    created with 201, and nothing for a 500. *)
Theorem request_duration_recorded (e : Endpoint) (st : State) :
  exists r evs,
    (dispatch e st).1 = Return r /\
    history (dispatch e st).2 = history st ++ evs /\
    observations "http_request_duration_seconds" evs =
      [(route e, (clock (dispatch e st).2 - clock st)%Q)] /\
    (least_time e (http_status r) <= clock (dispatch e st).2 - clock st)%Q.
Proof.
  destruct (dispatch_returns e st) as [r Hr].
  destruct (dispatch_timed e st) as (evs & Hh & Hobs & Hle).
  rewrite Hr in Hle. exists r, evs. auto.
Qed.

(** ** The emitter: what a cycle counts and logs *)

Lemma additions_app i l1 l2 : additions i (l1 ++ l2) = additions i l1 ++ additions i l2.
Proof.
  induction l1 as [| e l1 IH]; [reflexivity |].
  destruct e; cbn; rewrite ?IH; try reflexivity.
  destruct (_ =? _)%string; cbn; now rewrite ?IH.
Qed.

Lemma logged_app l1 l2 : logged (l1 ++ l2) = logged l1 ++ logged l2.
Proof.
  induction l1 as [| e l1 IH]; [reflexivity |].
  destruct e; cbn; rewrite ?IH; reflexivity.
Qed.

Lemma length_step_successes rng n : forall pos, length (step_successes rng pos n) = n.
Proof. induction n as [| n IH]; intros pos; cbn; [reflexivity | now rewrite IH]. Qed.

Lemma failed_steps_none children : forall ok,
  length ok = length children ->
  (all_true ok = true <-> failed_steps children ok = []).
Proof.
  induction children as [| c children IH]; intros [| b ok] Hlen; try discriminate.
  - cbn. tauto.
  - cbn in *. injection Hlen as Hlen. destruct b; cbn.
    + apply IH, Hlen.
    + split; discriminate.
Qed.

(** The line a step logs carries the trace id of the root. *)
Lemma step_log_in_trace operation_name cycle_count child_name st root :
  is_valid root = true ->
  in_trace (trace_id root) (step_log operation_name cycle_count child_name st root).
Proof.
  intros Hroot. unfold step_log.
  refine (proj1 (format_entry_fields (step_context st root) _ _ _)).
  - now apply child_context_valid.
  - destruct (step_failed st); split; reflexivity.
Qed.

Lemma child_steps_report operation_name cycle_count children :
  forall success st root rest,
    stack st = root :: rest ->
    is_valid (context root) = true ->
    let ok := step_successes (bits st) (rng_pos st) (length children) in
    exists st' evs,
      child_steps operation_name cycle_count success children st =
        (Normal (success && all_true ok), st') /\
      stack st' = stack st /\
      history st' = history st ++ evs /\
      additions "background_errors_total" evs =
        error_counts operation_name (failed_steps children ok) /\
      additions "background_operations_total" evs = [] /\
      length (logged evs) = length children /\
      Forall (in_trace (trace_id (context root))) (logged evs).
Proof.
  induction children as [| child_name others IH]; intros success st root rest Hst Hroot ok.
  - exists st, []. cbn. rewrite andb_true_r, app_nil_r. repeat split; auto.
  - pose proof (child_step_runs operation_name cycle_count success child_name
                  st root rest Hst) as Hrun.
    set (st1 := after_step operation_name cycle_count child_name st (context root)) in *.
    destruct (IH (if step_failed st then false else success) st1 root rest Hst Hroot)
      as (st' & evs & Hsteps & Hstack & Hhist & Herr & Hops & Hlen & Hlog).
    exists st', (step_emissions operation_name cycle_count child_name st (context root) ++ evs).
    subst ok. cbn [length step_successes all_true forallb failed_steps].
    cbn [bits rng_pos st1 after_step] in *.
    fold (step_failed st). fold all_true.
    split.
    { cbn [child_steps]. unfold mbind at 1, M_bind, bind. rewrite Hrun, Hsteps.
      destruct (step_failed st), success; reflexivity. }
    split; [exact Hstack |].
    split; [rewrite Hhist; cbn [history st1 after_step]; now rewrite app_assoc |].
    unfold step_emissions.
    rewrite !additions_app, !logged_app, Herr, Hops.
    split; [destruct (step_failed st); reflexivity |].
    split; [destruct (step_failed st); reflexivity |].
    split; [destruct (step_failed st); cbn; now rewrite Hlen |].
    apply Forall_app. split; [| exact Hlog].
    assert (Hin := step_log_in_trace operation_name cycle_count child_name st
                     (context root) Hroot).
    destruct (step_failed st); cbn; repeat constructor; exact Hin.
Qed.

Lemma emitter_cycle_report cyc st :
  stack st = [] ->
  exists st' root started completed evs duration pause,
    emitter_cycle cyc st = (Normal (cyc + 1), st') /\
    history st' =
      history st ++ [LogEmitted started] ++ evs ++
      [CounterAdd (outcome_series st).1 (outcome_series st).2 1;
       HistogramRecord (duration_series st).1 (duration_series st).2 duration;
       LogEmitted completed; SpanExported root; Slept pause] /\
    parent_span_id root = None /\
    in_trace (trace_id (context root)) started /\
    in_trace (trace_id (context root)) completed /\
    additions "background_errors_total" evs =
      error_counts (cycle_pick st).1
        (failed_steps (cycle_pick st).2 (cycle_successes st)) /\
    additions "background_operations_total" evs = [] /\
    length (logged evs) = length (cycle_pick st).2 /\
    Forall (in_trace (trace_id (context root))) (logged evs).
Proof.
  intros Hst.
  unfold outcome_series, duration_series, cycle_successes, cycle_pick.
  destruct st as [stk nh cs hs hist clk rng pos]. cbn [stack] in Hst. subst stk.
  unfold emitter_cycle, random_choice, root_operation.
  cbn [operations length]. run.
  destruct (nth _ _ _) as [operation_name child_spans] eqn:Hpick.
  run.
  match goal with
  | |- context [child_steps ?o ?c ?b ?l ?s] =>
      eassert (Hroot : stack s = _ :: _) by (run_cbn; reflexivity);
      match type of Hroot with
      | _ = ?r :: _ =>
          assert (Hvalid : is_valid (context r) = true)
            by (run_cbn; apply root_context_valid)
      end;
      destruct (child_steps_report o c l b s _ _ Hroot Hvalid)
        as (st2 & evs & Hsteps & Hstack & Hevs & Herr & Hops & Hlen & Hlog);
      rewrite Hsteps; clear Hsteps Hroot Hvalid
  end.
  revert Hstack Hevs Herr Hlog. run. intros Hstack Hevs Herr Hlog.
  repeat (progress (rewrite ?Hstack; run)).
  cbn [andb fst snd].
  eexists _, _, _, _, evs, _, _. split; [reflexivity |].
  run_cbn. cbn [instr_name bg_operations bg_duration create_counter create_histogram].
  split; [rewrite Hevs, <- !app_assoc; reflexivity |].
  cbn [parent_span_id context seal with_attribute trace_id].
  split; [reflexivity |].
  split.
  { refine (proj1 (format_entry_fields _ _ (root_context_valid _ _) _)).
    split; reflexivity. }
  split.
  { refine (proj1 (format_entry_fields _ _ (root_context_valid _ _) _)).
    split; reflexivity. }
  auto.
Qed.

(** X7: in a cycle of the emitter the error counter
    [background_errors_total] is incremented once, by 1, for each step
    that failed, in the order of the steps and under the labels
    (operation, step) of that step, and for no other; the one increment of
    [background_operations_total] carries the status "failure" exactly
    when at least one such error was counted, "success" when none was. *)
Theorem cycle_errors_counted (cyc : Z) (st : State) :
  stack st = [] ->
  let failed := failed_steps (cycle_pick st).2 (cycle_successes st) in
  exists evs,
    history (emitter_cycle cyc st).2 = history st ++ evs /\
    additions "background_errors_total" evs =
      error_counts (cycle_pick st).1 failed /\
    additions "background_operations_total" evs =
      [(labels [("operation", (cycle_pick st).1);
                ("status", match failed with [] => "success" | _ => "failure" end)],
        1)].
Proof.
  intros Hst failed.
  destruct (emitter_cycle_report cyc st Hst)
    as (st' & root & started & completed & evs & duration & pause & Hrun & Hhist &
        _ & _ & _ & Herr & Hops & _).
  rewrite Hrun. cbn [snd]. eexists. split; [exact Hhist |].
  assert (Hnone : all_true (cycle_successes st) = true <-> failed = []).
  { apply failed_steps_none. unfold cycle_successes. apply length_step_successes. }
  rewrite !additions_app, Herr, Hops.
  unfold outcome_series. cbn [additions fst snd String.eqb Ascii.eqb Bool.eqb app].
  rewrite app_nil_r.
  split; [reflexivity |].
  destruct (all_true (cycle_successes st)), failed; try reflexivity.
  - destruct Hnone as [Hnone _]. discriminate (Hnone eq_refl).
  - destruct Hnone as [_ Hnone]. discriminate (Hnone eq_refl).
Qed.

Lemma cycle_errors_counted_witness :
  stack (initial_state (fun _ => 41)) = [] /\
  exists evs,
    history (emitter_cycle 0 (initial_state (fun _ => 41))).2 = [] ++ evs /\
    additions "background_errors_total" evs =
      error_counts "data-sync" ["fetch-remote"; "transform-data"; "store-local"] /\
    additions "background_operations_total" evs =
      [(labels [("operation", "data-sync"); ("status", "failure")], 1)].
Proof.
  split; [reflexivity |].
  exact (cycle_errors_counted 0 (initial_state (fun _ => 41)) eq_refl).
Defined.

(** X8: every line logged in a cycle of the emitter (the line at the
    start, one line per step, the line at the end) carries as [traceID]
    the trace id of the cycle's root span, the parentless span exported
    last in the cycle, written as 32 hexadecimal digits. *)
Theorem cycle_logs_in_one_trace (cyc : Z) (st : State) :
  stack st = [] ->
  exists evs root,
    history (emitter_cycle cyc st).2 = history st ++ evs /\
    last (exported evs) = Some root /\
    parent_span_id root = None /\
    length (logged evs) = (2 + length (cycle_pick st).2)%nat /\
    Forall (in_trace (trace_id (context root))) (logged evs).
Proof.
  intros Hst.
  destruct (emitter_cycle_report cyc st Hst)
    as (st' & root & started & completed & evs & duration & pause & Hrun & Hhist &
        Hparent & Hstarted & Hcompleted & _ & _ & Hlen & Hlog).
  rewrite Hrun. cbn [snd]. eexists _, root. split; [exact Hhist |].
  split.
  { rewrite !exported_app. cbn [exported app]. apply last_snoc. }
  split; [exact Hparent |].
  rewrite !logged_app. cbn [logged]. rewrite !length_app, Hlen.
  split; [cbn; lia |].
  apply Forall_app. split; [repeat constructor; exact Hstarted |].
  apply Forall_app. split; [exact Hlog | repeat constructor; exact Hcompleted].
Qed.

Lemma cycle_logs_in_one_trace_witness :
  stack (initial_state (fun _ => 41)) = [] /\
  exists evs root,
    history (emitter_cycle 0 (initial_state (fun _ => 41))).2 = [] ++ evs /\
    last (exported evs) = Some root /\
    parent_span_id root = None /\
    length (logged evs) = 5%nat /\
    Forall (in_trace (trace_id (context root))) (logged evs).
Proof.
  split; [reflexivity |].
  exact (cycle_logs_in_one_trace 0 (initial_state (fun _ => 41)) eq_refl).
Defined.

(** ** The emitter: time *)

Lemma instant_record instrument i v l :
  instr_name i <> instrument -> instant instrument (record i v l).
Proof.
  intros Hne. apply (instant_modify _ _ (fun _ => [HistogramRecord (instr_name i) l v])).
  - reflexivity.
  - reflexivity.
  - intros _. cbn. apply String.eqb_neq in Hne. now rewrite Hne.
Qed.

Lemma child_step_paced i acc least operation_name cycle_count success child_name :
  paced i acc 0.05 least (child_step operation_name cycle_count success child_name).
Proof.
  unfold child_step. eapply paced_as; [pace | given_le].
Qed.

Lemma child_steps_paced i least operation_name cycle_count children :
  forall acc success,
    paced i acc (inject_Z (Z.of_nat (length children)) * 0.05) least
      (child_steps operation_name cycle_count success children).
Proof.
  induction children as [| child_name others IH]; intros acc success.
  - cbn [child_steps length]. eapply paced_as; [apply paced_instant, instant_ret |].
    given_le.
  - cbn [child_steps]. eapply paced_as.
    + eapply paced_bind; [apply child_step_paced | intros b; apply IH].
    + cbn [length]. rewrite Nat2Z.inj_succ, <- Z.add_1_r, inject_Z_plus.
      change (inject_Z 1) with 1%Q. lra.
Qed.

Lemma root_operation_paced i acc least operation_name child_spans cycle_count start :
  i <> "background_operation_duration_seconds" ->
  paced i acc (inject_Z (Z.of_nat (length child_spans)) * 0.05) least
    (root_operation operation_name child_spans cycle_count start).
Proof.
  intros Hi. unfold root_operation.
  apply paced_span. intros root_span.
  eapply paced_as.
  - eapply paced_bind; [apply paced_instant; at_once | intros ?].
    eapply paced_bind; [apply paced_instant; at_once | intros ?].
    eapply paced_bind; [apply paced_instant; at_once | intros ?].
    eapply paced_bind; [apply child_steps_paced | intros ?].
    apply paced_instant.
    repeat match goal with
    | |- instant _ (record _ _ _) => apply instant_record; cbn; congruence
    | |- instant _ (mbind _ _) => apply instant_bind; [| intros ?]
    | |- instant _ _ => solve [at_once]
    end.
  - lra.
Qed.

Lemma paced_choice {A B} i acc lo least (x : A) (seq : list A) (k : A -> M B) :
  (forall a, In a (x :: seq) -> paced i acc lo least (k a)) ->
  paced i acc lo least (random_choice (x :: seq) ≫= k).
Proof.
  intros Hk st.
  unfold random_choice, next_draw, mbind, mret, M_bind, M_ret, bind, ret.
  cbn [fst snd].
  set (a := nth _ _ _).
  assert (Ha : In a (x :: seq)).
  { subst a. apply nth_In.
    pose proof (Z.mod_pos_bound (bits st (rng_pos st)) (Z.of_nat (length (x :: seq)))
                  ltac:(cbn [length]; lia)).
    lia. }
  destruct (Hk a Ha (set_rng_pos (S (rng_pos st)) st)) as (evs & Hh & Hobs & Hc & Ho).
  exists evs. auto.
Qed.

Lemma operations_three p : In p operations -> length p.2 = 3%nat.
Proof. cbn. intuition (subst; reflexivity). Qed.

Lemma emitter_cycle_paced i acc least cyc :
  i <> "background_operation_duration_seconds" ->
  paced i acc cycle_period least (emitter_cycle cyc).
Proof.
  intros Hi. unfold emitter_cycle, operations.
  apply paced_choice. intros [operation_name child_spans] Hin.
  apply operations_three in Hin. cbn [snd] in Hin.
  eapply paced_as.
  - eapply paced_bind; [apply paced_instant, instant_time_time | intros start].
    eapply paced_bind; [apply root_operation_paced, Hi | intros _].
    pace.
  - rewrite Hin. given_le.
Qed.

Lemma emitter_loop_paced i least cycles :
  i <> "background_operation_duration_seconds" ->
  forall acc cyc,
    paced i acc (inject_Z (Z.of_nat cycles) * cycle_period) least
      (emitter_loop cycles cyc).
Proof.
  intros Hi. induction cycles as [| cycles IH]; intros acc cyc.
  - cbn [emitter_loop]. eapply paced_as; [apply paced_instant, instant_ret |].
    given_le.
  - cbn [emitter_loop]. eapply paced_as.
    + eapply paced_bind; [apply emitter_cycle_paced, Hi | intros c; apply IH].
    + rewrite Nat2Z.inj_succ, <- Z.add_1_r, inject_Z_plus.
      change (inject_Z 1) with 1%Q. lra.
Qed.

(** X9: the emitter starts at most one operation per 3.15 seconds: each
    cycle sleeps 0.05 s or more in each of the three steps of the picked
    operation and 3 s or more after it, so after [cycles] cycles, which
    all run to their end, the clock has advanced by 3.15 s times [cycles]
    or more. *)
Theorem emitter_keeps_its_pace (cycles : nat) (st : State) :
  stack st = [] ->
  exists st',
    background_mlt_emitter cycles st = (Normal (Z.of_nat cycles), st') /\
    (clock st + inject_Z (Z.of_nat cycles) * cycle_period <= clock st')%Q.
Proof.
  intros Hst. unfold background_mlt_emitter.
  destruct (emitter_loop_runs cycles 0 st Hst) as (st' & evs & Hloop & _).
  exists st'. split; [exact Hloop |].
  destruct (emitter_loop_paced "http_request_duration_seconds" (fun _ => 0%Q) cycles
              ltac:(discriminate) 0%Q 0 st) as (evs' & _ & _ & _ & Ho).
  rewrite Hloop in Ho. exact Ho.
Qed.

Lemma emitter_keeps_its_pace_witness :
  stack (initial_state (fun _ => 41)) = [] /\
  exists st',
    background_mlt_emitter 2 (initial_state (fun _ => 41)) = (Normal 2, st') /\
    (0 + inject_Z 2 * cycle_period <= clock st')%Q.
Proof.
  split; [reflexivity |].
  exact (emitter_keeps_its_pace 2 (initial_state (fun _ => 41)) eq_refl).
Defined.





(** ** Reading an order *)

Lemma randint_range a b d : a <= b -> a <= a + d mod (b - a + 1) <= b.
Proof. intros Hab. pose proof (Z.mod_pos_bound d (b - a + 1) ltac:(lia)). lia. Qed.

(** X11: reading an order exports one span, fetch-from-db, whose
    [order.id] is the id asked for and whose [order.found] tells the
    answer: false with the 404 response, true with the 200 response.  The
    order is not found exactly when the draw made after the sleep is below
    0.2.  The 200 response gives back the id asked for, with a number of
    items between 1 and 5; and each of the three lines logged on either
    way carries the id as [order_id]. *)
Theorem order_lookup_reported (order_id : string) (st : State) :
  exists r s evs,
    (get_order order_id st).1 = Return r /\
    history (get_order order_id st).2 = history st ++ evs /\
    exported evs = [s] /\
    name s = "fetch-from-db" /\
    dict_get "order.id" (attributes s) = Some (VStr order_id) /\
    dict_get "order.found" (attributes s) = Some (VBool (http_status r =? 200)) /\
    length (logged evs) = 3%nat /\
    Forall (names_order order_id) (logged evs) /\
    ((lookup_draw st < 0.2)%Q ->
     r = with_code (jsonify [("error", VStr "Order not found")]) 404) /\
    ((0.2 <= lookup_draw st)%Q ->
     http_status r = 200 /\
     dict_get "order_id" (body r) = Some (VStr order_id) /\
     exists items,
       dict_get "items" (body r) = Some (VInt items) /\ 1 <= items <= 5).
Proof.
  unfold lookup_draw.
  destruct st as [stk nh cs hs hist clk rng pos]. cbn [stack bits rng_pos].
  destruct stk as [| p rest]; rewrite Nat.add_comm; cbn [Nat.add];
    unfold get_order; run;
    (match goal with |- context [Qlt_le_dec ?u ?v] => destruct (Qlt_le_dec u v) as [Hu | Hu] end);
    run;
    (eexists _, _, _; split; [reflexivity |];
     split; [rewrite <- !app_assoc; reflexivity |];
     cbn [app exported logged length];
     split; [reflexivity |]; split; [reflexivity |];
     split; [reflexivity |]; split; [reflexivity |];
     split; [reflexivity |];
     split; [repeat constructor; unfold names_order, format_entry;
             cbn [extra_data]; destruct (is_valid _); reflexivity |]).
  all: split; intros Hdraw.
  all: try (exfalso; lra).
  all: try reflexivity.
  all: split; [reflexivity |]; split; [reflexivity |].
  all: eexists; split; [reflexivity | apply randint_range; lia].
Qed.

(** ** The order id of a request *)

Section Tagged.
Context (P : Dict -> Prop) (R G : Response -> Prop).

Lemma wordless_pure {A} (f : State -> A) : wordless (fun st => (Normal (f st), st)).
Proof. intros st. exists (f st), []. cbn. rewrite app_nil_r. auto. Qed.

Lemma wordless_ret {A} (a : A) : wordless (mret a).
Proof. apply (wordless_pure (fun _ => a)). Qed.

Lemma wordless_bind {A B} (m : M A) (k : A -> M B) :
  wordless m -> (forall a, wordless (k a)) -> wordless (m ≫= k).
Proof.
  intros Hm Hk st. unfold mbind, M_bind, bind.
  destruct (Hm st) as (a & evs1 & Ho & Hh & Hl).
  destruct (m st) as [o st1]. cbn [fst snd] in *. subst o.
  destruct (Hk a st1) as (b & evs2 & Ho2 & Hh2 & Hl2).
  exists b, (evs1 ++ evs2). rewrite Hh2, Hh, logged_app, Hl, Hl2, app_assoc. auto.
Qed.

Lemma wordless_modify (f : State -> State) (evs : State -> list Emission) :
  (forall st, history (f st) = history st ++ evs st) ->
  (forall st, logged (evs st) = []) -> wordless (modify f).
Proof. intros Hh Hl st. exists tt, (evs st). cbn. auto. Qed.

Lemma wordless_time_time : wordless time_time.
Proof. apply (wordless_pure clock). Qed.

Lemma wordless_time_sleep d : wordless (time_sleep d).
Proof. apply (wordless_modify _ (fun _ => [Slept d])); reflexivity. Qed.

Lemma wordless_next_draw : wordless next_draw.
Proof. intros st. eexists _, []. cbn. rewrite app_nil_r. auto. Qed.

Lemma wordless_random_random : wordless random_random.
Proof. apply wordless_bind; [apply wordless_next_draw | intros; apply wordless_ret]. Qed.

Lemma wordless_random_uniform a b : wordless (random_uniform a b).
Proof. apply wordless_bind; [apply wordless_random_random | intros; apply wordless_ret]. Qed.

Lemma wordless_random_randint a b : wordless (random_randint a b).
Proof. apply wordless_bind; [apply wordless_next_draw | intros; apply wordless_ret]. Qed.

Lemma wordless_add i delta l : wordless (add i delta l).
Proof.
  apply (wordless_modify _ (fun _ => [CounterAdd (instr_name i) l delta])); reflexivity.
Qed.

Lemma wordless_record i v l : wordless (record i v l).
Proof.
  apply (wordless_modify _ (fun _ => [HistogramRecord (instr_name i) l v])); reflexivity.
Qed.

Lemma wordless_mutate_span h f : wordless (mutate_span h f).
Proof.
  intros st. unfold mutate_span. destruct (update_span h f (stack st)).
  - exists tt, []. cbn. rewrite app_nil_r. auto.
  - exists tt, [UsageError "span is not open"]. cbn. auto.
Qed.

Lemma wordless_add_event h ev attrs : wordless (add_event h ev attrs).
Proof.
  apply wordless_bind; [apply wordless_time_time | intros; apply wordless_mutate_span].
Qed.

Lemma wordless_open_span n : wordless (open_span n).
Proof.
  intros st.
  destruct (open_span_pushes n st) as (s & st' & Hrun & _ & _ & _ & Hh & _).
  exists (next_handle st), []. rewrite Hrun. cbn [fst snd].
  rewrite Hh, app_nil_r. auto.
Qed.

Lemma wordless_close_span h : wordless (close_span h).
Proof.
  intros st. unfold close_span.
  destruct (stack st) as [| s rest]; [| destruct (handle s =? h)%nat];
    eexists tt, [_]; cbn; auto.
Qed.

Lemma tagged_wordless {A} (m : M A) : wordless m -> tagged P R G m.
Proof.
  intros Hm st. unfold tagged_at. destruct (Hm st) as (a & evs & Ho & Hh & Hl).
  exists evs. rewrite Ho, Hl. auto.
Qed.

(** A line logged with the fields [extra]. *)
Lemma tagged_log message level extra :
  logging_level (upper level) <> None ->
  (forall ctx r, extra_data r = Some extra -> P (format_entry ctx r)) ->
  tagged P R G (log_with_context message level extra).
Proof.
  intros Hlvl HP st. unfold tagged_at, log_with_context.
  destruct (logging_level (upper level)) as [lvl |]; [| congruence].
  eexists [LogEmitted _]. cbn. split; [reflexivity |].
  constructor; [| constructor]. apply HP. reflexivity.
Qed.

Lemma tagged_return {A} r : R r -> tagged P R G (@return_ A r).
Proof. intros Hr st. exists []. cbn. rewrite app_nil_r. auto. Qed.

Lemma tagged_raise {A} e : tagged P R G (@raise A e).
Proof. intros st. exists []. cbn. rewrite app_nil_r. auto. Qed.

Lemma tagged_bind {A B} (m : M A) (k : A -> M B) :
  tagged P R G m -> (forall a, tagged P R G (k a)) -> tagged P R G (m ≫= k).
Proof.
  intros Hm Hk st. unfold tagged_at, mbind, M_bind, bind.
  destruct (Hm st) as (evs1 & Hh1 & Ho1).
  destruct (m st) as [[a | r | e] st1]; cbn [fst snd] in *.
  - destruct (Hk a st1) as (evs2 & Hh2 & Ho2).
    exists (evs1 ++ evs2). rewrite Hh2, Hh1, app_assoc. split; [reflexivity |].
    rewrite logged_app.
    destruct (k a st1).1; rewrite ?Forall_app; tauto.
  - exists evs1. auto.
  - exists evs1. auto.
Qed.

Lemma tagged_if {A C D} (c : {C} + {D}) (m1 m2 : M A) :
  tagged P R G m1 -> tagged P R G m2 -> tagged P R G (if c then m1 else m2).
Proof. destruct c; auto. Qed.

Lemma tagged_at_try_except {A} (m : M A) catches handler st :
  tagged_at P R G m st -> (forall e, gives_up G (handler e)) ->
  tagged_at P R G (try_except m catches handler) st.
Proof.
  intros (evs1 & Hh1 & Ho1) Hh. unfold tagged_at, try_except.
  destruct (m st) as [[a | r | e] st1]; cbn [fst snd] in *.
  - exists evs1. auto.
  - exists evs1. auto.
  - destruct (catches e).
    + destruct (Hh e st1) as (r & evs2 & Ho2 & HG & Hh2).
      exists (evs1 ++ evs2). rewrite Hh2, Hh1, app_assoc, Ho2. auto.
    + exists evs1. cbn. auto.
Qed.

Lemma tagged_at_try_finally {A} (m : M A) (fin : M unit) st :
  tagged_at P R G m st -> wordless fin -> tagged_at P R G (try_finally m fin) st.
Proof.
  intros (evs1 & Hh1 & Ho1) Hfin. unfold tagged_at, try_finally.
  destruct (m st) as [o st1]. cbn [fst snd] in *.
  destruct (Hfin st1) as (u & evs2 & Ho2 & Hh2 & Hl2).
  destruct (fin st1) as [o2 st2]. cbn [fst snd] in *. subst o2. cbn [fst snd].
  exists (evs1 ++ evs2). rewrite Hh2, Hh1, app_assoc. split; [reflexivity |].
  rewrite logged_app, Hl2, app_nil_r. exact Ho1.
Qed.

(** A first call whose result and state are known. *)
Lemma tagged_at_bind {A B} (m : M A) (k : A -> M B) st a st1 evs0 :
  m st = (Normal a, st1) -> history st1 = history st ++ evs0 -> logged evs0 = [] ->
  tagged_at P R G (k a) st1 -> tagged_at P R G (m ≫= k) st.
Proof.
  intros Hm Hh0 Hl0 (evs & Hh & Ho). unfold tagged_at, mbind, M_bind, bind.
  rewrite Hm. exists (evs0 ++ evs). rewrite Hh, Hh0, app_assoc, logged_app, Hl0.
  split; [reflexivity | exact Ho].
Qed.

Lemma tagged_span {A} span_name (work : nat -> M A) :
  (forall h, tagged P R G (work h)) ->
  tagged P R G (start_as_current_span span_name work).
Proof.
  intros Hwork st. unfold tagged_at.
  destruct (open_span_pushes span_name st)
    as (s & st0 & Hopen & _ & _ & _ & Hh0 & _).
  set (h := next_handle st) in *.
  assert (Hrun : start_as_current_span span_name work st =
    match work h st0 with
    | (Raise e, st') =>
        (record_exception h e;;
         set_status h (Error (exc_type e +:+ ": " +:+ exc_msg e));;
         close_span h;; raise e) st'
    | (o, st') => (close_span h;; fun st'' => (o, st'')) st'
    end).
  { unfold start_as_current_span at 1. unfold mbind at 1, M_bind, bind.
    rewrite Hopen. reflexivity. }
  rewrite Hrun. clear Hrun.
  destruct (Hwork h st0) as (evs1 & Hh1 & Ho1).
  destruct (work h st0) as [o st1]. cbn [fst snd] in *.
  assert (Hexit : forall (m : M unit), wordless m ->
            exists st2 evs2, m st1 = (Normal tt, st2) /\
              history st2 = history st ++ evs1 ++ evs2 /\
              logged (evs1 ++ evs2) = logged evs1).
  { intros m Hm. destruct (Hm st1) as ([] & evs2 & Ho2 & Hh2 & Hl2).
    destruct (m st1) as [o2 st2]. cbn [fst snd] in *. subst o2.
    exists st2, evs2. rewrite Hh2, Hh1, Hh0, logged_app, Hl2, app_nil_r, app_assoc.
    auto. }
  destruct o as [a | r | e].
  - destruct (Hexit _ (wordless_close_span h)) as (st2 & evs2 & Hrun & Hh2 & Hl2).
    unfold mbind, M_bind, bind. rewrite Hrun. cbn [fst snd].
    exists (evs1 ++ evs2). rewrite Hl2. auto.
  - destruct (Hexit _ (wordless_close_span h)) as (st2 & evs2 & Hrun & Hh2 & Hl2).
    unfold mbind, M_bind, bind. rewrite Hrun. cbn [fst snd].
    exists (evs1 ++ evs2). rewrite Hl2. auto.
  - destruct (Hexit (record_exception h e ≫= fun _ =>
                     set_status h (Error (exc_type e +:+ ": " +:+ exc_msg e)) ≫= fun _ =>
                     close_span h))
      as (st2 & evs2 & Hrun & Hh2 & Hl2).
    { apply wordless_bind; [apply wordless_add_event | intros].
      apply wordless_bind; [apply wordless_mutate_span | intros; apply wordless_close_span]. }
    exists (evs1 ++ evs2).
    revert Hrun. unfold mbind, M_bind, bind, raise.
    destruct (record_exception h e st1) as [[u1 | r1 | e1] s1]; cbn [fst snd]; try discriminate.
    destruct (set_status h _ s1) as [[u2 | r2 | e2] s2]; cbn [fst snd]; try discriminate.
    destruct (close_span h s2) as [[u3 | r3 | e3] s3]; cbn [fst snd]; try discriminate.
    intros [= _ <-]. rewrite Hl2. auto.
Qed.

End Tagged.

Create HintDb wordless.
#[local] Hint Resolve wordless_ret wordless_time_time wordless_time_sleep
  wordless_next_draw wordless_random_random wordless_random_uniform
  wordless_random_randint wordless_add wordless_record wordless_mutate_span
  wordless_add_event wordless_open_span wordless_close_span : wordless.

(** Discharges [wordless] goals over the calls the handlers make. *)
Ltac mute :=
  repeat match goal with
  | |- wordless (mbind _ _) => apply wordless_bind; [| intros ?]
  | |- wordless (set_attribute _ _ _) => apply wordless_mutate_span
  | |- wordless (set_status _ _) => apply wordless_mutate_span
  | |- wordless (record_exception _ _) => apply wordless_add_event
  | |- wordless _ => solve [auto with wordless]
  end.

(** The entry of a record whose extra fields are given names the order. *)
Ltac order_named :=
  let ctx := fresh "ctx" in
  let r := fresh "r" in
  let Hr := fresh "Hr" in
  intros ctx r Hr; unfold names_order, format_entry; rewrite Hr;
  destruct (is_valid ctx); reflexivity.

(** Follows a block, checking every line it logs and what it returns. *)
Ltac tag :=
  match goal with
  | |- tagged _ _ _ (start_as_current_span _ _) => apply tagged_span; intros ?; tag
  | |- tagged _ _ _ (if _ then _ else _) => apply tagged_if; tag
  | |- tagged _ _ _ (return_ _) => apply tagged_return; repeat split; reflexivity
  | |- tagged _ _ _ (log_with_context _ _ _) =>
      apply tagged_log; [vm_compute; discriminate | order_named]
  | |- tagged _ _ _ (mbind _ _) => apply tagged_bind; [tag | intros ?; tag]
  | |- tagged _ _ _ _ => apply tagged_wordless; solve [mute]
  end.

(** X12: the order id of a request to create an order is ORD-n for the
    number n drawn first, between 1000 and 9999.  When the request is
    answered with 201, the response names that order id with the status
    "created", and every line logged during the request carries it as
    [order_id]. *)
Theorem order_id_follows_request (st : State) :
  let oid := "ORD-" +:+ pretty (order_number st) in
  1000 <= order_number st <= 9999 /\
  exists r evs,
    (create_order st).1 = Return r /\
    history (create_order st).2 = history st ++ evs /\
    (http_status r = 201 ->
     created_response oid r /\ Forall (names_order oid) (logged evs)).
Proof.
  intros oid. split; [apply randint_range; lia |].
  destruct (dispatch_returns CreateOrder st) as [r Hr]. cbn [dispatch] in Hr.
  assert (H : tagged_at (names_order oid) (created_response oid)
                (fun r => http_status r = 500) create_order st).
  { unfold create_order.
    eapply tagged_at_bind; [reflexivity | symmetry; apply app_nil_r | reflexivity |].
    eapply tagged_at_bind; [reflexivity | reflexivity | reflexivity |].
    apply tagged_at_try_finally; [| mute].
    apply tagged_at_try_except.
    - eapply tagged_at_bind; [reflexivity | symmetry; apply app_nil_r | reflexivity |].
      match goal with
      | |- tagged_at ?P ?R ?G ?m ?s =>
          cut (tagged P R G m); [intros Ht; exact (Ht s) |]
      end.
      tag.
    - intros e s. eexists _, _. split; [reflexivity |]. split; [reflexivity |].
      run. rewrite <- app_assoc. reflexivity. }
  destruct H as (evs & Hh & Ho). rewrite Hr in Ho.
  exists r, evs. split; [exact Hr |]. split; [exact Hh |].
  intros H201. destruct Ho as [H500 | Ho]; [congruence | exact Ho].
Qed.

(** ** What the error endpoint leaves on its span and in its log *)

(** X13: the error endpoint records its exception twice on the span
    failing-operation: once by the handler's own [record_exception] and
    once more by the [with] block the exception is re-raised through.  The
    status the handler sets, with the message alone as description, is
    replaced by the one the block sets, "ValueError: " and the message.
    Three lines are logged, of levels WARNING, ERROR and ERROR, the last
    with the message as [error] and "ValueError" as [error_type]. *)
Theorem error_recorded_twice (st : State) :
  exists s ev1 ev2 evs,
    history (trigger_error st).2 = history st ++ evs /\
    exported evs = [s] /\
    attributes s = [("error", VBool true)] /\
    events s = [ev1; ev2] /\
    records simulated_error ev1 /\ records simulated_error ev2 /\
    status s = Error ("ValueError: " +:+ exc_msg simulated_error) /\
    status s <> Error (exc_msg simulated_error) /\
    map (dict_get "level") (logged evs) =
      [Some (VStr "WARNING"); Some (VStr "ERROR"); Some (VStr "ERROR")] /\
    (exists entry,
       last (logged evs) = Some entry /\
       dict_get "message" entry = Some (VStr "Exception occurred") /\
       dict_get "error" entry = Some (VStr (exc_msg simulated_error)) /\
       dict_get "error_type" entry = Some (VStr "ValueError")).
Proof.
  unfold trigger_error, failing_operation. run.
  destruct (stack st) as [| p rest] eqn:Hst; run;
    (eexists _, _, _, _; split; [rewrite <- !app_assoc; reflexivity |];
     cbn [app exported logged map];
     split; [reflexivity |]; split; [reflexivity |]; split; [reflexivity |];
     split; [split; reflexivity |]; split; [split; reflexivity |];
     split; [reflexivity |]; split; [discriminate |];
     split;
     [ unfold format_entry; cbn [extra_data levelno];
       repeat match goal with |- context [is_valid ?c] => destruct (is_valid c) end;
       reflexivity
     | eexists; split; [reflexivity |];
       unfold format_entry; cbn [extra_data levelno];
       repeat match goal with |- context [is_valid ?c] => destruct (is_valid c) end;
       repeat split; reflexivity ]).
Qed.
